(** * Sorted block reader and access metrics (table/block.cc)

    A shallow embedding of [Block], [Block::Iter] and [BlockMetrics]
    together with the properties checked against them.

    Conventions.
    - A byte is a [Z] in [0, 256); a buffer is a [list Z].
    - [uint32_t] values are [Z] with the wrap-around written as [u32].
    - A pointer into the block is its offset from [data_].
    - A result of type [option _] is [None] when the C++ code fails an
      [assert], divides by zero or indexes the bitmap out of range.
    - A loop is a [Fixpoint] on a round count taken from the block (the
      restart count, the size of the entry region); it yields [None] if
      the count runs out, and the properties below show that on
      well-formed blocks it does not. *)

From Stdlib Require Import ZArith Lia List Bool String.
From stdpp Require Import base option list.

Local Open Scope Z_scope.

(** ** Machine integers and raw memory *)

Definition bytes := list Z.

Definition u8 (x : Z) : Z := x mod 2 ^ 8.
Definition u32 (x : Z) : Z := x mod 2 ^ 32.
Definition u64 (x : Z) : Z := x mod 2 ^ 64.

Definition is_byte (b : Z) : Prop := 0 <= b < 256.

(** [reinterpret_cast<const unsigned char*>(p)[0]] at offset [off].  The
    callers only dereference below their [limit]; outside the buffer the
    model reads 0. *)
Definition byte_at (d : bytes) (off : Z) : Z := nth (Z.to_nat off) d 0.

(** [Slice(data_ + p, n)] as the bytes it denotes. *)
Definition sub (d : bytes) (p n : Z) : bytes :=
  take (Z.to_nat n) (drop (Z.to_nat p) d).

(** ** util/coding: fixed-width and varint codecs *)

(** Modelled from the spec: [DecodeFixed32] of util/coding.h, the
    little-endian u32 read of the fixed integer codec. *)
Definition DecodeFixed32 (d : bytes) (off : Z) : Z :=
  Z.lor (Z.lor (Z.lor (byte_at d off)
                      (Z.shiftl (byte_at d (off + 1)) 8))
               (Z.shiftl (byte_at d (off + 2)) 16))
        (Z.shiftl (byte_at d (off + 3)) 24).

(** Modelled from the spec: [PutFixed64] of util/coding, the
    little-endian u64 write of the fixed integer codec. *)
Definition PutFixed64 (v : Z) : bytes :=
  map (fun i => u8 (Z.shiftr v (8 * i))) [0; 1; 2; 3; 4; 5; 6; 7].

(** Modelled from the spec: [DecodeFixed64] of util/coding.h, the
    little-endian u64 read of the fixed integer codec. *)
Definition DecodeFixed64 (d : bytes) (off : Z) : Z :=
  fold_right (fun i acc => Z.lor (Z.shiftl (byte_at d (off + i)) (8 * i)) acc)
             0 [0; 1; 2; 3; 4; 5; 6; 7].

(** Modelled from the spec: [GetVarint32Ptr] of util/coding, the
    little-endian base-128 varint32 reader with continuation bit,
    [get_varint32(ptr, limit) -> (value, next_ptr) | error].  At most five
    bytes (shifts 0, 7, ..., 28) are consumed; [None] is the NULL result. *)
Fixpoint GetVarint32Ptr_loop (n : nat) (d : bytes) (p limit shift result : Z)
  : option (Z * Z) :=
  match n with
  | O => None
  | S n' =>
      if p <? limit then
        let b := byte_at d p in
        if Z.land b 128 =? 0
        then Some (u32 (Z.lor result (Z.shiftl b shift)), p + 1)
        else GetVarint32Ptr_loop n' d (p + 1) limit (shift + 7)
               (u32 (Z.lor result (Z.shiftl (Z.land b 127) shift)))
      else None
  end.

Definition GetVarint32Ptr (d : bytes) (p limit : Z) : option (Z * Z) :=
  GetVarint32Ptr_loop 5 d p limit 0 0.

(** Modelled from the spec: [GetVarint32] on a slice, of
    util/coding, which reads one varint32 from the front of a slice and
    advances the slice past it. *)
Definition GetVarint32 (input : bytes) : option (Z * bytes) :=
  match GetVarint32Ptr input 0 (Z.of_nat (length input)) with
  | Some (v, q) => Some (v, drop (Z.to_nat q) input)
  | None => None
  end.

(** Modelled from the spec: [EncodeVarint32] of util/coding, the
    little-endian base-128 varint32 writer with continuation bit; [n]
    bounds the number of continuation bytes. *)
Fixpoint EncodeVarint32 (n : nat) (v : Z) : bytes :=
  match n with
  | O => [u8 v]
  | S n' => if v <? 128 then [u8 v]
            else u8 (Z.lor v 128) :: EncodeVarint32 n' (Z.shiftr v 7)
  end.

(** Modelled from the spec: [PutVarint32] of util/coding, which appends
    the varint32 of a 32-bit value, at most five bytes. *)
Definition PutVarint32 (v : Z) : bytes := EncodeVarint32 4 v.

(** ** Entry codec *)

(** The decoded header of one entry and the offset of its key delta. *)
Record Header := mkHeader {
  h_shared : Z;
  h_non_shared : Z;
  h_value_length : Z;
  h_key_ptr : Z
}.

(** [DecodeEntry(p, limit, &shared, &non_shared, &value_length)];
    [None] is the NULL result. *)
Definition DecodeEntry (d : bytes) (p limit : Z) : option Header :=
  if limit - p <? 3 then None
  else
    let shared := byte_at d p in
    let non_shared := byte_at d (p + 1) in
    let value_length := byte_at d (p + 2) in
    let hdr :=
      if Z.lor (Z.lor shared non_shared) value_length <? 128
      then Some (mkHeader shared non_shared value_length (p + 3))
      else
        '(shared, p1) ← GetVarint32Ptr d p limit;
        '(non_shared, p2) ← GetVarint32Ptr d p1 limit;
        '(value_length, p3) ← GetVarint32Ptr d p2 limit;
        Some (mkHeader shared non_shared value_length p3)
    in
    h ← hdr;
    if u32 (limit - h_key_ptr h) <? u32 (h_non_shared h + h_value_length h)
    then None
    else Some h.

(** ** Block iterator *)

Inductive Status :=
| Ok
| Corruption (msg : string).

(** A [Slice] whose data pointer is either an offset into the block or
    the static empty string installed by [Slice::clear()]. *)
Record Slice := mkSlice {
  sl_data : option Z;
  sl_size : Z
}.

Record Iter := mkIter {
  data_ : bytes;
  restarts_ : Z;
  num_restarts_ : Z;
  current_ : Z;
  restart_index_ : Z;
  restart_offset_ : Z;
  key_ : bytes;
  value_ : Slice;
  status_ : Status
}.

Definition set_position (it : Iter) (cur ri ro : Z) : Iter :=
  mkIter (data_ it) (restarts_ it) (num_restarts_ it) cur ri ro
         (key_ it) (value_ it) (status_ it).

Definition set_restart (it : Iter) (ri ro : Z) : Iter :=
  set_position it (current_ it) ri ro.

Definition set_entry (it : Iter) (k : bytes) (v : Slice) : Iter :=
  mkIter (data_ it) (restarts_ it) (num_restarts_ it) (current_ it)
         (restart_index_ it) (restart_offset_ it) k v (status_ it).

Definition set_status (it : Iter) (s : Status) : Iter :=
  mkIter (data_ it) (restarts_ it) (num_restarts_ it) (current_ it)
         (restart_index_ it) (restart_offset_ it) (key_ it) (value_ it) s.

(** The constructor; [assert(num_restarts_ > 0)]. *)
Definition Iter_new (data : bytes) (restarts num_restarts : Z) : option Iter :=
  if 0 <? num_restarts
  then Some (mkIter data restarts num_restarts restarts num_restarts 0
                    [] (mkSlice None 0) Ok)
  else None.

Definition Valid (it : Iter) : bool := current_ it <? restarts_ it.

(** [key()] and [value()]; both [assert(Valid())]. *)
Definition key (it : Iter) : option bytes :=
  if Valid it then Some (key_ it) else None.

Definition value (it : Iter) : option bytes :=
  if Valid it
  then match sl_data (value_ it) with
       | Some off => Some (sub (data_ it) off (sl_size (value_ it)))
       | None => Some []
       end
  else None.

(** [(value_.data() + value_.size()) - data_]; the difference is only
    defined while [value_] points into the block. *)
Definition NextEntryOffset (it : Iter) : option Z :=
  match sl_data (value_ it) with
  | Some off => Some (u32 (off + sl_size (value_ it)))
  | None => None
  end.

(** [assert(index < num_restarts_)]. *)
Definition GetRestartPoint (it : Iter) (index : Z) : option Z :=
  if index <? num_restarts_ it
  then Some (DecodeFixed32 (data_ it) (restarts_ it + index * 4))
  else None.

Definition SeekToRestartPoint (it : Iter) (index : Z) : option Iter :=
  offset ← GetRestartPoint it index;
  Some (set_entry (set_restart it index (u32 (-1))) [] (mkSlice (Some offset) 0)).

(** The end-of-block branch of [ParseNextKey] and the early return of
    [Prev]. *)
Definition mark_invalid (it : Iter) : Iter :=
  set_position it (restarts_ it) (num_restarts_ it) 0.

Definition CorruptionError (it : Iter) : Iter :=
  set_entry
    (set_status (set_position it (restarts_ it) (num_restarts_ it) 0)
                (Corruption "bad entry in block"))
    [] (mkSlice None 0).

(** The trailing [while] of [ParseNextKey]; each round increments
    [restart_index_], so [num_restarts_] rounds are enough. *)
Fixpoint ParseNextKey_fixup (fuel : nat) (it : Iter) : option Iter :=
  if u32 (restart_index_ it + 1) <? num_restarts_ it then
    match fuel with
    | O => None
    | S fuel' =>
        rp ← GetRestartPoint it (u32 (restart_index_ it + 1));
        if rp <? current_ it
        then ParseNextKey_fixup fuel'
               (set_restart it (u32 (restart_index_ it + 1)) 0)
        else Some it
    end
  else Some it.

Definition ParseNextKey (it : Iter) : option (bool * Iter) :=
  cur ← NextEntryOffset it;
  let it := set_position it cur (restart_index_ it)
                         (u32 (restart_offset_ it + 1)) in
  let p := current_ it in
  let limit := restarts_ it in
  if limit <=? p then Some (false, mark_invalid it)
  else
    match DecodeEntry (data_ it) p limit with
    | None => Some (false, CorruptionError it)
    | Some h =>
        if Z.of_nat (length (key_ it)) <? h_shared h
        then Some (false, CorruptionError it)
        else
          let k := take (Z.to_nat (h_shared h)) (key_ it)
                   ++ sub (data_ it) (h_key_ptr h) (h_non_shared h) in
          let v := mkSlice (Some (h_key_ptr h + h_non_shared h))
                           (h_value_length h) in
          it' ← ParseNextKey_fixup (Z.to_nat (num_restarts_ it))
                                   (set_entry it k v);
          Some (true, it')
    end.

Definition Next (it : Iter) : option Iter :=
  if Valid it then snd <$> ParseNextKey it else None.

(** The first [while] of [Prev]: [inl] is the early return at the first
    entry, [inr] the iterator rewound to a restart before [original]. *)
Fixpoint Prev_rewind (fuel : nat) (it : Iter) (original : Z)
  : option (Iter + Iter) :=
  match fuel with
  | O => None
  | S fuel' =>
      rp ← GetRestartPoint it (restart_index_ it);
      if original <=? rp then
        if restart_index_ it =? 0
        then Some (inl (mark_invalid it))
        else Prev_rewind fuel'
               (set_restart it (u32 (restart_index_ it - 1))
                            (restart_offset_ it))
               original
      else Some (inr it)
  end.

(** The [do ... while (ParseNextKey() && NextEntryOffset() < original)]
    of [Prev]. *)
Fixpoint Prev_scan (fuel : nat) (it : Iter) (original : Z) : option Iter :=
  match fuel with
  | O => None
  | S fuel' =>
      match ParseNextKey it with
      | None => None
      | Some (false, it') => Some it'
      | Some (true, it') =>
          nxt ← NextEntryOffset it';
          if nxt <? original then Prev_scan fuel' it' original else Some it'
      end
  end.

Definition Prev (it : Iter) : option Iter :=
  if Valid it then
    let original := current_ it in
    r ← Prev_rewind (S (Z.to_nat (restart_index_ it))) it original;
    match r with
    | inl it' => Some it'
    | inr it' =>
        it'' ← SeekToRestartPoint it' (restart_index_ it');
        Prev_scan (S (Z.to_nat (restarts_ it))) it'' original
    end
  else None.

Section Comparator.

(** [comparator_->Compare(a, b)]: negative, zero or positive. *)
Variable cmp : bytes -> bytes -> Z.

(** The binary search of [Seek]: [inl] is the corruption return, [inr]
    the final [left]. *)
Fixpoint Seek_bsearch (fuel : nat) (it : Iter) (target : bytes)
         (left right : Z) : option (Iter + Z) :=
  if left <? right then
    match fuel with
    | O => None
    | S fuel' =>
        let mid := u32 (left + right + 1) / 2 in
        region_offset ← GetRestartPoint it mid;
        match DecodeEntry (data_ it) region_offset (restarts_ it) with
        | None => Some (inl (CorruptionError it))
        | Some h =>
            if negb (h_shared h =? 0) then Some (inl (CorruptionError it))
            else
              let mid_key := sub (data_ it) (h_key_ptr h) (h_non_shared h) in
              if cmp mid_key target <? 0
              then Seek_bsearch fuel' it target mid right
              else Seek_bsearch fuel' it target left (u32 (mid - 1))
        end
    end
  else Some (inr left).

(** The linear search of [Seek]. *)
Fixpoint Seek_scan (fuel : nat) (it : Iter) (target : bytes) : option Iter :=
  match fuel with
  | O => None
  | S fuel' =>
      match ParseNextKey it with
      | None => None
      | Some (false, it') => Some it'
      | Some (true, it') =>
          if 0 <=? cmp (key_ it') target then Some it'
          else Seek_scan fuel' it' target
      end
  end.

Definition Seek (it : Iter) (target : bytes) : option Iter :=
  r ← Seek_bsearch (Z.to_nat (num_restarts_ it)) it target
                   0 (u32 (num_restarts_ it - 1));
  match r with
  | inl it' => Some it'
  | inr index =>
      it' ← SeekToRestartPoint it index;
      Seek_scan (S (Z.to_nat (restarts_ it))) it' target
  end.

End Comparator.

Definition SeekToFirst (it : Iter) : option Iter :=
  it' ← SeekToRestartPoint it 0;
  snd <$> ParseNextKey it'.

(** The [while (ParseNextKey() && NextEntryOffset() < restarts_)] of
    [SeekToLast]. *)
Fixpoint SeekToLast_scan (fuel : nat) (it : Iter) : option Iter :=
  match fuel with
  | O => None
  | S fuel' =>
      match ParseNextKey it with
      | None => None
      | Some (false, it') => Some it'
      | Some (true, it') =>
          nxt ← NextEntryOffset it';
          if nxt <? restarts_ it' then SeekToLast_scan fuel' it' else Some it'
      end
  end.

Definition SeekToLast (it : Iter) : option Iter :=
  it' ← SeekToRestartPoint it (u32 (num_restarts_ it - 1));
  SeekToLast_scan (S (Z.to_nat (restarts_ it))) it'.

(** The positioning operations of the public surface, and their runs. *)
Inductive Op :=
| OpSeekToFirst
| OpSeekToLast
| OpSeek (target : bytes)
| OpNext
| OpPrev.

Definition run_op (cmp : bytes -> bytes -> Z) (it : Iter) (o : Op)
  : option Iter :=
  match o with
  | OpSeekToFirst => SeekToFirst it
  | OpSeekToLast => SeekToLast it
  | OpSeek target => Seek cmp it target
  | OpNext => Next it
  | OpPrev => Prev it
  end.

Fixpoint run_ops (cmp : bytes -> bytes -> Z) (it : Iter) (os : list Op)
  : option Iter :=
  match os with
  | [] => Some it
  | o :: os' =>
      match run_op cmp it o with
      | Some it' => run_ops cmp it' os'
      | None => None
      end
  end.

(** The comparator of the worked examples: the lexicographic order on
    unsigned bytes, a proper prefix first. *)
Fixpoint bytewise (a b : bytes) : Z :=
  match a, b with
  | [], [] => 0
  | [], _ :: _ => -1
  | _ :: _, [] => 1
  | x :: a', y :: b' =>
      if x <? y then -1 else if y <? x then 1 else bytewise a' b'
  end.

(** ** Block handle *)

(** Modelled from the spec: the iterators [Block::NewIterator] can hand
    out.  [NewErrorIterator(s)] and [NewEmptyIterator()] are declared
    outside block.cc: an error iterator reporting [s] and an empty
    iterator, permanently invalid with status ok; the third is a
    [Block::Iter]. *)
Inductive Iterator :=
| ErrorIterator (s : Status)
| EmptyIterator
| BlockIterator (it : Iter).

Module Block.

(** Modelled from the spec: the width of [Block::restart_offset_], whose
    declaration is in table/block.h.  The trailer offsets are 32-bit and
    the field is passed as the [uint32_t restarts] of [Iter]. *)
Definition restart_offset_bits : Z := 32.

Record t := mk {
  data_ : bytes;
  size_ : Z;
  restart_offset_ : Z
}.

(** [assert(size_ >= 2*sizeof(uint32_t))]. *)
Definition NumRestarts (b : t) : option Z :=
  if size_ b <? 8 then None
  else Some (DecodeFixed32 (data_ b) (size_ b - 4)).

(** [Block::Block(contents)].  [size_] is a 64-bit [size_t];
    [1 + NumRestarts()] is computed in 32 bits, the product and the
    difference in 64 bits, and the result is stored in
    [restart_offset_].  The field is left at 0 where the constructor
    does not assign it. *)
Definition new (contents : bytes) : option t :=
  let size := Z.of_nat (length contents) in
  if size <? 4 then Some (mk contents 0 0)
  else
    n ← NumRestarts (mk contents size 0);
    let restart_offset :=
      (u64 (size - u64 (u32 (1 + n) * 4))) mod 2 ^ restart_offset_bits in
    if size - 4 <? restart_offset
    then Some (mk contents 0 restart_offset)
    else Some (mk contents size restart_offset).

Definition NewIterator (b : t) : option Iterator :=
  if size_ b <? 8
  then Some (ErrorIterator (Corruption "bad block contents"))
  else
    num_restarts ← NumRestarts b;
    if num_restarts =? 0 then Some EmptyIterator
    else BlockIterator <$> Iter_new (data_ b) (restart_offset_ b) num_restarts.

End Block.

(** ** Access metrics *)

Module BlockMetrics.

Record t := mk {
  file_number_ : Z;
  block_offset_ : Z;
  num_restarts_ : Z;
  bytes_per_restart_ : Z;
  metrics_ : bytes
}.

(** [num_restarts_*bytes_per_restart_], a 32-bit product. *)
Definition bitmap_size (num_restarts bytes_per_restart : Z) : Z :=
  u32 (num_restarts * bytes_per_restart).

(** The zero-initialising constructor. *)
Definition new (file_number block_offset num_restarts bytes_per_restart : Z)
  : t :=
  mk file_number block_offset num_restarts bytes_per_restart
     (repeat 0 (Z.to_nat (bitmap_size num_restarts bytes_per_restart))).

(** The copying constructor;
    [assert(data.size() == num_restarts_*bytes_per_restart_)]. *)
Definition new_from_data
           (file_number block_offset num_restarts bytes_per_restart : Z)
           (data : bytes) : option t :=
  if Z.of_nat (length data) =? bitmap_size num_restarts bytes_per_restart
  then Some (mk file_number block_offset num_restarts bytes_per_restart data)
  else None.

(** [Create(file_number, block_offset, db_value)].  The outer [option]
    is the assertion of the constructor, the inner one the NULL result. *)
Definition Create (file_number block_offset : Z) (db_value : bytes)
  : option (option t) :=
  match GetVarint32 db_value with
  | None => Some None
  | Some (num_restarts, data) =>
      match GetVarint32 data with
      | None => Some None
      | Some (bytes_per_restart, data') =>
          Some <$> new_from_data file_number block_offset num_restarts
                                 bytes_per_restart data'
      end
  end.

(** [Create(db_key, db_value)]. *)
Definition Create_kv (db_key db_value : bytes) : option (option t) :=
  if negb (Z.of_nat (length db_key) =? 16) then Some None
  else Create (DecodeFixed64 db_key 0) (DecodeFixed64 db_key 8) db_value.

(** [restart_offset % (bytes_per_restart_ * 8u)]; the window is a 32-bit
    product and the remainder is undefined when it is 0. *)
Definition bit_index (bytes_per_restart restart_offset : Z) : option Z :=
  let window := u32 (bytes_per_restart * 8) in
  if window =? 0 then None else Some (restart_offset mod window).

(** [restart_index*bytes_per_restart_ + bitIdx/8]; the product is
    32-bit, the sum a [size_t]. *)
Definition byte_index (bytes_per_restart restart_index bitIdx : Z) : Z :=
  u32 (restart_index * bytes_per_restart) + bitIdx / 8.

Definition RecordAccess (m : t) (restart_index restart_offset : Z)
  : option t :=
  bitIdx ← bit_index (bytes_per_restart_ m) restart_offset;
  let byteIdx := byte_index (bytes_per_restart_ m) restart_index bitIdx in
  b ← metrics_ m !! Z.to_nat byteIdx;
  Some (mk (file_number_ m) (block_offset_ m) (num_restarts_ m)
           (bytes_per_restart_ m)
           (<[Z.to_nat byteIdx := u8 (Z.lor b (Z.shiftl 1 (bitIdx mod 8)))]>
              (metrics_ m))).

Definition IsHot (m : t) (restart_index restart_offset : Z) : option bool :=
  bitIdx ← bit_index (bytes_per_restart_ m) restart_offset;
  let byteIdx := byte_index (bytes_per_restart_ m) restart_index bitIdx in
  b ← metrics_ m !! Z.to_nat byteIdx;
  Some (negb (Z.land b (Z.shiftl 1 (bitIdx mod 8)) =? 0)).

Definition GetDBKey (m : t) : bytes :=
  PutFixed64 (file_number_ m) ++ PutFixed64 (bytes_per_restart_ m).

Definition GetDBValue (m : t) : bytes :=
  PutVarint32 (num_restarts_ m) ++ PutVarint32 (bytes_per_restart_ m)
  ++ take (Z.to_nat (bitmap_size (num_restarts_ m) (bytes_per_restart_ m)))
          (metrics_ m).

(** [IsCompatible(bm)]; [None] is the NULL pointer. *)
Definition IsCompatible (m : t) (bm : option t) : bool :=
  match bm with
  | None => false
  | Some bm =>
      (num_restarts_ bm =? num_restarts_ m)
      && (bytes_per_restart_ bm =? bytes_per_restart_ m)
      && (file_number_ bm =? file_number_ m)
      && (block_offset_ bm =? block_offset_ m)
  end.

(** The [for] of [Join]: [count] rounds from index [i], each
    [metrics_[i] |= bm->metrics_[i]]; [None] when an index is outside
    one of the two bitmaps. *)
Fixpoint Join_loop (count i : nat) (metrics other : bytes) : option bytes :=
  match count with
  | O => Some metrics
  | S count' =>
      a ← metrics !! i;
      b ← other !! i;
      Join_loop count' (S i) (<[i := u8 (Z.lor a b)]> metrics) other
  end.

(** [Join(bm)]; [assert(IsCompatible(bm))]. *)
Definition Join (m : t) (bm : option t) : option t :=
  match bm with
  | None => None
  | Some b =>
      if IsCompatible m (Some b) then
        ms ← Join_loop
              (Z.to_nat (bitmap_size (num_restarts_ m) (bytes_per_restart_ m)))
              0 (metrics_ m) (metrics_ b);
        Some (mk (file_number_ m) (block_offset_ m) (num_restarts_ m)
                 (bytes_per_restart_ m) ms)
      else None
  end.

(** What the two constructors establish: 64- and 32-bit fields and a
    bitmap of [bitmap_size] bytes. *)
Record wf (m : t) : Prop := {
  wf_file_number : 0 <= file_number_ m < 2 ^ 64;
  wf_block_offset : 0 <= block_offset_ m < 2 ^ 64;
  wf_num_restarts : 0 <= num_restarts_ m < 2 ^ 32;
  wf_bytes_per_restart : 0 <= bytes_per_restart_ m < 2 ^ 32;
  wf_length :
    Z.of_nat (length (metrics_ m))
    = bitmap_size (num_restarts_ m) (bytes_per_restart_ m);
  wf_bytes : Forall is_byte (metrics_ m)
}.

(** The bit that [RecordAccess] and [IsHot] address for a pair
    [(restart_index, restart_offset)]: the byte index and the bit
    within that byte ([bitIdx%8]). *)
Definition slot (m : t) (restart_index restart_offset : Z) : option (Z * Z) :=
  bitIdx ← bit_index (bytes_per_restart_ m) restart_offset;
  Some (byte_index (bytes_per_restart_ m) restart_index bitIdx, bitIdx mod 8).

(** Metrics on which every restart index below [num_restarts_] can be
    recorded: the window is not 0 and the bitmap size does not wrap. *)
Definition addressable (m : t) : Prop :=
  wf m
  /\ u32 (bytes_per_restart_ m * 8) <> 0
  /\ num_restarts_ m * bytes_per_restart_ m < 2 ^ 32.

End BlockMetrics.

(** ** Metrics-recording iterator *)

(** The file-level [kBytesPerRestart]. *)
Definition kBytesPerRestart : Z := 2.

Module MetricsIter.

(** A [Block::Iter] together with the metrics object its [metrics_]
    pointer refers to ([None] for NULL); the object is shared with the
    caller, so every operation hands it back. *)
Record t := mk {
  iter : Iter;
  metrics_ : option BlockMetrics.t
}.

(** The private [RecordAccess()]. *)
Definition RecordAccess (mi : t) : option t :=
  match metrics_ mi with
  | Some m =>
      if Valid (iter mi) then
        m' ← BlockMetrics.RecordAccess m (restart_index_ (iter mi))
                                       (restart_offset_ (iter mi));
        Some (mk (iter mi) (Some m'))
      else Some mi
  | None => Some mi
  end.

Definition Next (mi : t) : option t :=
  it' ← Next (iter mi);
  RecordAccess (mk it' (metrics_ mi)).

Definition Prev (mi : t) : option t :=
  it' ← Prev (iter mi);
  RecordAccess (mk it' (metrics_ mi)).

Definition Seek (cmp : bytes -> bytes -> Z) (mi : t) (target : bytes)
  : option t :=
  it' ← Seek cmp (iter mi) target;
  RecordAccess (mk it' (metrics_ mi)).

Definition SeekToFirst (mi : t) : option t :=
  it' ← SeekToFirst (iter mi);
  RecordAccess (mk it' (metrics_ mi)).

Definition SeekToLast (mi : t) : option t :=
  it' ← SeekToLast (iter mi);
  RecordAccess (mk it' (metrics_ mi)).

Definition run_op (cmp : bytes -> bytes -> Z) (mi : t) (o : Op) : option t :=
  match o with
  | OpSeekToFirst => SeekToFirst mi
  | OpSeekToLast => SeekToLast mi
  | OpSeek target => Seek cmp mi target
  | OpNext => Next mi
  | OpPrev => Prev mi
  end.

Fixpoint run_ops (cmp : bytes -> bytes -> Z) (mi : t) (os : list Op)
  : option t :=
  match os with
  | [] => Some mi
  | o :: os' =>
      match run_op cmp mi o with
      | Some mi' => run_ops cmp mi' os'
      | None => None
      end
  end.

End MetricsIter.

(** What [Block::NewMetricsIterator] returns: an error iterator, an
    empty iterator or a [MetricsIter]. *)
Inductive MetricsIterator :=
| MetricsErrorIterator (s : Status)
| MetricsEmptyIterator
| MetricsBlockIterator (mi : MetricsIter.t).

(** [Block::NewMetricsIterator(cmp, file_number, block_offset, metrics)]:
    the iterator returned and the pointer stored in [*metrics]. *)
Definition NewMetricsIterator (b : Block.t) (file_number block_offset : Z)
  : option (MetricsIterator * option BlockMetrics.t) :=
  if Block.size_ b <? 8
  then Some (MetricsErrorIterator (Corruption "bad block contents"), None)
  else
    num_restarts ← Block.NumRestarts b;
    if num_restarts =? 0 then Some (MetricsEmptyIterator, None)
    else
      it ← Iter_new (Block.data_ b) (Block.restart_offset_ b) num_restarts;
      let m := BlockMetrics.new file_number block_offset num_restarts
                                kBytesPerRestart in
      Some (MetricsBlockIterator (MetricsIter.mk it (Some m)), Some m).


(** ** Well-formed blocks *)

(** One entry of the block as the reader sees it: where it starts, the
    prefix length it shares, its reconstructed key and where its value
    lies. *)
Record Entry := mkEntry {
  e_off : Z;
  e_shared : Z;
  e_key : bytes;
  e_voff : Z;
  e_vlen : Z
}.

Definition e_end (e : Entry) : Z := e_voff e + e_vlen e.

Definition e_value (e : Entry) : Slice :=
  mkSlice (Some (e_voff e)) (e_vlen e).

Definition nil_entry : Entry := mkEntry 0 0 [] 0 0.

(** The entry decoded at [off] when the previous key is [prev]; the
    decoding step of [ParseNextKey] without its corruption exits. *)
Definition decode_at (d : bytes) (limit : Z) (prev : bytes) (off : Z)
  : option Entry :=
  h ← DecodeEntry d off limit;
  if Z.of_nat (length prev) <? h_shared h then None
  else Some (mkEntry off (h_shared h)
                     (take (Z.to_nat (h_shared h)) prev
                      ++ sub d (h_key_ptr h) (h_non_shared h))
                     (h_key_ptr h + h_non_shared h) (h_value_length h)).

(** [es] is the sequence of entries that fills the region from [off] to
    [limit] exactly. *)
Fixpoint parses (d : bytes) (limit : Z) (prev : bytes) (off : Z)
         (es : list Entry) : Prop :=
  match es with
  | [] => off = limit
  | e :: es' =>
      off < limit /\ decode_at d limit prev off = Some e
      /\ parses d limit (e_key e) (e_end e) es'
  end.

(** The entry list of a region, computed; [None] when the region does
    not decode. *)
Fixpoint entries_from (fuel : nat) (d : bytes) (limit : Z) (prev : bytes)
         (off : Z) : option (list Entry) :=
  match fuel with
  | O => None
  | S fuel' =>
      if limit <=? off then (if off =? limit then Some [] else None)
      else
        e ← decode_at d limit prev off;
        es ← entries_from fuel' d limit (e_key e) (e_end e);
        Some (e :: es)
  end.

(** The restart array entry [i] of a block with restart array at
    [restarts]. *)
Definition restart_point (d : bytes) (restarts i : Z) : Z :=
  DecodeFixed32 d (restarts + i * 4).

(** The key stored in full at restart point [i], as the binary search
    of [Seek] reads it ([mid_key]). *)
Definition restart_key (d : bytes) (restarts i : Z) : bytes :=
  match DecodeEntry d (restart_point d restarts i) restarts with
  | Some h => sub d (h_key_ptr h) (h_non_shared h)
  | None => []
  end.

(** The block geometry of section 3 for a buffer [d] whose restart array
    of [n] offsets starts at [restarts], with entry list [es]:
    every byte is an unsigned char, the entry region decodes into [es],
    each restart offset is the start of an entry with [shared = 0], the
    restart offsets are strictly increasing from 0, and the keys are
    non-decreasing under [cmp]. *)
Record wf_block (cmp : bytes -> bytes -> Z) (d : bytes) (restarts n : Z)
       (es : list Entry) : Prop := {
  wf_is_bytes : Forall is_byte d;
  wf_restarts_range : 0 <= restarts < 2 ^ 32;
  wf_num_restarts_pos : 0 < n;
  wf_parses : parses d restarts [] 0 es;
  wf_restart_entry :
    forall i, 0 <= i < n ->
      exists j, (j < length es)%nat
                /\ restart_point d restarts i = e_off (nth j es nil_entry)
                /\ e_shared (nth j es nil_entry) = 0;
  wf_restart_first : restart_point d restarts 0 = 0;
  wf_restart_incr :
    forall i i', 0 <= i -> i < i' -> i' < n ->
      restart_point d restarts i < restart_point d restarts i';
  wf_sorted :
    forall j k, (j <= k)%nat -> (k < length es)%nat ->
      cmp (e_key (nth j es nil_entry)) (e_key (nth k es nil_entry)) <= 0
}.

(** The iterator [it] runs over the block [(d, restarts, n)]. *)
Definition on_block (d : bytes) (restarts n : Z) (it : Iter) : Prop :=
  data_ it = d /\ restarts_ it = restarts /\ num_restarts_ it = n.

(** The iterator stands on the entry [e]: offset, key and value are
    those of [e]. *)
Definition at_entry (it : Iter) (e : Entry) : Prop :=
  Valid it = true /\ current_ it = e_off e /\ key_ it = e_key e
  /\ value_ it = e_value e.

(** The key before entry [j] and the offset at which entry [j] starts,
    for an entry list that begins at [off] after the key [prev];
    [start_off] at [length es] is the end of the list. *)
Definition prev_key (prev : bytes) (es : list Entry) (j : nat) : bytes :=
  match j with
  | O => prev
  | S j' => e_key (nth j' es nil_entry)
  end.

Definition start_off (off : Z) (es : list Entry) (j : nat) : Z :=
  match j with
  | O => off
  | S j' => e_end (nth j' es nil_entry)
  end.

(** The state in which [ParseNextKey] is called to read entry [j]:
    [value_] ends where entry [j] starts, [key_] is the previous key
    unless entry [j] shares nothing, and [restart_index_] names a
    restart point that is not after entry [j]. *)
Definition ready (d : bytes) (restarts n : Z) (es : list Entry)
           (it : Iter) (j : nat) : Prop :=
  on_block d restarts n it
  /\ (exists vo vs, value_ it = mkSlice (Some vo) vs
                    /\ vo + vs = start_off 0 es j)
  /\ ((j < length es)%nat ->
      key_ it = prev_key [] es j \/ e_shared (nth j es nil_entry) = 0)
  /\ 0 <= restart_index_ it < n
  /\ restart_point d restarts (restart_index_ it) <= start_off 0 es j.

(** The iterator stands on entry [j] of the block, with a
    [restart_index_] that names a restart point not after it. *)
Definition positioned (d : bytes) (restarts n : Z) (es : list Entry)
           (it : Iter) (j : nat) : Prop :=
  on_block d restarts n it
  /\ (j < length es)%nat
  /\ at_entry it (nth j es nil_entry)
  /\ 0 <= restart_index_ it < n
  /\ restart_point d restarts (restart_index_ it)
     <= e_off (nth j es nil_entry).

(** What holds of an iterator between operations: it runs over the
    block, and while valid it stands on one of the entries. *)
Definition cursor_ok (d : bytes) (restarts n : Z) (es : list Entry)
           (it : Iter) : Prop :=
  on_block d restarts n it
  /\ (Valid it = true -> exists j, positioned d restarts n es it j).

(** The binary search of [Seek] in the words of section 4.3.2: [L] is
    the largest restart index whose key is at most the target. *)
Definition largest_restart_le (cmp : bytes -> bytes -> Z) (d : bytes)
           (restarts n : Z) (target : bytes) (L : Z) : Prop :=
  0 <= L < n
  /\ cmp (restart_key d restarts L) target <= 0
  /\ forall i, L < i -> i < n -> 0 < cmp (restart_key d restarts i) target.

(** The binary search of [Seek] as the code has it: [L] is the largest
    restart index whose key is below the target, or 0 when no restart
    key is. *)
Definition largest_restart_lt (cmp : bytes -> bytes -> Z) (d : bytes)
           (restarts n : Z) (target : bytes) (L : Z) : Prop :=
  0 <= L < n
  /\ (L = 0 \/ cmp (restart_key d restarts L) target < 0)
  /\ forall i, L < i -> i < n -> 0 <= cmp (restart_key d restarts i) target.

(** The state [CorruptionError] leaves behind: the corruption status,
    an invalid position, and neither key nor value. *)
Definition corrupted (it : Iter) : Prop :=
  status_ it = Corruption "bad entry in block"
  /\ Valid it = false /\ key_ it = [] /\ value_ it = mkSlice None 0.

(** ** Iterators over arbitrary buffers *)

(** The geometry an iterator is constructed with: a 32-bit offset of the
    restart array and a restart count for which the midpoints of the
    binary search fit in 32 bits. *)
Definition geometry_ok (it : Iter) : Prop :=
  0 <= restarts_ it < 2 ^ 32 /\ 0 < num_restarts_ it <= 2 ^ 31.

(** [it'] runs over the same block as [it]: the three [const] fields. *)
Definition same_block (it it' : Iter) : Prop :=
  data_ it' = data_ it /\ restarts_ it' = restarts_ it
  /\ num_restarts_ it' = num_restarts_ it.

(** The buffer [d] holds the entry region and the restart array of a
    block with restart array at [restarts], its bytes are unsigned
    chars, and no header that decodes in the entry region announces a
    key delta and a value whose lengths overflow 32 bits when added:
    what the iterator reads lies inside the buffer. *)
Definition reads_in_buffer (d : bytes) (restarts num_restarts : Z) : Prop :=
  Forall is_byte d
  /\ restarts + 4 * num_restarts <= Z.of_nat (length d)
  /\ forall p h,
      0 <= p -> DecodeEntry d p restarts = Some h ->
      h_non_shared h + h_value_length h < 2 ^ 32.

(** What an operation leaves behind when it ends on an entry: the entry
    starts inside the entry region, its header decodes there and
    [value_] is the value it announces, the entry takes at least three
    bytes and ends, in 32-bit arithmetic, at or before the restart
    array; [restart_index_] is a restart index, and the restart point
    after it is not before the entry. *)
Definition entry_ok (it : Iter) : Prop :=
  0 <= current_ it
  /\ 0 <= restart_index_ it < num_restarts_ it
  /\ (exists h,
         DecodeEntry (data_ it) (current_ it) (restarts_ it) = Some h
         /\ value_ it = mkSlice (Some (h_key_ptr h + h_non_shared h))
                                (h_value_length h))
  /\ (exists nxt, NextEntryOffset it = Some nxt
                  /\ current_ it + 3 <= nxt <= restarts_ it)
  /\ (restart_index_ it + 1 < num_restarts_ it ->
      current_ it
      <= DecodeFixed32 (data_ it)
                       (restarts_ it + (restart_index_ it + 1) * 4)).

(** What holds of an iterator between operations, whatever the bytes of
    the block. *)
Definition steady (it : Iter) : Prop :=
  geometry_ok it
  /\ 0 <= restart_offset_ it < 2 ^ 32
  /\ (Valid it = true -> entry_ok it).

(** The assertion an operation starts with: [Next] and [Prev] want a
    valid iterator. *)
Definition op_allowed (it : Iter) (o : Op) : bool :=
  match o with
  | OpNext | OpPrev => Valid it
  | _ => true
  end.

(** The slot of the iterator's position is hot in the metrics it
    records into. *)
Definition position_hot (mi : MetricsIter.t) : Prop :=
  Valid (MetricsIter.iter mi) = true ->
  exists m,
    MetricsIter.metrics_ mi = Some m
    /\ BlockMetrics.IsHot m (restart_index_ (MetricsIter.iter mi))
                            (restart_offset_ (MetricsIter.iter mi))
       = Some true.

(** ** Worked blocks *)

(** Keys k01 k02 k03 k10 k11, each with value v; restarts at k01 and
    k10. *)
Definition block_k : bytes :=
  [0;3;1;107;48;49;118; 2;1;1;50;118; 2;1;1;51;118;
   0;3;1;107;49;48;118; 2;1;1;49;118;
   0;0;0;0; 17;0;0;0; 2;0;0;0].

Definition entries_k : list Entry :=
  [mkEntry 0 0 [107;48;49] 6 1; mkEntry 7 2 [107;48;50] 11 1;
   mkEntry 12 2 [107;48;51] 16 1; mkEntry 17 0 [107;49;48] 23 1;
   mkEntry 24 2 [107;49;49] 28 1].

Definition iter_k : Iter :=
  mkIter block_k 29 2 29 2 0 [] (mkSlice None 0) Ok.

(** Keys a and c, each the first entry of its own restart region. *)
Definition block_ac : bytes :=
  [0;1;1;97;49; 0;1;1;99;50; 0;0;0;0; 5;0;0;0; 2;0;0;0].

Definition entries_ac : list Entry :=
  [mkEntry 0 0 [97] 4 1; mkEntry 5 0 [99] 9 1].

Definition iter_ac : Iter :=
  mkIter block_ac 10 2 10 2 0 [] (mkSlice None 0) Ok.

(** Key abc followed by an entry that claims 99 shared bytes. *)
Definition block_bad : bytes :=
  [0;3;1;97;98;99;118; 99;1;1;100;118; 0;0;0;0; 1;0;0;0].

Definition iter_bad : Iter :=
  mkIter block_bad 12 1 12 1 0 [] (mkSlice None 0) Ok.

(** Eight bytes whose trailer announces 2^30 restarts. *)
Definition block_wrap : bytes := [0;0;0;0; 0;0;0;64].

(** [iter_k] on k03, the last entry before the second restart point,
    as [SeekToLast] and two [Prev] leave it. *)
Definition iter_k_third : Iter :=
  mkIter block_k 29 2 12 0 2 [107;48;51] (mkSlice (Some 16) 1) Ok.

(** [iter_bad] after [SeekToFirst], after the [Next] that meets the bad
    entry, and after one more [SeekToFirst]. *)
Definition iter_bad_first : Iter :=
  mkIter block_bad 12 1 0 0 0 [97;98;99] (mkSlice (Some 6) 1) Ok.

Definition iter_bad_corrupt : Iter :=
  mkIter block_bad 12 1 12 1 0 [] (mkSlice None 0)
         (Corruption "bad entry in block").

Definition iter_bad_again : Iter :=
  mkIter block_bad 12 1 0 0 0 [97;98;99] (mkSlice (Some 6) 1)
         (Corruption "bad entry in block").

(** Metrics for one restart region of two bytes, file 1, block offset 7. *)
Definition metrics_ex : BlockMetrics.t := BlockMetrics.new 1 7 1 2.

(** Metrics with [bytes_per_restart = 0], as [Create] builds them from
    the value bytes 01 00. *)
Definition metrics_zero : BlockMetrics.t := BlockMetrics.mk 1 7 1 0 [].

(** Metrics with 2^31 restart regions of two bytes: the 32-bit product
    that sizes the bitmap is 0. *)
Definition metrics_wrapped : BlockMetrics.t :=
  BlockMetrics.mk 1 7 (2 ^ 31) 2 [].

(** Metrics with [bytes_per_restart = 2^29], whose window of 2^32 bits
    is 0 in 32-bit arithmetic. *)
Definition metrics_wide : BlockMetrics.t := BlockMetrics.new 1 7 1 (2 ^ 29).

(** The handle [Block::Block] builds for [block_k]: 41 bytes, restart
    array at offset 29. *)
Definition handle_k : Block.t := Block.mk block_k 41 29.

(** [iter_k] on k02, as [SeekToFirst] and one [Next] leave it. *)
Definition iter_k_second : Iter :=
  mkIter block_k 29 2 7 0 1 [107;48;50] (mkSlice (Some 11) 1) Ok.

(** The metrics [NewMetricsIterator] creates for [block_k] as block 7
    of file 1, the [MetricsIter] it returns, and both after
    [SeekToFirst] and one [Next]. *)
Definition metrics_k : BlockMetrics.t := BlockMetrics.new 1 7 2 kBytesPerRestart.

Definition miter_k : MetricsIter.t := MetricsIter.mk iter_k (Some metrics_k).

Definition metrics_k_second : BlockMetrics.t :=
  BlockMetrics.mk 1 7 2 2 [3; 0; 0; 0].

Definition miter_k_second : MetricsIter.t :=
  MetricsIter.mk iter_k_second (Some metrics_k_second).

(** [iter_k] on k11 and the metrics after a further [SeekToLast]. *)
Definition iter_k_last : Iter :=
  mkIter block_k 29 2 24 1 1 [107;49;49] (mkSlice (Some 28) 1) Ok.

Definition metrics_k_last : BlockMetrics.t :=
  BlockMetrics.mk 1 7 2 2 [3; 0; 2; 0].

Definition miter_k_last : MetricsIter.t :=
  MetricsIter.mk iter_k_last (Some metrics_k_last).

(** Two compatible metrics for one restart region, and a third. *)
Definition metrics_a : BlockMetrics.t := BlockMetrics.mk 1 7 1 2 [1; 0].
Definition metrics_b : BlockMetrics.t := BlockMetrics.mk 1 7 1 2 [4; 128].
Definition metrics_c : BlockMetrics.t := BlockMetrics.mk 1 7 1 2 [0; 2].

(** * Properties *)

Arguments u8 : simpl never.
Arguments u32 : simpl never.
Arguments u64 : simpl never.
Arguments byte_at : simpl never.
Arguments sub : simpl never.
Arguments DecodeFixed32 : simpl never.
Arguments DecodeEntry : simpl never.
Arguments decode_at : simpl never.
Arguments restart_point : simpl never.
Arguments restart_key : simpl never.

(** ** Raw memory and the entry codec *)

Lemma u32_small x : 0 <= x < 2 ^ 32 -> u32 x = x.
Proof. intros H. unfold u32. apply Z.mod_small. exact H. Qed.

Lemma u32_range x : 0 <= u32 x < 2 ^ 32.
Proof. unfold u32. apply Z.mod_pos_bound. lia. Qed.

Lemma byte_at_range d off : Forall is_byte d -> is_byte (byte_at d off).
Proof.
  intros Hd. unfold byte_at.
  destruct (nth_in_or_default (Z.to_nat off) d 0) as [Hin | ->].
  - apply (proj1 (List.Forall_forall is_byte d) Hd). exact Hin.
  - unfold is_byte. lia.
Qed.

Lemma GetVarint32Ptr_loop_bounds n d limit :
  forall p shift result v q,
    GetVarint32Ptr_loop n d p limit shift result = Some (v, q) ->
    p < q <= limit /\ 0 <= v < 2 ^ 32.
Proof.
  induction n as [| n IH]; intros p shift result v q; simpl; [discriminate |].
  destruct (p <? limit) eqn:Hp; [| discriminate].
  apply Z.ltb_lt in Hp.
  destruct (Z.land (byte_at d p) 128 =? 0).
  - intros [= <- <-]. split; [lia | apply u32_range].
  - intros H. apply IH in H. lia.
Qed.

Lemma GetVarint32Ptr_bounds d p limit v q :
  GetVarint32Ptr d p limit = Some (v, q) ->
  p < q <= limit /\ 0 <= v < 2 ^ 32.
Proof. apply GetVarint32Ptr_loop_bounds. Qed.

(** A decoded header lies inside the region, takes at least three bytes
    and holds no negative length. *)
Lemma DecodeEntry_bounds d p limit h :
  Forall is_byte d ->
  DecodeEntry d p limit = Some h ->
  p + 3 <= h_key_ptr h <= limit
  /\ 0 <= h_shared h /\ 0 <= h_non_shared h /\ 0 <= h_value_length h.
Proof.
  intros Hd. unfold DecodeEntry.
  destruct (limit - p <? 3) eqn:Hlim; [discriminate |].
  apply Z.ltb_ge in Hlim.
  pose proof (byte_at_range d p Hd) as B0.
  pose proof (byte_at_range d (p + 1) Hd) as B1.
  pose proof (byte_at_range d (p + 2) Hd) as B2.
  unfold is_byte in *.
  destruct (Z.lor (Z.lor (byte_at d p) (byte_at d (p + 1))) (byte_at d (p + 2))
            <? 128).
  - simpl.
    destruct (u32 (limit - (p + 3)) <? u32 (byte_at d (p + 1) + byte_at d (p + 2)));
      [discriminate |].
    intros [= <-]. simpl. lia.
  - destruct (GetVarint32Ptr d p limit) as [[s p1] |] eqn:E1; [| discriminate].
    simpl.
    destruct (GetVarint32Ptr d p1 limit) as [[ns p2] |] eqn:E2; [| discriminate].
    simpl.
    destruct (GetVarint32Ptr d p2 limit) as [[vl p3] |] eqn:E3; [| discriminate].
    simpl.
    destruct (u32 (limit - p3) <? u32 (ns + vl)); [discriminate |].
    intros [= <-]. simpl.
    apply GetVarint32Ptr_bounds in E1, E2, E3. lia.
Qed.

(** What [decode_at] says about the entry it returns. *)
Lemma decode_at_inv d limit prev off e :
  decode_at d limit prev off = Some e ->
  exists h, DecodeEntry d off limit = Some h
            /\ h_shared h <= Z.of_nat (length prev)
            /\ e = mkEntry off (h_shared h)
                     (take (Z.to_nat (h_shared h)) prev
                      ++ sub d (h_key_ptr h) (h_non_shared h))
                     (h_key_ptr h + h_non_shared h) (h_value_length h).
Proof.
  unfold decode_at.
  destruct (DecodeEntry d off limit) as [h |]; [| discriminate]. simpl.
  destruct (Z.of_nat (length prev) <? h_shared h) eqn:Hs; [discriminate |].
  apply Z.ltb_ge in Hs. intros [= <-]. exists h. auto.
Qed.

Lemma decode_at_bounds d limit prev off e :
  Forall is_byte d ->
  decode_at d limit prev off = Some e ->
  e_off e = off /\ off + 3 <= e_voff e /\ 0 <= e_vlen e /\ 0 <= e_shared e.
Proof.
  intros Hd He. apply decode_at_inv in He as (h & Hh & _ & ->).
  apply DecodeEntry_bounds in Hh; [| exact Hd]. simpl. lia.
Qed.

(** ** Entry lists *)

Lemma prev_key_cons prev e es j :
  prev_key prev (e :: es) (S j) = prev_key (e_key e) es j.
Proof. destruct j; reflexivity. Qed.

Lemma start_off_cons off e es j :
  start_off off (e :: es) (S j) = start_off (e_end e) es j.
Proof. destruct j; reflexivity. Qed.

Lemma parses_nth d limit es :
  forall prev off j,
    parses d limit prev off es -> (j < length es)%nat ->
    start_off off es j < limit
    /\ decode_at d limit (prev_key prev es j) (start_off off es j)
       = Some (nth j es nil_entry).
Proof.
  induction es as [| e es IH]; intros prev off j Hp Hj; simpl in Hj; [lia |].
  destruct Hp as (Hlt & Hdec & Hrest).
  destruct j as [| j].
  - simpl. auto.
  - rewrite prev_key_cons, start_off_cons.
    change (nth (S j) (e :: es) nil_entry) with (nth j es nil_entry).
    apply IH; [exact Hrest | lia].
Qed.

Lemma parses_end d limit es :
  forall prev off,
    parses d limit prev off es -> start_off off es (length es) = limit.
Proof.
  induction es as [| e es IH]; intros prev off Hp.
  - exact Hp.
  - destruct Hp as (_ & _ & Hrest).
    change (length (e :: es)) with (S (length es)).
    rewrite start_off_cons. eapply IH; eauto.
Qed.

Lemma entries_from_parses fuel d limit :
  forall prev off es,
    entries_from fuel d limit prev off = Some es ->
    parses d limit prev off es.
Proof.
  induction fuel as [| fuel IH]; intros prev off es; simpl; [discriminate |].
  destruct (limit <=? off) eqn:Hlim.
  - destruct (off =? limit) eqn:Heq; [| discriminate].
    intros [= <-]. simpl. lia.
  - apply Z.leb_gt in Hlim.
    destruct (decode_at d limit prev off) as [e |] eqn:He; [| discriminate].
    simpl.
    destruct (entries_from fuel d limit (e_key e) (e_end e)) as [es' |] eqn:Hes;
      [| discriminate].
    simpl. intros [= <-]. simpl. auto.
Qed.

(** ** Iteration over a well-formed block *)

Section WellFormed.

Variable cmp : bytes -> bytes -> Z.
Variables (d : bytes) (R N : Z) (es : list Entry).
Hypothesis Hwf : wf_block cmp d R N es.

(** The comparator orders keys: below a key that is below the target is
    below the target. *)
Hypothesis cmp_trans :
  forall a b c, cmp a b <= 0 -> cmp b c < 0 -> cmp a c < 0.

Local Abbreviation ent j := (nth j es nil_entry).
Local Abbreviation so j := (start_off 0 es j).
Local Abbreviation rp i := (restart_point d R i).

Lemma wf_decode j :
  (j < length es)%nat ->
  so j < R /\ decode_at d R (prev_key [] es j) (so j) = Some (ent j).
Proof. apply parses_nth. apply Hwf. Qed.

Lemma wf_off j : (j < length es)%nat -> e_off (ent j) = so j.
Proof.
  intros Hj. destruct (wf_decode j Hj) as [_ Hd].
  apply decode_at_bounds in Hd; [tauto | apply Hwf].
Qed.

Lemma wf_step j : (j < length es)%nat -> so j + 3 <= so (S j).
Proof.
  intros Hj. destruct (wf_decode j Hj) as [_ Hd].
  apply decode_at_bounds in Hd; [| apply Hwf].
  simpl. unfold e_end. lia.
Qed.

Lemma wf_so_end : so (length es) = R.
Proof. eapply parses_end. apply Hwf. Qed.

Lemma wf_so_mono j k :
  (j <= k)%nat -> (k <= length es)%nat ->
  so j + 3 * (Z.of_nat k - Z.of_nat j) <= so k.
Proof.
  intros Hjk. induction Hjk as [| k Hjk IH]; intros Hk.
  - lia.
  - pose proof (wf_step k ltac:(lia)). specialize (IH ltac:(lia)). lia.
Qed.

Lemma wf_so_range j : (j <= length es)%nat -> 0 <= so j <= R.
Proof.
  intros Hj.
  pose proof (wf_so_mono 0 j ltac:(lia) Hj) as H0.
  pose proof (wf_so_mono j (length es) Hj ltac:(lia)) as H1.
  rewrite wf_so_end in H1. simpl in H0. lia.
Qed.

Lemma wf_so_lt j k :
  (j <= length es)%nat -> (k <= length es)%nat -> so j < so k -> (j < k)%nat.
Proof.
  intros Hj Hk Hlt.
  destruct (le_lt_dec k j) as [Hkj |]; [| assumption].
  pose proof (wf_so_mono k j Hkj Hj). lia.
Qed.

Lemma wf_so_inj j k :
  (j <= length es)%nat -> (k <= length es)%nat -> so j = so k -> j = k.
Proof.
  intros Hj Hk Heq.
  destruct (lt_eq_lt_dec j k) as [[Hlt | ->] | Hgt]; [| reflexivity |].
  - pose proof (wf_so_mono j k ltac:(lia) Hk). lia.
  - pose proof (wf_so_mono k j ltac:(lia) Hj). lia.
Qed.

Lemma wf_length_le : Z.of_nat (length es) <= R.
Proof.
  pose proof (wf_so_mono 0 (length es) ltac:(lia) ltac:(lia)) as H.
  rewrite wf_so_end in H. simpl in H. lia.
Qed.

(** Every restart offset is where some entry with [shared = 0] starts. *)
Lemma wf_restart i :
  0 <= i < N ->
  exists j, (j < length es)%nat /\ rp i = so j /\ e_shared (ent j) = 0.
Proof.
  intros Hi. destruct (wf_restart_entry _ _ _ _ _ Hwf i Hi) as (j & Hj & Hrp & Hs).
  exists j. rewrite <- (wf_off j Hj). auto.
Qed.

Lemma wf_restart_gap i : 0 <= i -> i + 1 < N -> rp i + 3 <= rp (i + 1).
Proof.
  intros H0 H1.
  destruct (wf_restart i ltac:(lia)) as (j & Hj & Hrj & _).
  destruct (wf_restart (i + 1) ltac:(lia)) as (k & Hk & Hrk & _).
  pose proof (wf_restart_incr _ _ _ _ _ Hwf i (i + 1) H0 ltac:(lia) H1) as Hlt.
  rewrite Hrj, Hrk in *.
  assert (j < k)%nat as Hjk by (apply wf_so_lt; lia).
  pose proof (wf_so_mono j k ltac:(lia) ltac:(lia)). lia.
Qed.

Lemma wf_restart_ge n :
  Z.of_nat n < N -> 3 * Z.of_nat n <= rp (Z.of_nat n).
Proof.
  induction n as [| n IH]; intros Hn.
  - change (Z.of_nat 0) with 0.
    rewrite (wf_restart_first _ _ _ _ _ Hwf). lia.
  - pose proof (wf_restart_gap (Z.of_nat n) ltac:(lia) ltac:(lia)) as Hg.
    specialize (IH ltac:(lia)).
    replace (Z.of_nat (S n)) with (Z.of_nat n + 1) by lia. lia.
Qed.

(** The restart count of a well-formed block fits in 31 bits. *)
Lemma wf_num_restarts_bound : 0 < N < 2 ^ 31.
Proof.
  pose proof (wf_num_restarts_pos _ _ _ _ _ Hwf) as Hpos.
  split; [exact Hpos |].
  pose proof (wf_restart_ge (Z.to_nat (N - 1)) ltac:(lia)) as Hge.
  rewrite Z2Nat.id in Hge by lia.
  destruct (wf_restart (N - 1) ltac:(lia)) as (j & Hj & Hrj & _).
  destruct (wf_decode j Hj) as [Hlt _].
  pose proof (wf_restarts_range _ _ _ _ _ Hwf). lia.
Qed.

Lemma wf_restart_mono i i' : 0 <= i -> i <= i' -> i' < N -> rp i <= rp i'.
Proof.
  intros H0 Hle Hn.
  destruct (Z.eq_dec i i') as [-> | Hne]; [lia |].
  pose proof (wf_restart_incr _ _ _ _ _ Hwf i i' H0 ltac:(lia) Hn). lia.
Qed.

Lemma wf_nonempty : (0 < length es)%nat.
Proof.
  pose proof (wf_num_restarts_pos _ _ _ _ _ Hwf).
  destruct (wf_restart 0 ltac:(lia)) as (j & Hj & _). lia.
Qed.

Lemma GetRestartPoint_on_block it i :
  on_block d R N it -> i < N -> GetRestartPoint it i = Some (rp i).
Proof.
  intros (Hd & Hr & Hn) Hi. unfold GetRestartPoint, restart_point.
  rewrite Hd, Hr, Hn.
  destruct (i <? N) eqn:E; [reflexivity | apply Z.ltb_ge in E; lia].
Qed.

Lemma set_restart_id it :
  set_restart it (restart_index_ it) (restart_offset_ it) = it.
Proof. destruct it; reflexivity. Qed.

(** The trailing loop of [ParseNextKey] only moves [restart_index_]
    forward, and only past restart points that lie before the entry. *)
Lemma ParseNextKey_fixup_spec fuel :
  forall it,
    on_block d R N it ->
    0 <= restart_index_ it < N ->
    N - 1 - restart_index_ it <= Z.of_nat fuel ->
    exists ri ro,
      ParseNextKey_fixup fuel it = Some (set_restart it ri ro)
      /\ restart_index_ it <= ri < N
      /\ (ri = restart_index_ it \/ rp ri < current_ it).
Proof.
  pose proof wf_num_restarts_bound as HN.
  induction fuel as [| fuel IH]; intros it Hb Hri Hfuel.
  - exists (restart_index_ it), (restart_offset_ it).
    rewrite set_restart_id. simpl.
    rewrite u32_small by lia. destruct Hb as (_ & _ & ->).
    destruct (restart_index_ it + 1 <? N) eqn:E;
      [apply Z.ltb_lt in E; lia |].
    repeat split; try lia; left; reflexivity.
  - simpl. rewrite u32_small by lia.
    pose proof Hb as (_ & _ & Hn). rewrite Hn.
    destruct (restart_index_ it + 1 <? N) eqn:E.
    + apply Z.ltb_lt in E.
      rewrite (GetRestartPoint_on_block it _ Hb E). simpl.
      destruct (rp (restart_index_ it + 1) <? current_ it) eqn:Hlt.
      * apply Z.ltb_lt in Hlt.
        destruct (IH (set_restart it (restart_index_ it + 1) 0))
          as (ri & ro & Hfix & Hrange & Hor).
        { destruct Hb as (? & ? & ?). repeat split; assumption. }
        { simpl. lia. }
        { simpl. lia. }
        exists ri, ro. simpl in Hrange, Hor.
        split; [exact Hfix |]. split; [lia |].
        right. destruct Hor as [-> | Hor]; assumption.
      * exists (restart_index_ it), (restart_offset_ it).
        rewrite set_restart_id. repeat split; try lia; left; reflexivity.
    + exists (restart_index_ it), (restart_offset_ it).
      rewrite set_restart_id. repeat split; try lia; left; reflexivity.
Qed.

(** Reading entry [j]: [ParseNextKey] succeeds and leaves the iterator
    on it. *)
Lemma ParseNextKey_entry it j :
  ready d R N es it j -> (j < length es)%nat ->
  exists it',
    ParseNextKey it = Some (true, it')
    /\ positioned d R N es it' j
    /\ status_ it' = status_ it
    /\ restart_index_ it <= restart_index_ it'
    /\ (restart_index_ it' = restart_index_ it
        \/ rp (restart_index_ it') < so j).
Proof.
  intros (Hb & (vo & vs & Hv & Hvo) & Hkey & Hri & Hrp) Hj.
  pose proof wf_num_restarts_bound as HN.
  pose proof (wf_restarts_range _ _ _ _ _ Hwf) as HR.
  destruct (wf_decode j Hj) as [Hlt Hdec].
  pose proof (wf_so_range j ltac:(lia)) as Hso.
  pose proof (wf_off j Hj) as Hoff.
  pose proof Hb as (Hd & Hr & Hn).
  apply decode_at_inv in Hdec as (h & Hh & Hsh & Hent).
  specialize (Hkey Hj).
  unfold ParseNextKey, NextEntryOffset. rewrite Hv. simpl.
  rewrite Hvo, u32_small by lia. rewrite Hr, Hd, Hn.
  destruct (R <=? so j) eqn:E; [apply Z.leb_le in E; lia | clear E].
  rewrite Hh.
  assert ((Z.of_nat (length (key_ it)) <? h_shared h) = false
          /\ take (Z.to_nat (h_shared h)) (key_ it)
             = take (Z.to_nat (h_shared h)) (prev_key [] es j))
    as [Hok Htake].
  { destruct Hkey as [-> | Hz].
    - split; [apply Z.ltb_ge; lia | reflexivity].
    - rewrite Hent in Hz. simpl in Hz. rewrite Hz.
      split; [apply Z.ltb_ge; lia | reflexivity]. }
  rewrite Hok, Htake.
  match goal with
  | |- context [ParseNextKey_fixup ?f ?i] =>
      destruct (ParseNextKey_fixup_spec f i) as (ri & ro & Hfix & Hrange & Hor)
  end.
  { repeat split; simpl; assumption. }
  { simpl. lia. }
  { simpl. lia. }
  rewrite Hfix. simpl in Hrange, Hor |- *.
  eexists. split; [reflexivity |].
  split; [| simpl; split; [reflexivity | split; [lia |]]].
  - split; [repeat split; simpl; assumption |].
    split; [exact Hj |]. rewrite Hent. simpl.
    split; [| split; [lia |]].
    + unfold at_entry, Valid, e_value. simpl. rewrite Hr.
      repeat split. apply Z.ltb_lt. lia.
    + destruct Hor as [-> | Hor]; lia.
  - destruct Hor as [-> | Hor]; [left; reflexivity | right; exact Hor].
Qed.

(** Reading past the last entry: [ParseNextKey] reports the end of the
    block and keeps the status. *)
Lemma ParseNextKey_end it :
  ready d R N es it (length es) ->
  exists it',
    ParseNextKey it = Some (false, it')
    /\ on_block d R N it' /\ Valid it' = false
    /\ status_ it' = status_ it.
Proof.
  intros (Hb & (vo & vs & Hv & Hvo) & _ & Hri & Hrp).
  pose proof (wf_restarts_range _ _ _ _ _ Hwf) as HR.
  pose proof Hb as (Hd & Hr & Hn).
  rewrite wf_so_end in Hvo.
  unfold ParseNextKey, NextEntryOffset. rewrite Hv. simpl.
  rewrite Hvo, u32_small by lia. rewrite Hr.
  rewrite Z.leb_refl.
  eexists. split; [reflexivity |].
  unfold mark_invalid, Valid. simpl. rewrite Hr.
  repeat split; try assumption. apply Z.ltb_irrefl.
Qed.

(** Once an entry has been read the iterator is ready for the next. *)
Lemma positioned_ready it j :
  positioned d R N es it j -> ready d R N es it (S j).
Proof.
  intros (Hb & Hj & (Hvalid & Hcur & Hk & Hv) & Hri & Hrp).
  split; [exact Hb |].
  split; [exists (e_voff (ent j)), (e_vlen (ent j)); split;
          [exact Hv | reflexivity] |].
  split; [intros _; left; exact Hk |].
  split; [exact Hri |].
  rewrite (wf_off j Hj) in Hrp.
  pose proof (wf_step j Hj). lia.
Qed.

(** After [SeekToRestartPoint] the iterator is ready for the entry at
    that restart point. *)
Lemma SeekToRestartPoint_ready it i :
  on_block d R N it -> 0 <= i < N ->
  exists it' j,
    SeekToRestartPoint it i = Some it'
    /\ (j < length es)%nat /\ rp i = so j
    /\ ready d R N es it' j
    /\ restart_index_ it' = i
    /\ status_ it' = status_ it.
Proof.
  intros Hb Hi.
  destruct (wf_restart i Hi) as (j & Hj & Hrp & Hs).
  unfold SeekToRestartPoint.
  rewrite (GetRestartPoint_on_block it i Hb) by lia. simpl.
  eexists. exists j. split; [reflexivity |].
  split; [exact Hj |]. split; [exact Hrp |].
  split; [| split; reflexivity].
  destruct Hb as (? & ? & ?).
  split; [repeat split; simpl; assumption |].
  split; [exists (rp i), 0; split; [reflexivity | lia] |].
  split; [intros _; right; exact Hs |].
  simpl. split; lia.
Qed.

(** *** Seek *)

Local Abbreviation rkey i := (restart_key d R i).

(** At a restart point the header decodes with [shared = 0] and the
    key delta is the whole key of the entry there. *)
Lemma wf_restart_key i :
  0 <= i < N ->
  exists h j,
    DecodeEntry d (rp i) R = Some h /\ h_shared h = 0
    /\ (j < length es)%nat /\ rp i = so j
    /\ rkey i = e_key (ent j)
    /\ sub d (h_key_ptr h) (h_non_shared h) = e_key (ent j).
Proof.
  intros Hi. destruct (wf_restart i Hi) as (j & Hj & Hrp & Hs).
  destruct (wf_decode j Hj) as [_ Hdec].
  apply decode_at_inv in Hdec as (h & Hh & _ & Hent).
  assert (h_shared h = 0) as Hz by (rewrite Hent in Hs; exact Hs).
  assert (sub d (h_key_ptr h) (h_non_shared h) = e_key (ent j)) as Hk.
  { rewrite Hent. simpl. rewrite Hz. reflexivity. }
  exists h, j. rewrite Hrp.
  repeat split; try assumption.
  unfold restart_key. rewrite Hrp, Hh. exact Hk.
Qed.

Lemma wf_restart_key_sorted i i' :
  0 <= i -> i <= i' -> i' < N -> cmp (rkey i) (rkey i') <= 0.
Proof.
  intros H0 Hle Hn.
  destruct (wf_restart_key i ltac:(lia)) as (_ & j & _ & _ & Hj & Hrj & -> & _).
  destruct (wf_restart_key i' ltac:(lia)) as (_ & k & _ & _ & Hk & Hrk & -> & _).
  apply (wf_sorted _ _ _ _ _ Hwf); [| exact Hk].
  pose proof (wf_restart_mono i i' H0 Hle Hn) as Hm.
  rewrite Hrj, Hrk in Hm.
  destruct (le_lt_dec j k) as [| Hkj]; [assumption |].
  pose proof (wf_so_mono k j ltac:(lia) ltac:(lia)). lia.
Qed.

(** The binary search ends on the largest restart index whose key is
    below the target, or on index 0 when there is none. *)
Lemma Seek_bsearch_spec target fuel :
  forall it left right,
    on_block d R N it ->
    0 <= left -> left <= right -> right < N ->
    right - left <= Z.of_nat fuel ->
    (left = 0 \/ cmp (rkey left) target < 0) ->
    (forall i, right < i -> i < N -> 0 <= cmp (rkey i) target) ->
    exists L,
      Seek_bsearch cmp fuel it target left right = Some (inr L)
      /\ 0 <= L < N
      /\ (L = 0 \/ cmp (rkey L) target < 0)
      /\ (forall i, L < i -> i < N -> 0 <= cmp (rkey i) target).
Proof.
  pose proof wf_num_restarts_bound as HN.
  induction fuel as [| fuel IH]; intros it left right Hb H0 Hlr Hr Hfuel Hl Hhi.
  - exists left. simpl.
    destruct (left <? right) eqn:E; [apply Z.ltb_lt in E; lia |].
    assert (left = right) as -> by lia.
    repeat split; try lia; assumption.
  - simpl. destruct (left <? right) eqn:E.
    + apply Z.ltb_lt in E.
      rewrite (u32_small (left + right + 1)) by lia.
      set (mid := (left + right + 1) / 2).
      assert (left < mid <= right) as Hmid.
      { unfold mid. Z.div_mod_to_equations. lia. }
      rewrite (GetRestartPoint_on_block it mid Hb) by lia. simpl.
      destruct (wf_restart_key mid ltac:(lia))
        as (h & j & Hh & Hz & Hj & Hrj & Hrk & Hsub).
      destruct Hb as (Hd & Hrs & Hn). rewrite Hd, Hrs, Hh, Hz. simpl.
      rewrite Hsub, <- Hrk.
      destruct (cmp (rkey mid) target <? 0) eqn:Hc.
      * apply Z.ltb_lt in Hc.
        apply IH; try lia; try (repeat split; assumption).
      * apply Z.ltb_ge in Hc.
        rewrite (u32_small (mid - 1)) by lia.
        apply IH; try lia; try (repeat split; assumption).
        intros i Hi Hin.
        destruct (Z_lt_le_dec (cmp (rkey i) target) 0) as [Hneg |]; [| assumption].
        pose proof (wf_restart_key_sorted mid i ltac:(lia) ltac:(lia) Hin) as Hs.
        pose proof (cmp_trans _ _ _ Hs Hneg). lia.
    + apply Z.ltb_ge in E. assert (left = right) as -> by lia.
      exists right. repeat split; try lia; assumption.
Qed.

(** The linear search reads entries from [j] on and stops on the first
    one that is not below the target. *)
Lemma Seek_scan_spec target fuel :
  forall it j,
    ready d R N es it j -> (j <= length es)%nat ->
    (length es - j < fuel)%nat ->
    exists it',
      Seek_scan cmp fuel it target = Some it'
      /\ status_ it' = status_ it
      /\ ((exists k, (j <= k)%nat /\ positioned d R N es it' k
                     /\ 0 <= cmp (e_key (ent k)) target
                     /\ forall m, (j <= m)%nat -> (m < k)%nat ->
                                  cmp (e_key (ent m)) target < 0)
          \/ (on_block d R N it' /\ Valid it' = false
              /\ forall m, (j <= m)%nat -> (m < length es)%nat ->
                           cmp (e_key (ent m)) target < 0)).
Proof.
  induction fuel as [| fuel IH]; intros it j Hready Hj Hfuel; [lia |].
  simpl.
  destruct (le_lt_eq_dec _ _ Hj) as [Hlt | ->].
  - destruct (ParseNextKey_entry it j Hready Hlt)
      as (it1 & Hp & Hpos & Hst & _).
    rewrite Hp.
    pose proof Hpos as (_ & _ & (_ & _ & Hk & _) & _).
    rewrite Hk.
    destruct (0 <=? cmp (e_key (ent j)) target) eqn:Hc.
    + apply Z.leb_le in Hc.
      exists it1. split; [reflexivity |]. split; [exact Hst |].
      left. exists j. split; [lia |]. split; [exact Hpos |].
      split; [exact Hc |]. intros m Hm Hmj. lia.
    + apply Z.leb_gt in Hc.
      destruct (IH it1 (S j) (positioned_ready it1 j Hpos) ltac:(lia) ltac:(lia))
        as (it2 & Hscan & Hst2 & Hres).
      exists it2. split; [exact Hscan |]. split; [congruence |].
      destruct Hres as [(k & Hjk & Hposk & Hge & Hbelow) | (Hb2 & Hinv & Hbelow)].
      * left. exists k. split; [lia |]. split; [exact Hposk |].
        split; [exact Hge |].
        intros m Hm Hmk.
        destruct (Nat.eq_dec m j) as [-> | Hne]; [exact Hc |].
        apply Hbelow; lia.
      * right. split; [exact Hb2 |]. split; [exact Hinv |].
        intros m Hm Hml.
        destruct (Nat.eq_dec m j) as [-> | Hne]; [exact Hc |].
        apply Hbelow; lia.
  - destruct (ParseNextKey_end it Hready) as (it1 & Hp & Hb1 & Hinv & Hst).
    rewrite Hp. exists it1. split; [reflexivity |]. split; [exact Hst |].
    right. split; [exact Hb1 |]. split; [exact Hinv |]. intros m Hm Hml. lia.
Qed.

(** [Seek] on a well-formed block: the binary search result, and the
    entry the iterator ends on. *)
Lemma Seek_spec it target :
  on_block d R N it ->
  exists L it',
    Seek_bsearch cmp (Z.to_nat N) it target 0 (u32 (N - 1)) = Some (inr L)
    /\ 0 <= L < N
    /\ (L = 0 \/ cmp (rkey L) target < 0)
    /\ (forall i, L < i -> i < N -> 0 <= cmp (rkey i) target)
    /\ Seek cmp it target = Some it'
    /\ status_ it' = status_ it
    /\ ((exists k, positioned d R N es it' k
                   /\ 0 <= cmp (e_key (ent k)) target
                   /\ forall m, (m < k)%nat -> cmp (e_key (ent m)) target < 0)
        \/ (on_block d R N it' /\ Valid it' = false
            /\ forall m, (m < length es)%nat ->
                         cmp (e_key (ent m)) target < 0)).
Proof.
  intros Hb.
  pose proof wf_num_restarts_bound as HN.
  pose proof wf_length_le as Hlen.
  pose proof (wf_restarts_range _ _ _ _ _ Hwf) as HR.
  assert (u32 (N - 1) = N - 1) as Hu by (apply u32_small; lia).
  rewrite Hu.
  destruct (Seek_bsearch_spec target (Z.to_nat N) it 0 (N - 1) Hb
              ltac:(lia) ltac:(lia) ltac:(lia) ltac:(lia)
              (or_introl eq_refl) ltac:(intros; lia))
    as (L & Hbs & HL & Hlow & Hhigh).
  destruct (SeekToRestartPoint_ready it L Hb HL)
    as (it1 & j & Hseek & Hj & Hrj & Hready & _ & Hst1).
  destruct (Seek_scan_spec target (S (Z.to_nat R)) it1 j Hready)
    as (it2 & Hscan & Hst2 & Hres); try lia.
  assert (forall m, (m < j)%nat -> cmp (e_key (ent m)) target < 0) as Hbefore.
  { intros m Hm. destruct Hlow as [-> | Hlow].
    - rewrite (wf_restart_first _ _ _ _ _ Hwf) in Hrj.
      assert (j = 0%nat) by (apply wf_so_inj; simpl; lia). lia.
    - destruct (wf_restart_key L HL) as (_ & j' & _ & _ & Hj' & Hrj' & Hk & _).
      assert (j' = j) as -> by (apply wf_so_inj; lia).
      rewrite Hk in Hlow.
      eapply cmp_trans; [| exact Hlow].
      apply (wf_sorted _ _ _ _ _ Hwf); lia. }
  exists L, it2.
  destruct Hb as (Hd & Hrs & Hn).
  unfold Seek. rewrite Hn, Hrs, Hu, Hbs. simpl. rewrite Hseek. simpl.
  repeat (split; [first [assumption | lia | congruence] |]).
  destruct Hres as [(k & Hjk & Hposk & Hge & Hbelow) | (Hb2 & Hinv & Hbelow)].
  - left. exists k. split; [exact Hposk |]. split; [exact Hge |].
    intros m Hm. destruct (le_lt_dec j m); [apply Hbelow; lia | apply Hbefore; lia].
  - right. split; [exact Hb2 |]. split; [exact Hinv |].
    intros m Hm. destruct (le_lt_dec j m); [apply Hbelow; lia | apply Hbefore; lia].
Qed.

(** *** SeekToFirst, SeekToLast, Next and Prev *)

Lemma NextEntryOffset_positioned it j :
  positioned d R N es it j -> NextEntryOffset it = Some (so (S j)).
Proof.
  intros (_ & Hj & (_ & _ & _ & Hv) & _).
  pose proof (wf_so_range (S j) ltac:(lia)) as Hr.
  pose proof (wf_restarts_range _ _ _ _ _ Hwf).
  unfold NextEntryOffset. rewrite Hv. simpl in *.
  unfold e_end in Hr. rewrite u32_small by lia. reflexivity.
Qed.

(** The re-parse of [Prev] and [SeekToLast]: reading on from entry [k]
    until an entry ends at the start of entry [S j] stops on entry [j]. *)
Lemma Prev_scan_spec fuel :
  forall it k j,
    ready d R N es it k -> (k <= j)%nat -> (j < length es)%nat ->
    (j - k < fuel)%nat ->
    exists it',
      Prev_scan fuel it (so (S j)) = Some it'
      /\ positioned d R N es it' j /\ status_ it' = status_ it.
Proof.
  induction fuel as [| fuel IH]; intros it k j Hready Hkj Hj Hfuel; [lia |].
  cbn [Prev_scan].
  destruct (ParseNextKey_entry it k Hready ltac:(lia))
    as (it1 & Hp & Hpos & Hst & _).
  rewrite Hp, (NextEntryOffset_positioned it1 k Hpos).
  cbn [mbind option_bind].
  destruct (le_lt_eq_dec _ _ Hkj) as [Hlt | ->].
  - pose proof (wf_so_mono (S k) (S j) ltac:(lia) ltac:(lia)) as Hm.
    destruct (so (S k) <? so (S j)) eqn:E; [| apply Z.ltb_ge in E; lia].
    destruct (IH it1 (S k) j (positioned_ready it1 k Hpos)
                 ltac:(lia) Hj ltac:(lia)) as (it2 & Hscan & Hpos2 & Hst2).
    exists it2. split; [exact Hscan |]. split; [exact Hpos2 | congruence].
  - rewrite Z.ltb_irrefl. exists it1. auto.
Qed.

Lemma SeekToLast_scan_spec fuel :
  forall it k,
    ready d R N es it k -> (k < length es)%nat ->
    (length es - k <= fuel)%nat ->
    exists it',
      SeekToLast_scan fuel it = Some it'
      /\ positioned d R N es it' (length es - 1) /\ status_ it' = status_ it.
Proof.
  induction fuel as [| fuel IH]; intros it k Hready Hk Hfuel; [lia |].
  cbn [SeekToLast_scan].
  destruct (ParseNextKey_entry it k Hready Hk)
    as (it1 & Hp & Hpos & Hst & _).
  rewrite Hp, (NextEntryOffset_positioned it1 k Hpos).
  cbn [mbind option_bind].
  pose proof Hpos as ((_ & -> & _) & _).
  destruct (Nat.eq_dec (S k) (length es)) as [Heq | Hne].
  - rewrite Heq, wf_so_end, Z.ltb_irrefl.
    exists it1. replace (length es - 1)%nat with k by lia. auto.
  - pose proof (wf_so_mono (S k) (length es) ltac:(lia) ltac:(lia)) as Hm.
    rewrite wf_so_end in Hm.
    destruct (so (S k) <? R) eqn:E; [| apply Z.ltb_ge in E; lia].
    destruct (IH it1 (S k) (positioned_ready it1 k Hpos)
                 ltac:(lia) ltac:(lia)) as (it2 & Hscan & Hpos2 & Hst2).
    exists it2. split; [exact Hscan |]. split; [exact Hpos2 | congruence].
Qed.

Lemma SeekToFirst_spec it :
  on_block d R N it ->
  exists it',
    SeekToFirst it = Some it'
    /\ positioned d R N es it' 0 /\ status_ it' = status_ it.
Proof.
  intros Hb. pose proof (wf_num_restarts_pos _ _ _ _ _ Hwf).
  destruct (SeekToRestartPoint_ready it 0 Hb ltac:(lia))
    as (it1 & j & Hseek & Hj & Hrj & Hready & _ & Hst1).
  rewrite (wf_restart_first _ _ _ _ _ Hwf) in Hrj.
  assert (j = 0%nat) as -> by (apply wf_so_inj; simpl; lia).
  destruct (ParseNextKey_entry it1 0%nat Hready Hj)
    as (it2 & Hp & Hpos & Hst2 & _).
  exists it2. unfold SeekToFirst. rewrite Hseek. simpl. rewrite Hp. simpl.
  split; [reflexivity |]. split; [exact Hpos | congruence].
Qed.

Lemma SeekToLast_spec it :
  on_block d R N it ->
  exists it',
    SeekToLast it = Some it'
    /\ positioned d R N es it' (length es - 1) /\ status_ it' = status_ it.
Proof.
  intros Hb. pose proof wf_num_restarts_bound as HN.
  pose proof wf_length_le as Hlen.
  destruct (SeekToRestartPoint_ready it (N - 1) Hb ltac:(lia))
    as (it1 & j & Hseek & Hj & Hrj & Hready & _ & Hst1).
  destruct (SeekToLast_scan_spec (S (Z.to_nat R)) it1 j Hready Hj ltac:(lia))
    as (it2 & Hscan & Hpos & Hst2).
  exists it2. unfold SeekToLast. destruct Hb as (_ & -> & ->).
  rewrite u32_small by lia. rewrite Hseek. simpl.
  split; [exact Hscan |]. split; [exact Hpos | congruence].
Qed.

Lemma Next_spec it j :
  positioned d R N es it j ->
  exists it',
    Next it = Some it' /\ status_ it' = status_ it
    /\ on_block d R N it'
    /\ ((S j < length es)%nat -> positioned d R N es it' (S j))
    /\ (S j = length es -> Valid it' = false).
Proof.
  intros Hpos.
  pose proof Hpos as (Hb & Hj & (Hvalid & _) & _).
  unfold Next. rewrite Hvalid.
  destruct (Nat.eq_dec (S j) (length es)) as [Heq | Hne].
  - pose proof (positioned_ready it j Hpos) as Hready. rewrite Heq in Hready.
    destruct (ParseNextKey_end it Hready) as (it1 & Hp & Hb1 & Hinv & Hst).
    exists it1. rewrite Hp. simpl.
    split; [reflexivity |]. split; [exact Hst |]. split; [exact Hb1 |].
    split; [intros; lia | intros _; exact Hinv].
  - destruct (ParseNextKey_entry it (S j) (positioned_ready it j Hpos) ltac:(lia))
      as (it1 & Hp & Hpos1 & Hst & _).
    exists it1. rewrite Hp. simpl.
    split; [reflexivity |]. split; [exact Hst |].
    split; [apply Hpos1 |]. split; [intros _; exact Hpos1 | intros; lia].
Qed.

Lemma wf_restart_nonneg i : 0 <= i < N -> 0 <= rp i.
Proof.
  intros Hi. destruct (wf_restart i Hi) as (j & Hj & -> & _).
  apply wf_so_range. lia.
Qed.

(** The backward scan over the restart array: from a restart point not
    after entry [j] it stops at one strictly before it, unless entry
    [j] is the first. *)
Lemma Prev_rewind_spec it j :
  on_block d R N it -> (j < length es)%nat ->
  0 <= restart_index_ it < N -> rp (restart_index_ it) <= so j ->
  (j = 0%nat
   /\ Prev_rewind (S (Z.to_nat (restart_index_ it))) it (so j)
      = Some (inl (mark_invalid it)))
  \/ (exists ri,
         Prev_rewind (S (Z.to_nat (restart_index_ it))) it (so j)
         = Some (inr (set_restart it ri (restart_offset_ it)))
         /\ 0 <= ri < N /\ rp ri < so j).
Proof.
  intros Hb Hj Hri Hrp.
  pose proof wf_num_restarts_bound as HN.
  cbn [Prev_rewind].
  rewrite (GetRestartPoint_on_block it _ Hb) by lia. cbn [mbind option_bind].
  destruct (so j <=? rp (restart_index_ it)) eqn:E.
  - apply Z.leb_le in E.
    destruct (restart_index_ it =? 0) eqn:Ez.
    + apply Z.eqb_eq in Ez. left. split; [| reflexivity].
      rewrite Ez, (wf_restart_first _ _ _ _ _ Hwf) in *.
      apply wf_so_inj; simpl; lia.
    + apply Z.eqb_neq in Ez. right.
      exists (restart_index_ it - 1).
      rewrite u32_small by lia.
      destruct (Z.to_nat (restart_index_ it)) as [| fuel] eqn:Ef; [lia |].
      cbn [Prev_rewind].
      rewrite (GetRestartPoint_on_block _ (restart_index_ it - 1)).
      2: { destruct Hb as (? & ? & ?). repeat split; assumption. }
      2: { simpl. lia. }
      cbn [mbind option_bind restart_index_ set_restart set_position].
      pose proof (wf_restart_gap (restart_index_ it - 1) ltac:(lia) ltac:(lia)) as Hg.
      replace (restart_index_ it - 1 + 1) with (restart_index_ it) in Hg by lia.
      destruct (so j <=? rp (restart_index_ it - 1)) eqn:E2;
        [apply Z.leb_le in E2; lia |].
      split; [reflexivity |]. lia.
  - apply Z.leb_gt in E. right.
    exists (restart_index_ it). rewrite set_restart_id.
    split; [reflexivity |]. lia.
Qed.

Lemma Prev_spec it j :
  positioned d R N es it j ->
  exists it',
    Prev it = Some it' /\ status_ it' = status_ it
    /\ on_block d R N it'
    /\ (j = 0%nat -> Valid it' = false)
    /\ (forall j', j = S j' -> positioned d R N es it' j').
Proof.
  intros Hpos.
  pose proof Hpos as (Hb & Hj & (Hvalid & Hcur & _) & Hri & Hrp).
  pose proof wf_length_le as Hlen.
  rewrite (wf_off j Hj) in Hcur, Hrp.
  unfold Prev. rewrite Hvalid, Hcur.
  destruct (Prev_rewind_spec it j Hb Hj Hri Hrp)
    as [(-> & ->) | (ri & -> & Hr & Hlt)]; cbn [mbind option_bind].
  - exists (mark_invalid it). destruct Hb as (Hd & Hrs & Hn).
    unfold mark_invalid, Valid. simpl. rewrite Hrs.
    split; [reflexivity |]. split; [reflexivity |].
    split; [repeat split; assumption |].
    split; [intros _; apply Z.ltb_irrefl | intros j' Hj'; lia].
  - set (it1 := set_restart it ri (restart_offset_ it)).
    assert (on_block d R N it1) as Hb1.
    { destruct Hb as (? & ? & ?). repeat split; assumption. }
    destruct (SeekToRestartPoint_ready it1 ri Hb1 Hr)
      as (it2 & k & Hseek & Hk & Hrk & Hready & _ & Hst2).
    change (restart_index_ it1) with ri. rewrite Hseek.
    cbn [mbind option_bind]. change (restarts_ it) with (restarts_ it1).
    destruct Hb1 as (_ & HR1 & _). rewrite HR1.
    rewrite Hrk in Hlt.
    assert (k < j)%nat as Hkj by (apply wf_so_lt; lia).
    destruct j as [| j']; [lia |].
    destruct (Prev_scan_spec (S (Z.to_nat R)) it2 k j' Hready
                ltac:(lia) ltac:(lia) ltac:(lia))
      as (it3 & Hscan & Hpos3 & Hst3).
    exists it3. split; [exact Hscan |].
    split; [rewrite Hst3, Hst2; reflexivity |].
    split; [apply Hpos3 |]. split; [intros; lia |].
    intros j'' [= <-]. exact Hpos3.
Qed.

(** Whatever the order of the keys, the binary search stays inside the
    restart array and [Seek] ends on an entry or past the last one. *)
Lemma Seek_bsearch_range target fuel :
  forall it left right,
    on_block d R N it ->
    0 <= left -> left <= right -> right < N ->
    right - left <= Z.of_nat fuel ->
    exists L,
      Seek_bsearch cmp fuel it target left right = Some (inr L)
      /\ left <= L <= right.
Proof.
  pose proof wf_num_restarts_bound as HN.
  induction fuel as [| fuel IH]; intros it left right Hb H0 Hlr Hr Hfuel.
  - exists left. simpl.
    destruct (left <? right) eqn:E; [apply Z.ltb_lt in E; lia |].
    split; [reflexivity | lia].
  - simpl. destruct (left <? right) eqn:E.
    + apply Z.ltb_lt in E.
      rewrite (u32_small (left + right + 1)) by lia.
      set (mid := (left + right + 1) / 2).
      assert (left < mid <= right) as Hmid
          by (unfold mid; Z.div_mod_to_equations; lia).
      rewrite (GetRestartPoint_on_block it mid Hb) by lia. simpl.
      destruct (wf_restart_key mid ltac:(lia))
        as (h & j & Hh & Hz & _).
      pose proof Hb as (Hd & Hrs & Hn). rewrite Hd, Hrs, Hh, Hz. simpl.
      destruct (cmp (sub d (h_key_ptr h) (h_non_shared h)) target <? 0).
      * destruct (IH it mid right Hb ltac:(lia) ltac:(lia) Hr ltac:(lia))
          as (L & HL & Hrange).
        exists L. split; [exact HL | lia].
      * rewrite (u32_small (mid - 1)) by lia.
        destruct (IH it left (mid - 1) Hb H0 ltac:(lia) ltac:(lia) ltac:(lia))
          as (L & HL & Hrange).
        exists L. split; [exact HL | lia].
    + apply Z.ltb_ge in E. exists left. split; [reflexivity | lia].
Qed.

Lemma Seek_cursor it target :
  on_block d R N it ->
  exists it',
    Seek cmp it target = Some it' /\ status_ it' = status_ it
    /\ ((exists k, positioned d R N es it' k)
        \/ (on_block d R N it' /\ Valid it' = false)).
Proof.
  intros Hb.
  pose proof wf_num_restarts_bound as HN.
  pose proof wf_length_le as Hlen.
  assert (u32 (N - 1) = N - 1) as Hu by (apply u32_small; lia).
  destruct (Seek_bsearch_range target (Z.to_nat N) it 0 (N - 1) Hb
              ltac:(lia) ltac:(lia) ltac:(lia) ltac:(lia))
    as (L & Hbs & HL).
  destruct (SeekToRestartPoint_ready it L Hb ltac:(lia))
    as (it1 & j & Hseek & Hj & _ & Hready & _ & Hst1).
  destruct (Seek_scan_spec target (S (Z.to_nat R)) it1 j Hready)
    as (it2 & Hscan & Hst2 & Hres); try lia.
  exists it2. destruct Hb as (_ & Hrs & Hn).
  unfold Seek. rewrite Hn, Hrs, Hu, Hbs. simpl. rewrite Hseek. simpl.
  split; [exact Hscan |]. split; [congruence |].
  destruct Hres as [(k & _ & Hposk & _) | (Hb2 & Hinv & _)]; eauto.
Qed.

(** *** Runs of operations *)

Lemma Iter_new_cursor_ok it :
  Iter_new d R N = Some it -> cursor_ok d R N es it /\ status_ it = Ok.
Proof.
  unfold Iter_new. destruct (0 <? N); [| discriminate].
  intros [= <-]. split; [| reflexivity].
  split; [repeat split |].
  unfold Valid. simpl. rewrite Z.ltb_irrefl. discriminate.
Qed.

Lemma run_op_cursor_ok it o it' :
  cursor_ok d R N es it -> run_op cmp it o = Some it' ->
  cursor_ok d R N es it' /\ status_ it' = status_ it.
Proof.
  intros [Hb Hv] Hrun. destruct o as [| | target | |]; simpl in Hrun.
  - destruct (SeekToFirst_spec it Hb) as (it1 & H1 & Hpos & Hst).
    rewrite H1 in Hrun. injection Hrun as <-.
    split; [| exact Hst]. split; [apply Hpos | eauto].
  - destruct (SeekToLast_spec it Hb) as (it1 & H1 & Hpos & Hst).
    rewrite H1 in Hrun. injection Hrun as <-.
    split; [| exact Hst]. split; [apply Hpos | eauto].
  - destruct (Seek_cursor it target Hb) as (it1 & H1 & Hst & Hres).
    rewrite H1 in Hrun. injection Hrun as <-.
    split; [| exact Hst].
    destruct Hres as [(k & Hpos) | (Hb1 & Hinv)].
    + split; [apply Hpos | eauto].
    + split; [exact Hb1 |]. rewrite Hinv. discriminate.
  - assert (Valid it = true) as Hvalid
        by (unfold Next in Hrun; destruct (Valid it); [reflexivity | discriminate]).
    destruct (Hv Hvalid) as (j & Hpos).
    destruct (Next_spec it j Hpos) as (it1 & H1 & Hst & Hb1 & Hmore & Hlast).
    rewrite H1 in Hrun. injection Hrun as <-.
    split; [| exact Hst]. split; [exact Hb1 |].
    intros Hv1. exists (S j). apply Hmore.
    destruct Hpos as (_ & Hj & _).
    destruct (Nat.eq_dec (S j) (length es)) as [Heq |]; [| lia].
    rewrite (Hlast Heq) in Hv1. discriminate.
  - assert (Valid it = true) as Hvalid
        by (unfold Prev in Hrun; destruct (Valid it); [reflexivity | discriminate]).
    destruct (Hv Hvalid) as (j & Hpos).
    destruct (Prev_spec it j Hpos) as (it1 & H1 & Hst & Hb1 & Hfirst & Hless).
    rewrite H1 in Hrun. injection Hrun as <-.
    split; [| exact Hst]. split; [exact Hb1 |].
    intros Hv1. destruct j as [| j'].
    + rewrite (Hfirst eq_refl) in Hv1. discriminate.
    + exists j'. apply Hless. reflexivity.
Qed.

Lemma run_ops_cursor_ok os :
  forall it it',
    cursor_ok d R N es it -> run_ops cmp it os = Some it' ->
    cursor_ok d R N es it' /\ status_ it' = status_ it.
Proof.
  induction os as [| o os IH]; intros it it' Hok Hrun; simpl in Hrun.
  - injection Hrun as <-. auto.
  - destruct (run_op cmp it o) as [it1 |] eqn:H1; [| discriminate].
    destruct (run_op_cursor_ok it o it1 Hok H1) as [Hok1 Hst1].
    destruct (IH it1 it' Hok1 Hrun) as [Hok' Hst'].
    split; [exact Hok' | congruence].
Qed.

(** [Next] then [Prev] from an entry that has a successor. *)
Lemma Next_Prev_positioned it j :
  positioned d R N es it j -> (S j < length es)%nat ->
  exists it1 it2,
    Next it = Some it1 /\ positioned d R N es it1 (S j)
    /\ Prev it1 = Some it2 /\ positioned d R N es it2 j.
Proof.
  intros Hpos Hj.
  destruct (Next_spec it j Hpos) as (it1 & H1 & _ & _ & Hmore & _).
  specialize (Hmore Hj).
  destruct (Prev_spec it1 (S j) Hmore) as (it2 & H2 & _ & _ & _ & Hless).
  exists it1, it2. repeat split; try assumption; try apply Hmore.
  all: apply (Hless j eq_refl).
Qed.

End WellFormed.

(** ** Status of an iterator over arbitrary bytes *)

Lemma CorruptionError_corrupted it : corrupted (CorruptionError it).
Proof.
  unfold corrupted, CorruptionError, Valid. simpl.
  rewrite Z.ltb_irrefl. auto.
Qed.

Lemma ParseNextKey_fixup_status fuel :
  forall it it', ParseNextKey_fixup fuel it = Some it' ->
                 status_ it' = status_ it.
Proof.
  induction fuel as [| fuel IH]; intros it it'; simpl.
  - destruct (u32 (restart_index_ it + 1) <? num_restarts_ it);
      [discriminate | intros [= <-]; reflexivity].
  - destruct (u32 (restart_index_ it + 1) <? num_restarts_ it);
      [| intros [= <-]; reflexivity].
    destruct (GetRestartPoint it (u32 (restart_index_ it + 1))) as [rp |];
      [| discriminate].
    simpl. destruct (rp <? current_ it); [| intros [= <-]; reflexivity].
    intros H. apply IH in H. exact H.
Qed.

(** [ParseNextKey] keeps the status unless it detects a corruption, in
    which case it fails and leaves the iterator corrupted. *)
Lemma ParseNextKey_status it b it' :
  ParseNextKey it = Some (b, it') ->
  status_ it' = status_ it \/ (b = false /\ corrupted it').
Proof.
  unfold ParseNextKey.
  destruct (NextEntryOffset it) as [cur |]; [| discriminate]. simpl.
  destruct (restarts_ it <=? cur); [intros [= <- <-]; left; reflexivity |].
  destruct (DecodeEntry (data_ it) cur (restarts_ it)) as [h |].
  - destruct (Z.of_nat (length (key_ it)) <? h_shared h).
    + intros [= <- <-]. right. split; [reflexivity |].
      apply CorruptionError_corrupted.
    + match goal with
      | |- context [ParseNextKey_fixup ?f ?i] =>
          destruct (ParseNextKey_fixup f i) as [it1 |] eqn:Hfix
      end; [| discriminate].
      simpl. intros [= <- <-]. left.
      apply ParseNextKey_fixup_status in Hfix. exact Hfix.
  - intros [= <- <-]. right. split; [reflexivity |].
    apply CorruptionError_corrupted.
Qed.

Lemma SeekToRestartPoint_status it i it' :
  SeekToRestartPoint it i = Some it' -> status_ it' = status_ it.
Proof.
  unfold SeekToRestartPoint.
  destruct (GetRestartPoint it i); [| discriminate].
  simpl. intros [= <-]. reflexivity.
Qed.

Lemma Seek_scan_status cmp target fuel :
  forall it it', Seek_scan cmp fuel it target = Some it' ->
                 status_ it' = status_ it \/ corrupted it'.
Proof.
  induction fuel as [| fuel IH]; intros it it'; simpl; [discriminate |].
  destruct (ParseNextKey it) as [[[|] it1] |] eqn:Hp; [| | discriminate].
  - apply ParseNextKey_status in Hp as [Hst | [? _]]; [| discriminate].
    destruct (0 <=? cmp (key_ it1) target).
    + intros [= <-]. left. exact Hst.
    + intros H. apply IH in H as [H | H]; [left; congruence | right; exact H].
  - intros [= <-].
    apply ParseNextKey_status in Hp as [Hst | [_ Hc]]; auto.
Qed.

Lemma Prev_scan_status original fuel :
  forall it it', Prev_scan fuel it original = Some it' ->
                 status_ it' = status_ it \/ corrupted it'.
Proof.
  induction fuel as [| fuel IH]; intros it it'; simpl; [discriminate |].
  destruct (ParseNextKey it) as [[[|] it1] |] eqn:Hp; [| | discriminate].
  - apply ParseNextKey_status in Hp as [Hst | [? _]]; [| discriminate].
    destruct (NextEntryOffset it1) as [nxt |]; [| discriminate]. simpl.
    destruct (nxt <? original).
    + intros H. apply IH in H as [H | H]; [left; congruence | right; exact H].
    + intros [= <-]. left. exact Hst.
  - intros [= <-].
    apply ParseNextKey_status in Hp as [Hst | [_ Hc]]; auto.
Qed.

Lemma SeekToLast_scan_status fuel :
  forall it it', SeekToLast_scan fuel it = Some it' ->
                 status_ it' = status_ it \/ corrupted it'.
Proof.
  induction fuel as [| fuel IH]; intros it it'; simpl; [discriminate |].
  destruct (ParseNextKey it) as [[[|] it1] |] eqn:Hp; [| | discriminate].
  - apply ParseNextKey_status in Hp as [Hst | [? _]]; [| discriminate].
    destruct (NextEntryOffset it1) as [nxt |]; [| discriminate]. simpl.
    destruct (nxt <? restarts_ it1).
    + intros H. apply IH in H as [H | H]; [left; congruence | right; exact H].
    + intros [= <-]. left. exact Hst.
  - intros [= <-].
    apply ParseNextKey_status in Hp as [Hst | [_ Hc]]; auto.
Qed.

Lemma Seek_bsearch_status cmp target fuel :
  forall it left right it',
    Seek_bsearch cmp fuel it target left right = Some (inl it') ->
    corrupted it'.
Proof.
  induction fuel as [| fuel IH]; intros it left right it'; simpl.
  - destruct (left <? right); discriminate.
  - destruct (left <? right); [| discriminate].
    destruct (GetRestartPoint it (u32 (left + right + 1) / 2)) as [ro |];
      [| discriminate].
    simpl.
    destruct (DecodeEntry (data_ it) ro (restarts_ it)) as [h |].
    + destruct (negb (h_shared h =? 0)).
      * intros [= <-]. apply CorruptionError_corrupted.
      * destruct (cmp (sub (data_ it) (h_key_ptr h) (h_non_shared h)) target <? 0);
          apply IH.
    + intros [= <-]. apply CorruptionError_corrupted.
Qed.

Lemma Prev_rewind_status original fuel :
  forall it r,
    Prev_rewind fuel it original = Some r ->
    match r with
    | inl it' => status_ it' = status_ it
    | inr it' => status_ it' = status_ it
    end.
Proof.
  induction fuel as [| fuel IH]; intros it r; simpl; [discriminate |].
  destruct (GetRestartPoint it (restart_index_ it)) as [rp |]; [| discriminate].
  simpl. destruct (original <=? rp).
  - destruct (restart_index_ it =? 0).
    + intros [= <-]. reflexivity.
    + intros H. apply IH in H. destruct r; exact H.
  - intros [= <-]. reflexivity.
Qed.

(** An operation keeps the status unless it detects a corruption, and
    then it returns with the iterator corrupted. *)
Lemma run_op_status cmp it o it' :
  run_op cmp it o = Some it' ->
  status_ it' = status_ it \/ corrupted it'.
Proof.
  destruct o as [| | target | |]; simpl.
  - unfold SeekToFirst.
    destruct (SeekToRestartPoint it 0) as [it1 |] eqn:H1; [| discriminate].
    simpl. apply SeekToRestartPoint_status in H1.
    destruct (ParseNextKey it1) as [[b it2] |] eqn:H2; [| discriminate].
    simpl. intros [= <-].
    apply ParseNextKey_status in H2 as [H2 | [_ H2]];
      [left; congruence | right; exact H2].
  - unfold SeekToLast.
    destruct (SeekToRestartPoint it (u32 (num_restarts_ it - 1))) as [it1 |] eqn:H1;
      [| discriminate].
    cbn [mbind option_bind]. apply SeekToRestartPoint_status in H1.
    intros H. apply SeekToLast_scan_status in H as [H | H];
      [left; congruence | right; exact H].
  - unfold Seek.
    destruct (Seek_bsearch cmp (Z.to_nat (num_restarts_ it)) it target 0
                (u32 (num_restarts_ it - 1))) as [[it1 | L] |] eqn:H1;
      [| | discriminate]; cbn [mbind option_bind].
    + intros [= <-]. right. eapply Seek_bsearch_status. exact H1.
    + destruct (SeekToRestartPoint it L) as [it1 |] eqn:H2; [| discriminate].
      cbn [mbind option_bind]. apply SeekToRestartPoint_status in H2.
      intros H. apply Seek_scan_status in H as [H | H];
        [left; congruence | right; exact H].
  - unfold Next. destruct (Valid it); [| discriminate].
    destruct (ParseNextKey it) as [[b it1] |] eqn:H1; [| discriminate].
    simpl. intros [= <-].
    apply ParseNextKey_status in H1 as [H1 | [_ H1]]; auto.
  - unfold Prev. destruct (Valid it); [| discriminate].
    destruct (Prev_rewind (S (Z.to_nat (restart_index_ it))) it (current_ it))
      as [[it1 | it1] |] eqn:H1; [| | discriminate].
    + apply Prev_rewind_status in H1. cbn [mbind option_bind].
      intros [= <-]. left. exact H1.
    + apply Prev_rewind_status in H1. cbn [mbind option_bind].
      destruct (SeekToRestartPoint it1 (restart_index_ it1)) as [it2 |] eqn:H2;
        [| discriminate].
      apply SeekToRestartPoint_status in H2. cbn [mbind option_bind].
      intros H. apply Prev_scan_status in H as [H | H];
        [left; congruence | right; exact H].
Qed.

(** ** The bytewise comparator and the worked blocks *)

Lemma bytewise_trans a :
  forall b c, bytewise a b <= 0 -> bytewise b c < 0 -> bytewise a c < 0.
Proof.
  induction a as [| x a IH]; intros [| y b] [| z c]; simpl; try lia.
  destruct (Z.ltb_spec x y), (Z.ltb_spec y x), (Z.ltb_spec y z),
    (Z.ltb_spec z y), (Z.ltb_spec x z), (Z.ltb_spec z x); try lia.
  apply IH.
Qed.

Ltac bytes_in_range :=
  repeat (constructor; [unfold is_byte; lia |]); constructor.

Lemma block_k_wf : wf_block bytewise block_k 29 2 entries_k.
Proof.
  constructor.
  - unfold block_k. bytes_in_range.
  - lia.
  - lia.
  - apply (entries_from_parses 6). vm_compute. reflexivity.
  - intros i Hi. assert (i = 0 \/ i = 1) as [-> | ->] by lia.
    + exists 0%nat. split; [simpl; lia |]. split; vm_compute; reflexivity.
    + exists 3%nat. split; [simpl; lia |]. split; vm_compute; reflexivity.
  - vm_compute. reflexivity.
  - intros i i' H0 Hlt Hn.
    assert (i = 0) as -> by lia. assert (i' = 1) as -> by lia.
    vm_compute. reflexivity.
  - intros j k Hjk Hk. simpl in Hk.
    destruct k as [| [| [| [| [| k]]]]]; try lia;
      destruct j as [| [| [| [| [| j]]]]]; try lia;
      vm_compute; discriminate.
Qed.

Lemma block_ac_wf : wf_block bytewise block_ac 10 2 entries_ac.
Proof.
  constructor.
  - unfold block_ac. bytes_in_range.
  - lia.
  - lia.
  - apply (entries_from_parses 3). vm_compute. reflexivity.
  - intros i Hi. assert (i = 0 \/ i = 1) as [-> | ->] by lia.
    + exists 0%nat. split; [simpl; lia |]. split; vm_compute; reflexivity.
    + exists 1%nat. split; [simpl; lia |]. split; vm_compute; reflexivity.
  - vm_compute. reflexivity.
  - intros i i' H0 Hlt Hn.
    assert (i = 0) as -> by lia. assert (i' = 1) as -> by lia.
    vm_compute. reflexivity.
  - intros j k Hjk Hk. simpl in Hk.
    destruct k as [| [| k]]; try lia;
      destruct j as [| [| j]]; try lia;
      vm_compute; discriminate.
Qed.

(** ** Varint codec *)

Lemma land_shiftl_disjoint r x s :
  0 <= s -> 0 <= r < 2 ^ s -> Z.land r (Z.shiftl x s) = 0.
Proof.
  intros Hs Hr. apply Z.bits_inj'. intros n Hn.
  rewrite Z.land_spec, Z.bits_0.
  destruct (Z_lt_le_dec n s) as [Hlt | Hle].
  - rewrite Z.shiftl_spec_low by lia. apply andb_false_r.
  - assert (Z.testbit r n = false) as ->; [| reflexivity].
    apply Z.testbit_false; [lia |].
    rewrite Z.div_small; [reflexivity |].
    split; [lia |].
    apply Z.lt_le_trans with (2 ^ s); [lia |].
    apply Z.pow_le_mono_r; lia.
Qed.

Lemma lor_shiftl_add r x s :
  0 <= s -> 0 <= r < 2 ^ s -> Z.lor r (Z.shiftl x s) = r + x * 2 ^ s.
Proof.
  intros Hs Hr.
  pose proof (Z.add_lor_land r (Z.shiftl x s)) as H.
  rewrite land_shiftl_disjoint in H by assumption.
  rewrite Z.shiftl_mul_pow2 in * by lia. lia.
Qed.

Lemma u8_land x : u8 x = Z.land x 255.
Proof. unfold u8. symmetry. apply (Z.land_ones x 8). lia. Qed.

Lemma land_127 x : Z.land x 127 = x mod 128.
Proof. apply (Z.land_ones x 7). lia. Qed.

(** The continuation byte of the writer: its high bit is set and its
    low seven bits are those of the value. *)
Lemma continuation_byte v :
  is_byte (u8 (Z.lor v 128))
  /\ (Z.land (u8 (Z.lor v 128)) 128 =? 0) = false
  /\ Z.land (u8 (Z.lor v 128)) 127 = v mod 128.
Proof.
  split; [| split].
  - unfold is_byte, u8. pose proof (Z.mod_pos_bound (Z.lor v 128) (2 ^ 8)). lia.
  - apply Z.eqb_neq. rewrite u8_land, <- Z.land_assoc.
    change (Z.land 255 128) with 128. intros H.
    apply (f_equal (fun z => Z.testbit z 7)) in H.
    rewrite Z.land_spec, Z.lor_spec, Z.bits_0 in H.
    change (Z.testbit 128 7) with true in H.
    rewrite orb_true_r in H. discriminate H.
  - rewrite u8_land, <- Z.land_assoc.
    change (Z.land 255 127) with 127.
    rewrite Z.land_lor_distr_l.
    change (Z.land 128 127) with 0.
    rewrite Z.lor_0_r. apply land_127.
Qed.

(** The final byte of the writer: below 128 and with a clear high bit. *)
Lemma final_byte v :
  0 <= v < 128 -> u8 v = v /\ (Z.land v 128 =? 0) = true.
Proof.
  intros Hv. split.
  - unfold u8. apply Z.mod_small. lia.
  - apply Z.eqb_eq.
    rewrite <- (Z.mod_small v 128) by lia.
    rewrite <- land_127, <- Z.land_assoc. apply Z.land_0_r.
Qed.

Lemma byte_at_app pre x tl :
  byte_at (pre ++ x :: tl) (Z.of_nat (length pre)) = x.
Proof.
  unfold byte_at. rewrite Nat2Z.id.
  rewrite List.app_nth2 by lia. rewrite Nat.sub_diag. reflexivity.
Qed.

Lemma GetVarint32Ptr_loop_S n d p limit shift result :
  GetVarint32Ptr_loop (S n) d p limit shift result
  = if p <? limit then
      if Z.land (byte_at d p) 128 =? 0
      then Some (u32 (Z.lor result (Z.shiftl (byte_at d p) shift)), p + 1)
      else GetVarint32Ptr_loop n d (p + 1) limit (shift + 7)
             (u32 (Z.lor result (Z.shiftl (Z.land (byte_at d p) 127) shift)))
    else None.
Proof. reflexivity. Qed.

Lemma GetVarint32Ptr_loop_Encode n :
  forall v shift result pre rest limit,
    0 <= v < 2 ^ (7 * Z.of_nat (S n)) ->
    0 <= shift -> 0 <= result < 2 ^ shift ->
    result + v * 2 ^ shift < 2 ^ 32 ->
    Z.of_nat (length pre + length (EncodeVarint32 n v)) <= limit ->
    GetVarint32Ptr_loop (S n) (pre ++ EncodeVarint32 n v ++ rest)
                        (Z.of_nat (length pre)) limit shift result
    = Some (result + v * 2 ^ shift,
            Z.of_nat (length pre + length (EncodeVarint32 n v))).
Proof.
  induction n as [| n IH]; intros v shift result pre rest limit Hv Hs Hr Hsum Hlim.
  - change (EncodeVarint32 0 v) with [u8 v] in *.
    change (7 * Z.of_nat 1) with 7 in Hv. change (2 ^ 7) with 128 in Hv.
    destruct (final_byte v Hv) as [Hu8 Hbit]. rewrite Hu8.
    cbn [app length] in *. rewrite GetVarint32Ptr_loop_S.
    destruct (Z.ltb_spec (Z.of_nat (length pre)) limit); [| lia].
    rewrite byte_at_app, Hbit, lor_shiftl_add by assumption.
    rewrite u32_small by nia.
    f_equal. f_equal. lia.
  - cbn [EncodeVarint32] in *.
    destruct (Z.ltb_spec v 128) as [Hsmall | Hbig].
    + destruct (final_byte v ltac:(lia)) as [Hu8 Hbit]. rewrite Hu8.
      cbn [app length] in *. rewrite GetVarint32Ptr_loop_S.
      destruct (Z.ltb_spec (Z.of_nat (length pre)) limit); [| lia].
      rewrite byte_at_app, Hbit, lor_shiftl_add by assumption.
      rewrite u32_small by nia.
      f_equal. f_equal. lia.
    + destruct (continuation_byte v) as (_ & Hbit & Hlow).
      set (b := u8 (Z.lor v 128)) in *.
      cbn [length app] in Hlim.
      rewrite GetVarint32Ptr_loop_S.
      destruct (Z.ltb_spec (Z.of_nat (length pre)) limit); [| lia].
      change ((b :: EncodeVarint32 n (Z.shiftr v 7)) ++ rest)
        with (b :: (EncodeVarint32 n (Z.shiftr v 7) ++ rest)).
      rewrite byte_at_app, Hbit, Hlow.
      rewrite lor_shiftl_add by assumption.
      rewrite Z.shiftr_div_pow2 in * by lia. change (2 ^ 7) with 128 in *.
      assert (0 < 2 ^ shift) as Hpow by (apply Z.pow_pos_nonneg; lia).
      assert (2 ^ (shift + 7) = 2 ^ shift * 128) as Hpow7
          by (rewrite Z.pow_add_r by lia; reflexivity).
      pose proof (Z.div_mod v 128 ltac:(lia)) as Hdm.
      pose proof (Z.mod_pos_bound v 128 ltac:(lia)) as Hmod.
      assert (0 <= v / 128) as Hq by (apply Z.div_pos; lia).
      assert (v / 128 < 2 ^ (7 * Z.of_nat (S n))) as Hqb.
      { apply Z.div_lt_upper_bound; [lia |].
        replace (7 * Z.of_nat (S (S n))) with (7 + 7 * Z.of_nat (S n)) in Hv by lia.
        rewrite Z.pow_add_r in Hv by lia. change (2 ^ 7) with 128 in Hv. lia. }
      rewrite u32_small by nia.
      replace (pre ++ b :: EncodeVarint32 n (v / 128) ++ rest)
        with ((pre ++ [b]) ++ EncodeVarint32 n (v / 128) ++ rest)
        by (rewrite <- List.app_assoc; reflexivity).
      replace (Z.of_nat (length pre) + 1) with (Z.of_nat (length (pre ++ [b])))
        by (rewrite List.length_app; simpl; lia).
      assert (0 <= result + v mod 128 * 2 ^ shift < 2 ^ (shift + 7)) as Hacc
          by (rewrite Hpow7; nia).
      assert (result + v mod 128 * 2 ^ shift + v / 128 * 2 ^ (shift + 7)
              = result + v * 2 ^ shift) as Htot
          by (rewrite Hpow7; nia).
      rewrite IH;
        [| split; [exact Hq | exact Hqb] | lia | exact Hacc
         | rewrite Htot; exact Hsum
         | rewrite List.length_app; simpl; lia].
      rewrite Htot. f_equal. f_equal.
      rewrite List.length_app. simpl. lia.
Qed.

(** Reading back what [PutVarint32] wrote yields the value and the
    rest of the slice. *)
Lemma GetVarint32_PutVarint32 v rest :
  0 <= v < 2 ^ 32 ->
  GetVarint32 (PutVarint32 v ++ rest) = Some (v, rest).
Proof.
  intros Hv. unfold GetVarint32, GetVarint32Ptr, PutVarint32.
  pose proof (GetVarint32Ptr_loop_Encode 4 v 0 0 [] rest
                (Z.of_nat (length (EncodeVarint32 4 v ++ rest)))) as H.
  cbn [app length Nat.add] in H.
  change (Z.of_nat 0) with 0 in H.
  rewrite H.
  - rewrite Z.pow_0_r, Z.mul_1_r, Z.add_0_l, Nat2Z.id.
    rewrite List.skipn_app, List.skipn_all, Nat.sub_diag. reflexivity.
  - change (7 * Z.of_nat 5) with 35. split; [lia |].
    apply Z.lt_trans with (2 ^ 32); lia.
  - lia.
  - change (2 ^ 0) with 1. lia.
  - change (2 ^ 0) with 1. lia.
  - rewrite List.length_app. lia.
Qed.

(** ** Access metrics *)

Lemma forallb_range (P : Z -> bool) (n : nat) :
  forallb P (map Z.of_nat (seq 0 n)) = true ->
  forall z, 0 <= z < Z.of_nat n -> P z = true.
Proof.
  intros H z Hz. rewrite List.forallb_forall in H. apply H.
  apply List.in_map_iff. exists (Z.to_nat z).
  split; [lia |]. apply List.in_seq. lia.
Qed.

(** Or-ing bit [k] into a byte sets bit [k]. *)
Lemma set_bit_is_set b k :
  is_byte b -> 0 <= k < 8 ->
  (Z.land (u8 (Z.lor b (Z.shiftl 1 k))) (Z.shiftl 1 k) =? 0) = false.
Proof.
  intros Hb Hk.
  pose proof (forallb_range
                (fun b => forallb
                            (fun k => negb (Z.land (u8 (Z.lor b (Z.shiftl 1 k)))
                                                   (Z.shiftl 1 k) =? 0))
                            (map Z.of_nat (seq 0 8)))
                256 ltac:(vm_compute; reflexivity) b Hb) as H.
  cbv beta in H.
  apply (forallb_range _ 8 H k) in Hk.
  apply negb_true_iff in Hk. exact Hk.
Qed.

Lemma u32_le x : 0 <= x -> 0 <= u32 x <= x.
Proof.
  intros Hx. unfold u32. split.
  - apply Z.mod_pos_bound. lia.
  - apply Z.mod_le; lia.
Qed.

(** Where [RecordAccess] and [IsHot] look: with a non-zero window and a
    bitmap size that does not wrap, the byte index of a restart region
    below [num_restarts] lies inside the bitmap. *)
Lemma metrics_index_in_bounds nr bpr r s :
  0 <= bpr -> u32 (bpr * 8) <> 0 -> nr * bpr < 2 ^ 32 ->
  0 <= r < nr -> 0 <= s ->
  exists bitIdx,
    BlockMetrics.bit_index bpr s = Some bitIdx
    /\ bitIdx = s mod u32 (bpr * 8)
    /\ 0 <= bitIdx mod 8 < 8
    /\ BlockMetrics.byte_index bpr r bitIdx = r * bpr + bitIdx / 8
    /\ 0 <= r * bpr + bitIdx / 8 < nr * bpr.
Proof.
  intros Hbpr Hw Hsize Hr Hs.
  pose proof (u32_le (bpr * 8) ltac:(lia)) as Hle.
  exists (s mod u32 (bpr * 8)).
  unfold BlockMetrics.bit_index, BlockMetrics.byte_index.
  destruct (Z.eqb_spec (u32 (bpr * 8)) 0) as [| _]; [contradiction |].
  pose proof (Z.mod_pos_bound s (u32 (bpr * 8)) ltac:(lia)) as Hbit.
  assert (0 <= s mod u32 (bpr * 8) / 8 < bpr) as Hdiv.
  { split; [apply Z.div_pos; lia |].
    apply Z.div_lt_upper_bound; lia. }
  assert (0 <= r * bpr <= (nr - 1) * bpr) as Hprod by nia.
  rewrite (u32_small (r * bpr)) by nia.
  split; [reflexivity |]. split; [reflexivity |].
  split; [apply Z.mod_pos_bound; lia |].
  split; [reflexivity | nia].
Qed.

Lemma GetDBKey_length m : length (BlockMetrics.GetDBKey m) = 16%nat.
Proof.
  unfold BlockMetrics.GetDBKey, PutFixed64.
  rewrite List.length_app, !List.length_map. reflexivity.
Qed.

(** ** Fixed-width codec *)

Lemma testbit_fixed_byte v i n :
  0 <= i -> 0 <= n ->
  Z.testbit (Z.shiftl (u8 (Z.shiftr v (8 * i))) (8 * i)) n
  = (8 * i <=? n) && (n <? 8 * i + 8) && Z.testbit v n.
Proof.
  intros Hi Hn. unfold u8.
  destruct (Z.leb_spec (8 * i) n) as [Hle | Hlt].
  - rewrite Z.shiftl_spec by lia.
    destruct (Z.ltb_spec n (8 * i + 8)) as [Hin | Hout].
    + rewrite Z.mod_pow2_bits_low by lia.
      rewrite Z.shiftr_spec by lia.
      replace (n - 8 * i + 8 * i) with n by lia. reflexivity.
    + rewrite Z.mod_pow2_bits_high by lia. reflexivity.
  - rewrite Z.shiftl_spec_low by lia. reflexivity.
Qed.

Lemma byte_at_app_mid pre l rest i :
  0 <= i < Z.of_nat (length l) ->
  byte_at (pre ++ l ++ rest) (Z.of_nat (length pre) + i)
  = nth (Z.to_nat i) l 0.
Proof.
  intros Hi. unfold byte_at.
  replace (Z.to_nat (Z.of_nat (length pre) + i))
    with (length pre + Z.to_nat i)%nat by lia.
  rewrite List.app_nth2 by lia.
  replace (length pre + Z.to_nat i - length pre)%nat with (Z.to_nat i) by lia.
  apply List.app_nth1. lia.
Qed.

Lemma DecodeFixed64_PutFixed64 pre v rest :
  0 <= v < 2 ^ 64 ->
  DecodeFixed64 (pre ++ PutFixed64 v ++ rest) (Z.of_nat (length pre)) = v.
Proof.
  intros Hv. unfold DecodeFixed64. cbn [fold_right].
  rewrite !byte_at_app_mid by (simpl; lia).
  change (PutFixed64 v) with (map (fun i => u8 (Z.shiftr v (8 * i))) [0; 1; 2; 3; 4; 5; 6; 7]).
  change (Z.to_nat 0) with 0%nat. change (Z.to_nat 1) with 1%nat.
  change (Z.to_nat 2) with 2%nat. change (Z.to_nat 3) with 3%nat.
  change (Z.to_nat 4) with 4%nat. change (Z.to_nat 5) with 5%nat.
  change (Z.to_nat 6) with 6%nat. change (Z.to_nat 7) with 7%nat.
  cbn [map nth].
  apply Z.bits_inj'. intros n Hn.
  rewrite !Z.lor_spec, !testbit_fixed_byte, Z.bits_0 by lia.
  destruct (Z.ltb_spec n 64) as [Hin | Hout].
  - assert (n < 8 \/ 8 <= n < 16 \/ 16 <= n < 24 \/ 24 <= n < 32
            \/ 32 <= n < 40 \/ 40 <= n < 48 \/ 48 <= n < 56 \/ 56 <= n)
      as Hcase by lia.
    repeat match goal with
           | |- context [?a <=? ?b] =>
               destruct (Z.leb_spec a b); try lia
           | |- context [?a <? ?b] =>
               destruct (Z.ltb_spec a b); try lia
           end;
      cbn [andb orb]; rewrite ?orb_false_r; reflexivity.
  - assert (Z.testbit v n = false) as ->.
    { apply Z.testbit_false; [lia |].
      rewrite Z.div_small; [reflexivity |]. split; [lia |].
      apply Z.lt_le_trans with (2 ^ 64); [lia |].
      apply Z.pow_le_mono_r; lia. }
    rewrite !andb_false_r. reflexivity.
Qed.

(** Reading back what [PutFixed64] wrote yields the value. *)
Lemma GetDBKey_decode m :
  BlockMetrics.wf m ->
  DecodeFixed64 (BlockMetrics.GetDBKey m) 0 = BlockMetrics.file_number_ m
  /\ DecodeFixed64 (BlockMetrics.GetDBKey m) 8
     = BlockMetrics.bytes_per_restart_ m.
Proof.
  intros [Hfn _ _ Hbpr _ _]. unfold BlockMetrics.GetDBKey. split.
  - apply (DecodeFixed64_PutFixed64 [] (BlockMetrics.file_number_ m)
             (PutFixed64 (BlockMetrics.bytes_per_restart_ m)) Hfn).
  - pose proof (DecodeFixed64_PutFixed64
                  (PutFixed64 (BlockMetrics.file_number_ m))
                  (BlockMetrics.bytes_per_restart_ m) []) as H.
    rewrite List.app_nil_r in H. apply H. lia.
Qed.

(** What [Create] makes of a key and value written by [GetDBKey] and
    [GetDBValue]: the block offset it reads back is
    [bytes_per_restart_]. *)
Lemma Create_kv_GetDB m :
  BlockMetrics.wf m ->
  BlockMetrics.Create_kv (BlockMetrics.GetDBKey m) (BlockMetrics.GetDBValue m)
  = Some (Some (BlockMetrics.mk
                  (BlockMetrics.file_number_ m)
                  (BlockMetrics.bytes_per_restart_ m)
                  (BlockMetrics.num_restarts_ m)
                  (BlockMetrics.bytes_per_restart_ m)
                  (BlockMetrics.metrics_ m))).
Proof.
  intros Hwf. destruct (GetDBKey_decode m Hwf) as [Hk0 Hk8].
  destruct Hwf as [_ _ Hnr Hbpr Hlen _].
  unfold BlockMetrics.Create_kv. rewrite GetDBKey_length, Hk0, Hk8.
  change (negb (Z.of_nat 16 =? 16)) with false. cbn iota.
  unfold BlockMetrics.Create, BlockMetrics.GetDBValue.
  rewrite GetVarint32_PutVarint32 by exact Hnr.
  rewrite GetVarint32_PutVarint32 by exact Hbpr.
  rewrite List.firstn_all2 by lia.
  unfold BlockMetrics.new_from_data.
  rewrite Hlen, Z.eqb_refl. reflexivity.
Qed.

(** After [RecordAccess] the same slot reads as hot. *)
Lemma RecordAccess_IsHot m r s :
  BlockMetrics.wf m ->
  u32 (BlockMetrics.bytes_per_restart_ m * 8) <> 0 ->
  BlockMetrics.num_restarts_ m * BlockMetrics.bytes_per_restart_ m < 2 ^ 32 ->
  0 <= r < BlockMetrics.num_restarts_ m -> 0 <= s ->
  exists m',
    BlockMetrics.RecordAccess m r s = Some m'
    /\ BlockMetrics.IsHot m' r s = Some true.
Proof.
  intros [_ _ Hnr Hbpr Hlen Hbytes] Hw Hsize Hr Hs.
  destruct (metrics_index_in_bounds _ _ r s (proj1 Hbpr) Hw Hsize Hr Hs)
    as (bitIdx & Hbit & _ & Hk & Hbyte & Hin).
  unfold BlockMetrics.bitmap_size in Hlen.
  rewrite u32_small in Hlen by nia.
  unfold BlockMetrics.RecordAccess, BlockMetrics.IsHot.
  cbn [BlockMetrics.bytes_per_restart_ BlockMetrics.metrics_].
  rewrite Hbit. cbn [mbind option_bind]. rewrite Hbyte.
  unfold bytes in *.
  destruct (lookup_lt_is_Some_2 (BlockMetrics.metrics_ m)
              (Z.to_nat (r * BlockMetrics.bytes_per_restart_ m + bitIdx / 8))
              ltac:(lia)) as [b Hb].
  rewrite Hb. cbn [mbind option_bind].
  eexists. split; [reflexivity |].
  cbn [BlockMetrics.bytes_per_restart_ BlockMetrics.metrics_].
  rewrite Hbit. cbn [mbind option_bind]. rewrite Hbyte.
  rewrite list_lookup_insert_eq by lia. cbn [mbind option_bind].
  rewrite set_bit_is_set; [reflexivity | | exact Hk].
  apply (proj1 (List.Forall_forall is_byte _) Hbytes).
  apply list_elem_of_In. eapply list_elem_of_lookup_2. exact Hb.
Qed.

(** Offsets beyond the window fold onto the bit of their remainder. *)
Lemma IsHot_fold m r s :
  0 <= BlockMetrics.bytes_per_restart_ m -> 0 <= s < 2 ^ 32 ->
  BlockMetrics.IsHot m r s
  = BlockMetrics.IsHot m r (s mod (BlockMetrics.bytes_per_restart_ m * 8)).
Proof.
  intros Hbpr Hs. unfold BlockMetrics.IsHot, BlockMetrics.bit_index.
  set (bpr := BlockMetrics.bytes_per_restart_ m) in *.
  destruct (Z.eqb_spec (u32 (bpr * 8)) 0) as [| Hw]; [reflexivity |].
  destruct (Z_lt_le_dec (bpr * 8) (2 ^ 32)) as [Hsmall | Hbig].
  - rewrite (u32_small (bpr * 8)) by lia.
    rewrite Z.mod_mod by (rewrite u32_small in Hw by lia; exact Hw).
    reflexivity.
  - rewrite (Z.mod_small s (bpr * 8)) by lia. reflexivity.
Qed.

Lemma BlockMetrics_new_wf fn bo nr bpr :
  0 <= fn < 2 ^ 64 -> 0 <= bo < 2 ^ 64 ->
  0 <= nr < 2 ^ 32 -> 0 <= bpr < 2 ^ 32 ->
  BlockMetrics.wf (BlockMetrics.new fn bo nr bpr).
Proof.
  intros Hfn Hbo Hnr Hbpr.
  pose proof (u32_range (nr * bpr)) as Hsz.
  constructor; cbn [BlockMetrics.new BlockMetrics.file_number_
                   BlockMetrics.block_offset_ BlockMetrics.num_restarts_
                   BlockMetrics.bytes_per_restart_ BlockMetrics.metrics_];
    try assumption.
  - rewrite List.repeat_length. unfold BlockMetrics.bitmap_size.
    apply Z2Nat.id. lia.
  - apply List.Forall_forall. intros x Hx.
    apply List.repeat_spec in Hx. subst x. unfold is_byte. lia.
Qed.

Lemma RecordAccess_no_window m r s :
  BlockMetrics.bit_index (BlockMetrics.bytes_per_restart_ m) s = None ->
  BlockMetrics.RecordAccess m r s = None /\ BlockMetrics.IsHot m r s = None.
Proof.
  intros H. unfold BlockMetrics.RecordAccess, BlockMetrics.IsHot.
  rewrite H. split; reflexivity.
Qed.

Lemma last_nth_entry (es : list Entry) :
  List.last es nil_entry = nth (length es - 1) es nil_entry.
Proof.
  induction es as [| e es IH]; [reflexivity |].
  destruct es as [| e' es]; [reflexivity |].
  change (List.last (e :: e' :: es) nil_entry)
    with (List.last (e' :: es) nil_entry).
  rewrite IH. simpl. rewrite Nat.sub_0_r. reflexivity.
Qed.

Lemma run_ops_corruption_sticky cmp os :
  forall it it',
    run_ops cmp it os = Some it' ->
    status_ it = Corruption "bad entry in block" ->
    status_ it' = Corruption "bad entry in block".
Proof.
  induction os as [| o os IH]; intros it it'; simpl.
  - intros [= <-]. auto.
  - destruct (run_op cmp it o) as [it1 |] eqn:H1; [| discriminate].
    intros Hrun Hst. apply (IH it1 it' Hrun).
    apply run_op_status in H1 as [H1 | (H1 & _)]; congruence.
Qed.

(** ** The block handle on buffers that fit *)

(** A buffer shorter than eight bytes yields the error iterator. *)
Lemma NewIterator_short b :
  Block.size_ b < 8 ->
  Block.NewIterator b
  = Some (ErrorIterator (Corruption "bad block contents")).
Proof.
  intros H. unfold Block.NewIterator.
  destruct (Z.ltb_spec (Block.size_ b) 8); [reflexivity | lia].
Qed.

(** A buffer of at least eight bytes whose trailer announces [N]
    restarts and has room for them, the restart array starting at [R]:
    the constructor keeps the size and finds [R], and [NewIterator]
    returns the empty iterator for [N = 0] and a fresh block iterator
    otherwise. *)
Lemma NewIterator_fitting d R N :
  Z.of_nat (length d) = R + 4 * N + 4 ->
  0 <= R -> 0 <= N -> 8 <= R + 4 * N + 4 < 2 ^ 32 ->
  DecodeFixed32 d (R + 4 * N) = N ->
  Block.new d = Some (Block.mk d (R + 4 * N + 4) R)
  /\ Block.NewIterator (Block.mk d (R + 4 * N + 4) R)
     = Some (if N =? 0 then EmptyIterator
             else BlockIterator
                    (mkIter d R N R N 0 [] (mkSlice None 0) Ok)).
Proof.
  intros Hlen HR HN Hsize Htrailer.
  assert (Block.NumRestarts (Block.mk d (R + 4 * N + 4) 0) = Some N) as Hnum0.
  { unfold Block.NumRestarts. cbn [Block.size_ Block.data_].
    destruct (Z.ltb_spec (R + 4 * N + 4) 8); [lia |].
    replace (R + 4 * N + 4 - 4) with (R + 4 * N) by lia.
    rewrite Htrailer. reflexivity. }
  assert (Block.NumRestarts (Block.mk d (R + 4 * N + 4) R) = Some N) as Hnum
      by exact Hnum0.
  split.
  - unfold Block.new. rewrite Hlen.
    destruct (Z.ltb_spec (R + 4 * N + 4) 4); [lia |].
    rewrite Hnum0. cbn [mbind option_bind].
    unfold Block.restart_offset_bits.
    rewrite (u32_small (1 + N)) by lia.
    unfold u64.
    rewrite (Z.mod_small ((1 + N) * 4)) by lia.
    replace (R + 4 * N + 4 - (1 + N) * 4) with R by lia.
    rewrite (Z.mod_small R (2 ^ 64)) by lia.
    rewrite (Z.mod_small R (2 ^ 32)) by lia.
    destruct (Z.ltb_spec (R + 4 * N + 4 - 4) R); [lia | reflexivity].
  - unfold Block.NewIterator. cbn [Block.size_].
    destruct (Z.ltb_spec (R + 4 * N + 4) 8); [lia |].
    rewrite Hnum. cbn [mbind option_bind].
    destruct (Z.eqb_spec N 0) as [| Hne]; [reflexivity |].
    unfold Iter_new. cbn [Block.data_ Block.restart_offset_].
    destruct (Z.ltb_spec 0 N); [reflexivity | lia].
Qed.

(** ** Scenarios of section 8 *)

(** S2: seeking k10, k09 and k99 on the block of five keys. *)
Example scenario_seek_restart_boundary :
  (key <$> Seek bytewise iter_k [107;49;48]) = Some (Some [107;49;48])
  /\ (key <$> Seek bytewise iter_k [107;48;57]) = Some (Some [107;49;48])
  /\ (Valid <$> Seek bytewise iter_k [107;57;57]) = Some false.
Proof. repeat split; vm_compute; reflexivity. Qed.

(** S3: reverse iteration across the restart point. *)
Example scenario_reverse_iteration :
  (key <$> run_ops bytewise iter_k [OpSeekToLast])
  = Some (Some [107;49;49])
  /\ (key <$> run_ops bytewise iter_k [OpSeekToLast; OpPrev])
     = Some (Some [107;49;48])
  /\ (key <$> run_ops bytewise iter_k [OpSeekToLast; OpPrev; OpPrev])
     = Some (Some [107;48;51])
  /\ (key <$> run_ops bytewise iter_k
                [OpSeekToLast; OpPrev; OpPrev; OpPrev; OpPrev])
     = Some (Some [107;48;49])
  /\ (Valid <$> run_ops bytewise iter_k
                  [OpSeekToLast; OpPrev; OpPrev; OpPrev; OpPrev; OpPrev])
     = Some false.
Proof. repeat split; vm_compute; reflexivity. Qed.

(** A trailer that announces five restarts in eight bytes is caught by
    the constructor. *)
Example Block_new_too_many_restarts :
  Block.new [0;0;0;0; 5;0;0;0] = Some (Block.mk [0;0;0;0; 5;0;0;0] 0 (2 ^ 32 - 16))
  /\ Block.NewIterator (Block.mk [0;0;0;0; 5;0;0;0] 0 (2 ^ 32 - 16))
     = Some (ErrorIterator (Corruption "bad block contents")).
Proof. repeat split; vm_compute; reflexivity. Qed.

(** On four bytes the constructor reads the restart count through
    [NumRestarts], whose assertion wants eight. *)
Example Block_new_four_bytes : Block.new [0;0;0;0] = None.
Proof. vm_compute. reflexivity. Qed.

(** * The claims *)

(** C1 (as amended).  On a well-formed block with at least one entry and
    for every probe [target], the binary search of [Seek] ends on the
    largest restart index whose key is below [target] (index 0 when
    there is none); [Seek] then returns with the iterator on the first
    entry whose key is not below [target], offset, key and value being
    those of that entry, or, when every key is below [target], with the
    iterator invalid; the status stays ok. *)
Theorem Seek_first_entry_not_below
        (cmp : bytes -> bytes -> Z) (d : bytes) (R N : Z) (es : list Entry)
        (it : Iter) (target : bytes) :
  wf_block cmp d R N es ->
  (forall a b c, cmp a b <= 0 -> cmp b c < 0 -> cmp a c < 0) ->
  on_block d R N it -> status_ it = Ok ->
  es <> []
  /\ exists L it',
      Seek_bsearch cmp (Z.to_nat N) it target 0 (u32 (N - 1)) = Some (inr L)
      /\ largest_restart_lt cmp d R N target L
      /\ Seek cmp it target = Some it'
      /\ status_ it' = Ok
      /\ ((exists k,
              (k < length es)%nat
              /\ at_entry it' (nth k es nil_entry)
              /\ 0 <= cmp (e_key (nth k es nil_entry)) target
              /\ forall m, (m < k)%nat ->
                           cmp (e_key (nth m es nil_entry)) target < 0)
          \/ (Valid it' = false
              /\ forall m, (m < length es)%nat ->
                           cmp (e_key (nth m es nil_entry)) target < 0)).
Proof.
  intros Hwf Htrans Hb Hst.
  split.
  { pose proof (wf_nonempty cmp d R N es Hwf). destruct es; simpl in *; [lia | discriminate]. }
  destruct (Seek_spec cmp d R N es Hwf Htrans it target Hb)
    as (L & it' & Hbs & HL & Hlow & Hhigh & Hseek & Hst' & Hres).
  exists L, it'.
  split; [exact Hbs |]. split; [repeat split; assumption || lia |].
  split; [exact Hseek |]. split; [congruence |].
  destruct Hres as [(k & Hpos & Hge & Hbelow) | (_ & Hinv & Hbelow)].
  - left. exists k. destruct Hpos as (_ & Hk & Hat & _). auto.
  - right. auto.
Qed.

Lemma Seek_first_entry_not_below_witness :
  wf_block bytewise block_k 29 2 entries_k
  /\ (forall a b c, bytewise a b <= 0 -> bytewise b c < 0 -> bytewise a c < 0)
  /\ on_block block_k 29 2 iter_k /\ status_ iter_k = Ok
  /\ entries_k <> []
  /\ exists L it',
      Seek_bsearch bytewise (Z.to_nat 2) iter_k [107;48;57] 0 (u32 (2 - 1))
      = Some (inr L)
      /\ largest_restart_lt bytewise block_k 29 2 [107;48;57] L
      /\ Seek bytewise iter_k [107;48;57] = Some it'
      /\ status_ it' = Ok
      /\ ((exists k,
              (k < length entries_k)%nat
              /\ at_entry it' (nth k entries_k nil_entry)
              /\ 0 <= bytewise (e_key (nth k entries_k nil_entry)) [107;48;57]
              /\ forall m, (m < k)%nat ->
                           bytewise (e_key (nth m entries_k nil_entry))
                                    [107;48;57] < 0)
          \/ (Valid it' = false
              /\ forall m, (m < length entries_k)%nat ->
                           bytewise (e_key (nth m entries_k nil_entry))
                                    [107;48;57] < 0)).
Proof.
  split; [exact block_k_wf |].
  split; [exact bytewise_trans |].
  split; [repeat split |]. split; [reflexivity |].
  apply (Seek_first_entry_not_below bytewise block_k 29 2 entries_k iter_k
           [107;48;57] block_k_wf bytewise_trans).
  - repeat split.
  - reflexivity.
Defined.

(** C1, the stated binary search refuted.  On the well-formed block with
    the keys a and c, each at a restart point, and the probe c, the
    binary search of [Seek] ends on restart 0, although restart 1 has
    the key c, which is at most the probe: the index found is not the
    largest restart index whose key is at most the target. *)
Lemma Seek_bsearch_not_largest_le :
  wf_block bytewise block_ac 10 2 entries_ac
  /\ Seek_bsearch bytewise (Z.to_nat 2) iter_ac [99] 0 (u32 (2 - 1))
     = Some (inr 0)
  /\ ~ largest_restart_le bytewise block_ac 10 2 [99] 0.
Proof.
  split; [exact block_ac_wf |].
  split; [vm_compute; reflexivity |].
  intros (_ & _ & Hhigh).
  specialize (Hhigh 1 ltac:(lia) ltac:(lia)).
  vm_compute in Hhigh. discriminate Hhigh.
Qed.

(** C2, the code at the failing input.  On the well-formed block with
    the keys a and c, each at a restart point, [SeekToFirst] then [Next]
    leaves the iterator valid on the entry at offset 5, which is restart
    point 1, with [restart_index_ = 0] and [restart_offset_ = 1]: the
    largest restart index whose offset is at most [current_] is 1.
    [SeekToLast] reaches the same entry with [restart_index_ = 1] and
    [restart_offset_ = 0]. *)
Theorem restart_index_lags_at_restart_point :
  wf_block bytewise block_ac 10 2 entries_ac
  /\ restart_point block_ac 10 1 = 5
  /\ (exists it,
         run_ops bytewise iter_ac [OpSeekToFirst; OpNext] = Some it
         /\ Valid it = true /\ current_ it = 5
         /\ restart_index_ it = 0 /\ restart_offset_ it = 1)
  /\ (exists it,
         run_ops bytewise iter_ac [OpSeekToLast] = Some it
         /\ Valid it = true /\ current_ it = 5
         /\ restart_index_ it = 1 /\ restart_offset_ it = 0).
Proof.
  split; [exact block_ac_wf |].
  split; [vm_compute; reflexivity |].
  split; eexists; (split; [vm_compute; reflexivity |]); repeat split.
Qed.

(** C3, the code at the failing input.  [GetDBKey] always writes 16
    bytes, the file number followed by [bytes_per_restart_]; for
    metrics of file 1 at block offset 7 with two bytes per restart the
    second half encodes 2, not the block offset 7. *)
Theorem GetDBKey_writes_bytes_per_restart :
  (forall m,
      BlockMetrics.GetDBKey m
      = PutFixed64 (BlockMetrics.file_number_ m)
        ++ PutFixed64 (BlockMetrics.bytes_per_restart_ m)
      /\ length (BlockMetrics.GetDBKey m) = 16%nat)
  /\ BlockMetrics.block_offset_ metrics_ex = 7
  /\ BlockMetrics.GetDBKey metrics_ex
     = [1;0;0;0;0;0;0;0; 2;0;0;0;0;0;0;0]
  /\ BlockMetrics.GetDBKey metrics_ex <> PutFixed64 1 ++ PutFixed64 7.
Proof.
  split; [intros m; split; [reflexivity | apply GetDBKey_length] |].
  split; [reflexivity |].
  split; [vm_compute; reflexivity |].
  vm_compute. discriminate.
Qed.

(** C4, the code at the failing input.  For the value bytes 01 01, which
    announce one restart of one byte and carry no bitmap byte, [Create]
    runs into the assertion of the constructor instead of returning
    NULL; NULL is what it returns when a varint does not parse, and a
    value of matching length yields metrics. *)
Theorem Create_length_mismatch_asserts :
  BlockMetrics.Create 1 7 [1; 1] = None
  /\ BlockMetrics.Create 1 7 [128] = Some None
  /\ BlockMetrics.Create 1 7 [1; 1; 5]
     = Some (Some (BlockMetrics.mk 1 7 1 1 [5])).
Proof. repeat split; vm_compute; reflexivity. Qed.

(** C5.  For every metrics instance, [Create] applied to its
    [GetDBKey] and [GetDBValue] returns metrics with the same bitmap,
    [num_restarts_] and [bytes_per_restart_]; the file number is the
    same too, and the block offset read back is [bytes_per_restart_]. *)
Theorem Create_GetDBKey_GetDBValue_roundtrip (m : BlockMetrics.t) :
  BlockMetrics.wf m ->
  exists m',
    BlockMetrics.Create_kv (BlockMetrics.GetDBKey m)
                           (BlockMetrics.GetDBValue m)
    = Some (Some m')
    /\ BlockMetrics.metrics_ m' = BlockMetrics.metrics_ m
    /\ BlockMetrics.num_restarts_ m' = BlockMetrics.num_restarts_ m
    /\ BlockMetrics.bytes_per_restart_ m' = BlockMetrics.bytes_per_restart_ m
    /\ BlockMetrics.file_number_ m' = BlockMetrics.file_number_ m
    /\ BlockMetrics.block_offset_ m' = BlockMetrics.bytes_per_restart_ m.
Proof.
  intros Hwf. eexists. split; [apply Create_kv_GetDB; exact Hwf |].
  repeat split.
Qed.

Lemma Create_GetDBKey_GetDBValue_roundtrip_witness :
  BlockMetrics.wf metrics_ex
  /\ exists m',
      BlockMetrics.Create_kv (BlockMetrics.GetDBKey metrics_ex)
                             (BlockMetrics.GetDBValue metrics_ex)
      = Some (Some m')
      /\ BlockMetrics.metrics_ m' = BlockMetrics.metrics_ metrics_ex
      /\ BlockMetrics.num_restarts_ m' = BlockMetrics.num_restarts_ metrics_ex
      /\ BlockMetrics.bytes_per_restart_ m'
         = BlockMetrics.bytes_per_restart_ metrics_ex
      /\ BlockMetrics.file_number_ m' = BlockMetrics.file_number_ metrics_ex
      /\ BlockMetrics.block_offset_ m'
         = BlockMetrics.bytes_per_restart_ metrics_ex.
Proof.
  assert (BlockMetrics.wf metrics_ex) as Hwf
      by (apply BlockMetrics_new_wf; lia).
  split; [exact Hwf |].
  apply (Create_GetDBKey_GetDBValue_roundtrip metrics_ex Hwf).
Defined.

(** C6 (as amended).  When an operation takes the status from ok to
    not ok it returns with the iterator corrupted: status corruption,
    invalid, key and value empty; and after every later run of
    operations the status is still that corruption. *)
Theorem corruption_status_is_sticky
        (cmp : bytes -> bytes -> Z) (it : Iter) (o : Op) (it' : Iter)
        (os : list Op) (it'' : Iter) :
  status_ it = Ok ->
  run_op cmp it o = Some it' ->
  status_ it' <> Ok ->
  run_ops cmp it' os = Some it'' ->
  corrupted it' /\ status_ it'' = Corruption "bad entry in block".
Proof.
  intros Hok Hop Hne Hrun.
  apply run_op_status in Hop as [Hsame | Hc]; [congruence |].
  split; [exact Hc |].
  eapply run_ops_corruption_sticky; [exact Hrun | apply Hc].
Qed.

Lemma corruption_status_is_sticky_witness :
  status_ iter_bad_first = Ok
  /\ run_op bytewise iter_bad_first OpNext = Some iter_bad_corrupt
  /\ status_ iter_bad_corrupt <> Ok
  /\ run_ops bytewise iter_bad_corrupt [OpSeekToFirst] = Some iter_bad_again
  /\ corrupted iter_bad_corrupt
  /\ status_ iter_bad_again = Corruption "bad entry in block".
Proof.
  split; [reflexivity |].
  split; [vm_compute; reflexivity |].
  split; [discriminate |].
  split; [vm_compute; reflexivity |].
  apply (corruption_status_is_sticky bytewise iter_bad_first OpNext
           iter_bad_corrupt [OpSeekToFirst] iter_bad_again).
  - reflexivity.
  - vm_compute; reflexivity.
  - discriminate.
  - vm_compute; reflexivity.
Defined.

(** C6, the stated permanence refuted.  On the block whose second entry
    claims 99 shared bytes, [SeekToFirst] then [Next] detects the
    corruption and leaves the iterator invalid; one more [SeekToFirst]
    makes it valid again, on the key abc, with the corruption status
    still set. *)
Lemma corrupted_iterator_revalidated :
  run_ops bytewise iter_bad [OpSeekToFirst; OpNext] = Some iter_bad_corrupt
  /\ status_ iter_bad_corrupt = Corruption "bad entry in block"
  /\ Valid iter_bad_corrupt = false
  /\ run_ops bytewise iter_bad_corrupt [OpSeekToFirst] = Some iter_bad_again
  /\ status_ iter_bad_again = Corruption "bad entry in block"
  /\ Valid iter_bad_again = true
  /\ key iter_bad_again = Some [97; 98; 99]
  /\ value iter_bad_again = Some [118].
Proof. repeat split; vm_compute; reflexivity. Qed.

(** C7.  On a well-formed block, from every valid position reached by
    positioning operations on a fresh iterator that is not on the last
    entry, [Next] and then [Prev] both return, and the iterator is back
    on the same entry: same current offset, key and value. *)
Theorem Next_then_Prev_returns
        (cmp : bytes -> bytes -> Z) (d : bytes) (R N : Z) (es : list Entry)
        (it0 : Iter) (os : list Op) (it : Iter) :
  wf_block cmp d R N es ->
  Iter_new d R N = Some it0 ->
  run_ops cmp it0 os = Some it ->
  Valid it = true ->
  current_ it <> e_off (List.last es nil_entry) ->
  exists it1 it2,
    Next it = Some it1 /\ Valid it1 = true
    /\ Prev it1 = Some it2 /\ Valid it2 = true
    /\ current_ it2 = current_ it
    /\ key it2 = key it
    /\ value it2 = value it.
Proof.
  intros Hwf Hnew Hrun Hvalid Hlast.
  destruct (Iter_new_cursor_ok d R N es it0 Hnew) as [Hok0 _].
  destruct (run_ops_cursor_ok cmp d R N es Hwf os it0 it Hok0 Hrun)
    as [[Hb Hpos] _].
  destruct (Hpos Hvalid) as (j & Hj).
  pose proof Hj as (_ & Hlen & (_ & Hcur & Hk & Hv) & _).
  assert (S j < length es)%nat as Hnext.
  { destruct (Nat.eq_dec (S j) (length es)) as [Heq |]; [| lia].
    exfalso. apply Hlast. rewrite last_nth_entry, Hcur.
    replace (length es - 1)%nat with j by lia. reflexivity. }
  destruct (Next_Prev_positioned cmp d R N es Hwf it j Hj Hnext)
    as (it1 & it2 & Hn & Hpos1 & Hp & Hpos2).
  exists it1, it2.
  destruct Hpos1 as (_ & _ & (Hv1 & _) & _).
  destruct Hpos2 as ((Hd2 & _) & _ & (Hv2 & Hcur2 & Hk2 & Hval2) & _).
  destruct Hb as (Hd & _).
  repeat (split; [first [assumption | congruence] |]).
  split.
  - unfold key. rewrite Hv2, Hvalid. congruence.
  - unfold value. rewrite Hv2, Hvalid, Hval2, Hv, Hd2, Hd. reflexivity.
Qed.

Lemma Next_then_Prev_returns_witness :
  wf_block bytewise block_k 29 2 entries_k
  /\ Iter_new block_k 29 2 = Some iter_k
  /\ run_ops bytewise iter_k [OpSeekToLast; OpPrev; OpPrev]
     = Some iter_k_third
  /\ Valid iter_k_third = true
  /\ current_ iter_k_third <> e_off (List.last entries_k nil_entry)
  /\ exists it1 it2,
      Next iter_k_third = Some it1 /\ Valid it1 = true
      /\ Prev it1 = Some it2 /\ Valid it2 = true
      /\ current_ it2 = current_ iter_k_third
      /\ key it2 = key iter_k_third
      /\ value it2 = value iter_k_third.
Proof.
  split; [exact block_k_wf |].
  split; [reflexivity |].
  split; [vm_compute; reflexivity |].
  split; [reflexivity |].
  split; [vm_compute; discriminate |].
  apply (Next_then_Prev_returns bytewise block_k 29 2 entries_k iter_k
           [OpSeekToLast; OpPrev; OpPrev] iter_k_third block_k_wf).
  - reflexivity.
  - vm_compute; reflexivity.
  - reflexivity.
  - vm_compute; discriminate.
Defined.

(** C8 (as amended).  For every metrics instance whose 32-bit window
    [bytes_per_restart_ * 8] is not 0 and whose bitmap size
    [num_restarts_ * bytes_per_restart_] fits in 32 bits, every
    [restart_index] below [num_restarts_] and every 32-bit
    [restart_offset]: [RecordAccess] returns, [IsHot] on the result
    returns true for the same pair, and [IsHot] gives the same answer
    for [restart_offset] and for [restart_offset] modulo
    [bytes_per_restart_ * 8]. *)
Theorem RecordAccess_then_IsHot (m : BlockMetrics.t) (r s : Z) :
  BlockMetrics.wf m ->
  u32 (BlockMetrics.bytes_per_restart_ m * 8) <> 0 ->
  BlockMetrics.num_restarts_ m * BlockMetrics.bytes_per_restart_ m < 2 ^ 32 ->
  0 <= r < BlockMetrics.num_restarts_ m ->
  0 <= s < 2 ^ 32 ->
  (exists m',
      BlockMetrics.RecordAccess m r s = Some m'
      /\ BlockMetrics.IsHot m' r s = Some true)
  /\ BlockMetrics.IsHot m r s
     = BlockMetrics.IsHot m r (s mod (BlockMetrics.bytes_per_restart_ m * 8)).
Proof.
  intros Hwf Hw Hsize Hr Hs. split.
  - apply RecordAccess_IsHot; try assumption. lia.
  - apply IsHot_fold; [apply Hwf | exact Hs].
Qed.

Lemma RecordAccess_then_IsHot_witness :
  BlockMetrics.wf metrics_ex
  /\ u32 (BlockMetrics.bytes_per_restart_ metrics_ex * 8) <> 0
  /\ BlockMetrics.num_restarts_ metrics_ex
     * BlockMetrics.bytes_per_restart_ metrics_ex < 2 ^ 32
  /\ 0 <= 0 < BlockMetrics.num_restarts_ metrics_ex
  /\ 0 <= 16 < 2 ^ 32
  /\ (exists m',
         BlockMetrics.RecordAccess metrics_ex 0 16 = Some m'
         /\ BlockMetrics.IsHot m' 0 16 = Some true)
  /\ BlockMetrics.IsHot metrics_ex 0 16
     = BlockMetrics.IsHot metrics_ex 0
         (16 mod (BlockMetrics.bytes_per_restart_ metrics_ex * 8)).
Proof.
  assert (BlockMetrics.wf metrics_ex) as Hwf
      by (apply BlockMetrics_new_wf; lia).
  split; [exact Hwf |].
  split; [vm_compute; discriminate |].
  split; [vm_compute; reflexivity |].
  split; [vm_compute; split; [discriminate | reflexivity] |].
  split; [lia |].
  apply (RecordAccess_then_IsHot metrics_ex 0 16 Hwf).
  - vm_compute; discriminate.
  - vm_compute; reflexivity.
  - vm_compute; split; [discriminate | reflexivity].
  - lia.
Defined.

(** C8, the stated generality refuted.  The metrics [Create] builds from
    the value bytes 01 00 have one restart region and
    [bytes_per_restart_ = 0]; restart index 0 is below [num_restarts_],
    yet [RecordAccess] and [IsHot] take a remainder modulo 0 and return
    nothing.  The metrics built from the value bytes 80 80 80 80 08 02
    have 2^31 restart regions of two bytes and, the size being a 32-bit
    product, an empty bitmap: restart index 0 is out of range. *)
Lemma RecordAccess_needs_window_and_size :
  (BlockMetrics.Create 1 7 [1; 0] = Some (Some metrics_zero)
   /\ BlockMetrics.wf metrics_zero
   /\ 0 <= 0 < BlockMetrics.num_restarts_ metrics_zero
   /\ BlockMetrics.RecordAccess metrics_zero 0 0 = None
   /\ BlockMetrics.IsHot metrics_zero 0 0 = None)
  /\ (BlockMetrics.Create 1 7 [128; 128; 128; 128; 8; 2]
      = Some (Some metrics_wrapped)
      /\ BlockMetrics.wf metrics_wrapped
      /\ 0 <= 0 < BlockMetrics.num_restarts_ metrics_wrapped
      /\ BlockMetrics.RecordAccess metrics_wrapped 0 0 = None
      /\ BlockMetrics.IsHot metrics_wrapped 0 0 = None).
Proof.
  split.
  - split; [vm_compute; reflexivity |].
    split; [constructor; simpl; try lia; [reflexivity | constructor] |].
    split; [simpl; lia |].
    split; vm_compute; reflexivity.
  - split; [vm_compute; reflexivity |].
    split; [constructor; simpl; try lia; [reflexivity | constructor] |].
    split; [simpl; lia |].
    split; vm_compute; reflexivity.
Qed.

(** C9, the code at the failing input.  For the eight bytes whose
    trailer announces 2^30 restarts, the restart array would need 2^32
    bytes; the constructor computes [restart_offset_ = 4], leaves
    [size_ = 8], and [NewIterator] returns a block iterator over 2^30
    restarts instead of the error iterator. *)
Theorem NewIterator_misses_wrapped_restart_offset :
  Block.new block_wrap = Some (Block.mk block_wrap 8 4)
  /\ Block.NumRestarts (Block.mk block_wrap 8 4) = Some (2 ^ 30)
  /\ 8 - (1 + 2 ^ 30) * 4 < 0
  /\ Block.NewIterator (Block.mk block_wrap 8 4)
     = Some (BlockIterator
               (mkIter block_wrap 4 (2 ^ 30) 4 (2 ^ 30) 0 []
                       (mkSlice None 0) Ok)).
Proof. repeat split; vm_compute; reflexivity. Qed.

(** C10 (as amended).  For every metrics instance with
    [1 <= bytes_per_restart_ < 2^29] and a bitmap of exactly
    [num_restarts_ * bytes_per_restart_] bytes, every [restart_index]
    below [num_restarts_] and every [restart_offset], the byte index
    that [RecordAccess] and [IsHot] compute is
    [restart_index * bytes_per_restart_
     + (restart_offset mod (bytes_per_restart_ * 8)) / 8],
    it is below the bitmap size, and both operations return; with
    [restart_index = num_restarts_] the index is past the bitmap and
    neither operation returns. *)
Theorem metrics_byte_index_in_bitmap (m : BlockMetrics.t) (r s : Z) :
  BlockMetrics.wf m ->
  1 <= BlockMetrics.bytes_per_restart_ m < 2 ^ 29 ->
  Z.of_nat (length (BlockMetrics.metrics_ m))
  = BlockMetrics.num_restarts_ m * BlockMetrics.bytes_per_restart_ m ->
  0 <= r < BlockMetrics.num_restarts_ m ->
  0 <= s ->
  (exists bitIdx,
      BlockMetrics.bit_index (BlockMetrics.bytes_per_restart_ m) s
      = Some bitIdx
      /\ bitIdx = s mod (BlockMetrics.bytes_per_restart_ m * 8)
      /\ BlockMetrics.byte_index (BlockMetrics.bytes_per_restart_ m) r bitIdx
         = r * BlockMetrics.bytes_per_restart_ m + bitIdx / 8
      /\ 0 <= r * BlockMetrics.bytes_per_restart_ m + bitIdx / 8
         < Z.of_nat (length (BlockMetrics.metrics_ m)))
  /\ is_Some (BlockMetrics.RecordAccess m r s)
  /\ is_Some (BlockMetrics.IsHot m r s)
  /\ BlockMetrics.RecordAccess metrics_ex
       (BlockMetrics.num_restarts_ metrics_ex) s = None
  /\ BlockMetrics.IsHot metrics_ex
       (BlockMetrics.num_restarts_ metrics_ex) s = None.
Proof.
  intros Hwf Hbpr Hlen Hr Hs.
  pose proof (BlockMetrics.wf_length _ Hwf) as Hlen32.
  pose proof (u32_range (BlockMetrics.num_restarts_ m
                         * BlockMetrics.bytes_per_restart_ m)) as Hrange.
  unfold BlockMetrics.bitmap_size in Hlen32.
  assert (BlockMetrics.num_restarts_ m * BlockMetrics.bytes_per_restart_ m
          < 2 ^ 32) as Hsize by lia.
  assert (u32 (BlockMetrics.bytes_per_restart_ m * 8)
          = BlockMetrics.bytes_per_restart_ m * 8) as Hw
      by (apply u32_small; lia).
  destruct (metrics_index_in_bounds
              (BlockMetrics.num_restarts_ m) (BlockMetrics.bytes_per_restart_ m)
              r s ltac:(lia) ltac:(lia) Hsize Hr Hs)
    as (bitIdx & Hbit & Hidx & Hk & Hbyte & Hin).
  rewrite Hw in Hidx.
  split; [exists bitIdx; rewrite Hlen; auto |].
  assert (exists b, BlockMetrics.metrics_ m
                    !! Z.to_nat (r * BlockMetrics.bytes_per_restart_ m
                                 + bitIdx / 8) = Some b) as [b Hb].
  { apply lookup_lt_is_Some_2. lia. }
  split; [| split].
  - unfold BlockMetrics.RecordAccess. rewrite Hbit. cbn [mbind option_bind].
    rewrite Hbyte. unfold bytes in *. rewrite Hb. eexists. reflexivity.
  - unfold BlockMetrics.IsHot. rewrite Hbit. cbn [mbind option_bind].
    rewrite Hbyte. unfold bytes in *. rewrite Hb. eexists. reflexivity.
  - assert (exists k, BlockMetrics.bit_index 2 s = Some k /\ 0 <= k / 8)
      as (k & Hk2 & Hk8).
    { exists (s mod 16). split; [reflexivity |].
      apply Z.div_pos; [| lia]. apply Z.mod_pos_bound. lia. }
    unfold BlockMetrics.RecordAccess, BlockMetrics.IsHot.
    change (BlockMetrics.bytes_per_restart_ metrics_ex) with 2.
    change (BlockMetrics.num_restarts_ metrics_ex) with 1.
    change (BlockMetrics.metrics_ metrics_ex) with [0; 0].
    rewrite Hk2. cbn [mbind option_bind].
    unfold BlockMetrics.byte_index. change (u32 (1 * 2)) with 2.
    unfold bytes.
    assert ([0; 0] !! Z.to_nat (2 + k / 8) = None) as ->
        by (apply lookup_ge_None; simpl; lia).
    split; reflexivity.
Qed.

Lemma metrics_byte_index_in_bitmap_witness :
  BlockMetrics.wf metrics_ex
  /\ 1 <= BlockMetrics.bytes_per_restart_ metrics_ex < 2 ^ 29
  /\ Z.of_nat (length (BlockMetrics.metrics_ metrics_ex))
     = BlockMetrics.num_restarts_ metrics_ex
       * BlockMetrics.bytes_per_restart_ metrics_ex
  /\ 0 <= 0 < BlockMetrics.num_restarts_ metrics_ex
  /\ 0 <= 17
  /\ (exists bitIdx,
         BlockMetrics.bit_index (BlockMetrics.bytes_per_restart_ metrics_ex) 17
         = Some bitIdx
         /\ bitIdx = 17 mod (BlockMetrics.bytes_per_restart_ metrics_ex * 8)
         /\ BlockMetrics.byte_index
              (BlockMetrics.bytes_per_restart_ metrics_ex) 0 bitIdx
            = 0 * BlockMetrics.bytes_per_restart_ metrics_ex + bitIdx / 8
         /\ 0 <= 0 * BlockMetrics.bytes_per_restart_ metrics_ex + bitIdx / 8
            < Z.of_nat (length (BlockMetrics.metrics_ metrics_ex)))
  /\ is_Some (BlockMetrics.RecordAccess metrics_ex 0 17)
  /\ is_Some (BlockMetrics.IsHot metrics_ex 0 17)
  /\ BlockMetrics.RecordAccess metrics_ex
       (BlockMetrics.num_restarts_ metrics_ex) 17 = None
  /\ BlockMetrics.IsHot metrics_ex
       (BlockMetrics.num_restarts_ metrics_ex) 17 = None.
Proof.
  assert (BlockMetrics.wf metrics_ex) as Hwf
      by (apply BlockMetrics_new_wf; lia).
  split; [exact Hwf |].
  split; [vm_compute; split; [discriminate | reflexivity] |].
  split; [reflexivity |].
  split; [vm_compute; split; [discriminate | reflexivity] |].
  split; [lia |].
  apply (metrics_byte_index_in_bitmap metrics_ex 0 17 Hwf).
  - vm_compute; split; [discriminate | reflexivity].
  - reflexivity.
  - vm_compute; split; [discriminate | reflexivity].
  - lia.
Defined.

(** C10, the stated precondition refuted.  With one restart region and
    [bytes_per_restart_ = 2^29] the bitmap has exactly 2^29 bytes and
    restart index 0 is below [num_restarts_], but the window
    [bytes_per_restart_ * 8] is 0 in 32 bits: the remainder that yields
    the bit index is undefined, no byte index is computed and neither
    operation returns.  One byte more per restart and the window is 8
    bits: for restart offset 8 the code computes byte index 0 where the
    stated formula gives 1. *)
Lemma metrics_window_wraps_to_zero :
  BlockMetrics.wf metrics_wide
  /\ 1 <= BlockMetrics.bytes_per_restart_ metrics_wide
  /\ Z.of_nat (length (BlockMetrics.metrics_ metrics_wide))
     = BlockMetrics.num_restarts_ metrics_wide
       * BlockMetrics.bytes_per_restart_ metrics_wide
  /\ 0 <= 0 < BlockMetrics.num_restarts_ metrics_wide
  /\ BlockMetrics.bit_index (BlockMetrics.bytes_per_restart_ metrics_wide) 0
     = None
  /\ BlockMetrics.RecordAccess metrics_wide 0 0 = None
  /\ BlockMetrics.IsHot metrics_wide 0 0 = None
  /\ BlockMetrics.bit_index (2 ^ 29 + 1) 8 = Some 0
  /\ BlockMetrics.byte_index (2 ^ 29 + 1) 0 0 = 0
  /\ 0 * (2 ^ 29 + 1) + (8 mod ((2 ^ 29 + 1) * 8)) / 8 = 1.
Proof.
  assert (BlockMetrics.wf metrics_wide) as Hwf
      by (apply BlockMetrics_new_wf; lia).
  assert (BlockMetrics.bit_index
            (BlockMetrics.bytes_per_restart_ metrics_wide) 0 = None) as Hbit.
  { change (BlockMetrics.bytes_per_restart_ metrics_wide) with (2 ^ 29).
    vm_compute. reflexivity. }
  split; [exact Hwf |].
  split; [change (BlockMetrics.bytes_per_restart_ metrics_wide) with (2 ^ 29);
          lia |].
  split.
  { rewrite (BlockMetrics.wf_length _ Hwf).
    change (BlockMetrics.num_restarts_ metrics_wide) with 1.
    change (BlockMetrics.bytes_per_restart_ metrics_wide) with (2 ^ 29).
    vm_compute. reflexivity. }
  split; [change (BlockMetrics.num_restarts_ metrics_wide) with 1; lia |].
  split; [exact Hbit |].
  destruct (RecordAccess_no_window metrics_wide 0 0 Hbit) as [Hra Hih].
  split; [exact Hra |]. split; [exact Hih |].
  repeat split; vm_compute; reflexivity.
Qed.

(** * Further properties of the code *)

(** ** Worked examples *)

Lemma bytewise_refl a : bytewise a a = 0.
Proof.
  induction a as [| x a IH]; [reflexivity |]. simpl.
  rewrite Z.ltb_irrefl. exact IH.
Qed.

Lemma entries_k_strict i j :
  (i < j)%nat -> (j < length entries_k)%nat ->
  bytewise (e_key (nth i entries_k nil_entry))
           (e_key (nth j entries_k nil_entry)) < 0.
Proof.
  intros Hij Hj. simpl in Hj.
  destruct j as [| [| [| [| [| j]]]]]; try lia;
    destruct i as [| [| [| [| [| i]]]]]; try lia;
    vm_compute; reflexivity.
Qed.

Lemma forallb_is_byte (l : bytes) :
  forallb (fun b => (0 <=? b) && (b <? 256)) l = true -> Forall is_byte l.
Proof.
  intros H. apply List.Forall_forall. intros x Hx.
  rewrite List.forallb_forall in H. specialize (H x Hx).
  apply andb_true_iff in H as [H0 H1].
  apply Z.leb_le in H0. apply Z.ltb_lt in H1. split; assumption.
Qed.

(** [reads_in_buffer] by a scan over the offsets of the entry region. *)
Lemma reads_in_buffer_by_scan d R N :
  forallb (fun b => (0 <=? b) && (b <? 256)) d = true ->
  R + 4 * N <= Z.of_nat (length d) ->
  forallb (fun p => match DecodeEntry d p R with
                    | Some h => h_non_shared h + h_value_length h <? 2 ^ 32
                    | None => true
                    end)
          (map Z.of_nat (seq 0 (Z.to_nat R))) = true ->
  reads_in_buffer d R N.
Proof.
  intros Hbytes Hlen Hscan.
  split; [apply forallb_is_byte; exact Hbytes |]. split; [exact Hlen |].
  intros p h Hp Hdec.
  destruct (Z_lt_le_dec p R) as [Hlt | Hge].
  - pose proof (forallb_range _ _ Hscan p ltac:(lia)) as H.
    cbv beta in H. rewrite Hdec in H. apply Z.ltb_lt in H. exact H.
  - unfold DecodeEntry in Hdec.
    destruct (Z.ltb_spec (R - p) 3); [discriminate | lia].
Qed.

Lemma block_k_reads : reads_in_buffer block_k 29 2.
Proof.
  apply reads_in_buffer_by_scan;
    [vm_compute; reflexivity | vm_compute; discriminate | vm_compute; reflexivity].
Qed.

Lemma block_bad_reads : reads_in_buffer block_bad 12 1.
Proof.
  apply reads_in_buffer_by_scan;
    [vm_compute; reflexivity | vm_compute; discriminate | vm_compute; reflexivity].
Qed.

Lemma metrics_wf_small fn bo nr bpr ms :
  0 <= fn < 2 ^ 64 -> 0 <= bo < 2 ^ 64 ->
  0 <= nr < 2 ^ 32 -> 0 <= bpr < 2 ^ 32 ->
  Z.of_nat (length ms) = BlockMetrics.bitmap_size nr bpr ->
  forallb (fun b => (0 <=? b) && (b <? 256)) ms = true ->
  BlockMetrics.wf (BlockMetrics.mk fn bo nr bpr ms).
Proof.
  intros Hfn Hbo Hnr Hbpr Hlen Hbytes. constructor; cbn; try assumption.
  apply forallb_is_byte. exact Hbytes.
Qed.

Lemma metrics_a_wf : BlockMetrics.wf metrics_a.
Proof. apply metrics_wf_small; try lia; reflexivity. Qed.

Lemma metrics_b_wf : BlockMetrics.wf metrics_b.
Proof. apply metrics_wf_small; try lia; reflexivity. Qed.

Lemma metrics_c_wf : BlockMetrics.wf metrics_c.
Proof. apply metrics_wf_small; try lia; reflexivity. Qed.

Lemma metrics_a_addressable : BlockMetrics.addressable metrics_a.
Proof.
  split; [exact metrics_a_wf |].
  split; [vm_compute; discriminate | reflexivity].
Qed.

(** ** The bitmap of the access metrics *)

Lemma lookup_repeat (x : Z) (n i : nat) :
  (i < n)%nat -> repeat x n !! i = Some x.
Proof.
  revert i. induction n as [| n IH]; intros i Hi; [lia |].
  destruct i as [| i]; [reflexivity |]. simpl. apply IH. lia.
Qed.

Lemma metrics_lookup_byte m i b :
  BlockMetrics.wf m -> BlockMetrics.metrics_ m !! i = Some b -> is_byte b.
Proof.
  intros Hwf Hb. eapply Forall_lookup_1; [apply (BlockMetrics.wf_bytes _ Hwf) |].
  exact Hb.
Qed.

(** Or-ing bit [k] into a byte changes the reading of bit [k'] only when
    [k' = k]. *)
Lemma set_bit_frame b k k' :
  is_byte b -> 0 <= k < 8 -> 0 <= k' < 8 ->
  negb (Z.land (u8 (Z.lor b (Z.shiftl 1 k))) (Z.shiftl 1 k') =? 0)
  = negb (Z.land b (Z.shiftl 1 k') =? 0) || (k' =? k).
Proof.
  intros Hb Hk Hk'.
  pose proof (forallb_range
                (fun b => forallb
                   (fun k => forallb
                      (fun k' =>
                         Bool.eqb
                           (negb (Z.land (u8 (Z.lor b (Z.shiftl 1 k)))
                                         (Z.shiftl 1 k') =? 0))
                           (negb (Z.land b (Z.shiftl 1 k') =? 0) || (k' =? k)))
                      (map Z.of_nat (seq 0 8)))
                   (map Z.of_nat (seq 0 8)))
                256 ltac:(vm_compute; reflexivity) b Hb) as H.
  cbv beta in H.
  pose proof (forallb_range _ 8 H k Hk) as H1. cbv beta in H1.
  pose proof (forallb_range _ 8 H1 k' Hk') as H2. cbv beta in H2.
  apply Bool.eqb_prop in H2. exact H2.
Qed.

Lemma u8_byte b : is_byte b -> u8 b = b.
Proof. intros H. unfold u8. apply Z.mod_small. exact H. Qed.

Lemma u8_is_byte x : is_byte (u8 x).
Proof. unfold is_byte, u8. apply Z.mod_pos_bound. lia. Qed.

(** The or of two bytes is a byte. *)
Lemma lor_byte a b : is_byte a -> is_byte b -> is_byte (Z.lor a b).
Proof.
  intros Ha Hb.
  assert (Z.lor a b = u8 (Z.lor a b)) as ->.
  { rewrite u8_land, Z.land_lor_distr_l, <- !u8_land, !u8_byte by assumption.
    reflexivity. }
  apply u8_is_byte.
Qed.

Lemma land_lor_test a b m :
  negb (Z.land (Z.lor a b) m =? 0)
  = negb (Z.land a m =? 0) || negb (Z.land b m =? 0).
Proof.
  rewrite Z.land_lor_distr_l.
  destruct (Z.eqb_spec (Z.land a m) 0) as [-> | Ha].
  - rewrite Z.lor_0_l. reflexivity.
  - destruct (Z.eqb_spec (Z.lor (Z.land a m) (Z.land b m)) 0) as [H | _];
      [| reflexivity].
    apply Z.lor_eq_0_iff in H. tauto.
Qed.

(** [IsHot] and [RecordAccess] in terms of the slot they address. *)
Lemma IsHot_slot m r s :
  BlockMetrics.IsHot m r s
  = match BlockMetrics.slot m r s with
    | Some (i, k) =>
        match BlockMetrics.metrics_ m !! Z.to_nat i with
        | Some b => Some (negb (Z.land b (Z.shiftl 1 k) =? 0))
        | None => None
        end
    | None => None
    end.
Proof.
  unfold BlockMetrics.IsHot, BlockMetrics.slot.
  destruct (BlockMetrics.bit_index (BlockMetrics.bytes_per_restart_ m) s);
    reflexivity.
Qed.

Lemma RecordAccess_slot m r s :
  BlockMetrics.RecordAccess m r s
  = match BlockMetrics.slot m r s with
    | Some (i, k) =>
        match BlockMetrics.metrics_ m !! Z.to_nat i with
        | Some b =>
            Some (BlockMetrics.mk
                    (BlockMetrics.file_number_ m) (BlockMetrics.block_offset_ m)
                    (BlockMetrics.num_restarts_ m)
                    (BlockMetrics.bytes_per_restart_ m)
                    (<[Z.to_nat i := u8 (Z.lor b (Z.shiftl 1 k))]>
                       (BlockMetrics.metrics_ m)))
        | None => None
        end
    | None => None
    end.
Proof.
  unfold BlockMetrics.RecordAccess, BlockMetrics.slot.
  destruct (BlockMetrics.bit_index (BlockMetrics.bytes_per_restart_ m) s);
    reflexivity.
Qed.

(** The slot of a pair below [num_restarts_] lies in the bitmap. *)
Lemma slot_in_bitmap m r s :
  BlockMetrics.addressable m ->
  0 <= r < BlockMetrics.num_restarts_ m -> 0 <= s ->
  exists i k b,
    BlockMetrics.slot m r s = Some (i, k)
    /\ 0 <= i < Z.of_nat (length (BlockMetrics.metrics_ m))
    /\ 0 <= k < 8
    /\ BlockMetrics.metrics_ m !! Z.to_nat i = Some b
    /\ is_byte b.
Proof.
  intros (Hwf & Hw & Hsize) Hr Hs.
  pose proof Hwf as [_ _ Hnr Hbpr Hlen Hbytes].
  destruct (metrics_index_in_bounds _ _ r s (proj1 Hbpr) Hw Hsize Hr Hs)
    as (bitIdx & Hbit & _ & Hk & Hbyte & Hin).
  unfold BlockMetrics.bitmap_size in Hlen.
  rewrite u32_small in Hlen by nia.
  unfold bytes in *.
  destruct (lookup_lt_is_Some_2 (BlockMetrics.metrics_ m)
              (Z.to_nat (r * BlockMetrics.bytes_per_restart_ m + bitIdx / 8))
              ltac:(lia)) as [b Hb].
  exists (r * BlockMetrics.bytes_per_restart_ m + bitIdx / 8), (bitIdx mod 8), b.
  unfold BlockMetrics.slot. rewrite Hbit. cbn [mbind option_bind].
  rewrite Hbyte.
  split; [reflexivity |]. split; [lia |]. split; [exact Hk |].
  split; [exact Hb |]. eapply metrics_lookup_byte; eauto.
Qed.

(** What [RecordAccess] keeps: the header fields, the bitmap length and
    with them what the constructors establish. *)
Lemma RecordAccess_keeps m r s m' :
  BlockMetrics.RecordAccess m r s = Some m' ->
  BlockMetrics.file_number_ m' = BlockMetrics.file_number_ m
  /\ BlockMetrics.block_offset_ m' = BlockMetrics.block_offset_ m
  /\ BlockMetrics.num_restarts_ m' = BlockMetrics.num_restarts_ m
  /\ BlockMetrics.bytes_per_restart_ m' = BlockMetrics.bytes_per_restart_ m
  /\ length (BlockMetrics.metrics_ m') = length (BlockMetrics.metrics_ m)
  /\ (BlockMetrics.wf m -> BlockMetrics.wf m')
  /\ (BlockMetrics.addressable m -> BlockMetrics.addressable m').
Proof.
  rewrite RecordAccess_slot.
  destruct (BlockMetrics.slot m r s) as [[i k] |]; [| discriminate].
  destruct (BlockMetrics.metrics_ m !! Z.to_nat i) as [b |]; [| discriminate].
  intros [= <-]. cbn.
  assert (BlockMetrics.wf m ->
          BlockMetrics.wf
            (BlockMetrics.mk
               (BlockMetrics.file_number_ m) (BlockMetrics.block_offset_ m)
               (BlockMetrics.num_restarts_ m) (BlockMetrics.bytes_per_restart_ m)
               (<[Z.to_nat i := u8 (Z.lor b (Z.shiftl 1 k))]>
                  (BlockMetrics.metrics_ m)))) as Hkeep.
  { intros [H1 H2 H3 H4 H5 H6]. constructor; cbn; try assumption.
    - unfold bytes in *. rewrite length_insert. exact H5.
    - apply Forall_insert; [exact H6 | apply u8_is_byte]. }
  repeat (split; [reflexivity |]).
  split; [unfold bytes; apply length_insert |].
  split; [exact Hkeep |].
  intros (Hwf & Hw & Hsize). split; [apply Hkeep; exact Hwf |]. cbn. auto.
Qed.

(** [RecordAccess] sets the bit of its slot and leaves every other bit
    as it was. *)
Lemma RecordAccess_frame m r s m' r' s' :
  BlockMetrics.addressable m ->
  0 <= r < BlockMetrics.num_restarts_ m -> 0 <= s ->
  0 <= r' < BlockMetrics.num_restarts_ m -> 0 <= s' ->
  BlockMetrics.RecordAccess m r s = Some m' ->
  exists h,
    BlockMetrics.IsHot m r' s' = Some h
    /\ BlockMetrics.IsHot m' r' s'
       = Some (h || bool_decide (BlockMetrics.slot m r' s'
                                 = BlockMetrics.slot m r s)).
Proof.
  intros Hm Hr Hs Hr' Hs' Hrec.
  destruct (slot_in_bitmap m r s Hm Hr Hs) as (i & k & b & Hsl & Hi & Hk & Hb & Hbb).
  destruct (slot_in_bitmap m r' s' Hm Hr' Hs')
    as (i' & k' & b' & Hsl' & Hi' & Hk' & Hb' & Hbb').
  assert (BlockMetrics.slot m' r' s' = BlockMetrics.slot m r' s') as Hsame.
  { unfold BlockMetrics.slot.
    destruct (RecordAccess_keeps m r s m' Hrec) as (_ & _ & _ & -> & _).
    reflexivity. }
  rewrite RecordAccess_slot, Hsl, Hb in Hrec. injection Hrec as <-.
  exists (negb (Z.land b' (Z.shiftl 1 k') =? 0)).
  rewrite !IsHot_slot, Hsame, Hsl', Hsl, Hb'. cbn [BlockMetrics.metrics_].
  split; [reflexivity |].
  unfold bytes in *.
  destruct (Z.eq_dec i' i) as [-> | Hne].
  - rewrite list_lookup_insert_eq by lia.
    assert (b' = b) as -> by congruence.
    rewrite set_bit_frame by assumption.
    do 2 f_equal.
    destruct (Z.eqb_spec k' k) as [-> | Hk'k].
    + symmetry. apply bool_decide_eq_true. reflexivity.
    + symmetry. apply bool_decide_eq_false. congruence.
  - rewrite list_lookup_insert_ne by lia. rewrite Hb'.
    rewrite (bool_decide_eq_false_2 _); [rewrite orb_false_r; reflexivity |].
    congruence.
Qed.

(** X1.  [RecordAccess] sets exactly one bit.  For addressable metrics
    and pairs of a restart index below [num_restarts_] and a restart
    offset: after [RecordAccess(r, s)] a pair [(r', s')] is hot exactly
    when it was hot before or addresses the same bit as [(r, s)]. *)
Theorem RecordAccess_sets_exactly_one_bit
        (m m' : BlockMetrics.t) (r s r' s' : Z) :
  BlockMetrics.addressable m ->
  0 <= r < BlockMetrics.num_restarts_ m -> 0 <= s ->
  0 <= r' < BlockMetrics.num_restarts_ m -> 0 <= s' ->
  BlockMetrics.RecordAccess m r s = Some m' ->
  exists h,
    BlockMetrics.IsHot m r' s' = Some h
    /\ BlockMetrics.IsHot m' r' s'
       = Some (h || bool_decide (BlockMetrics.slot m r' s'
                                 = BlockMetrics.slot m r s)).
Proof. apply RecordAccess_frame. Qed.

Lemma RecordAccess_sets_exactly_one_bit_witness :
  BlockMetrics.addressable metrics_a
  /\ BlockMetrics.RecordAccess metrics_a 0 9 = Some (BlockMetrics.mk 1 7 1 2 [1; 2])
  /\ exists h,
      BlockMetrics.IsHot metrics_a 0 16 = Some h
      /\ BlockMetrics.IsHot (BlockMetrics.mk 1 7 1 2 [1; 2]) 0 16
         = Some (h || bool_decide (BlockMetrics.slot metrics_a 0 16
                                   = BlockMetrics.slot metrics_a 0 9)).
Proof.
  split; [exact metrics_a_addressable |].
  split; [vm_compute; reflexivity |].
  apply (RecordAccess_sets_exactly_one_bit metrics_a
           (BlockMetrics.mk 1 7 1 2 [1; 2]) 0 9 0 16 metrics_a_addressable).
  - simpl. lia.
  - lia.
  - simpl. lia.
  - lia.
  - vm_compute; reflexivity.
Defined.

(** X2.  [RecordAccess] changes nothing but one bitmap byte: file
    number, block offset, restart count and bytes per restart are kept,
    so the result is compatible with the original and has the same
    database key, the bitmap keeps its length, and what the
    constructors establish still holds. *)
Theorem RecordAccess_keeps_invariants (m m' : BlockMetrics.t) (r s : Z) :
  BlockMetrics.RecordAccess m r s = Some m' ->
  BlockMetrics.IsCompatible m (Some m') = true
  /\ BlockMetrics.GetDBKey m' = BlockMetrics.GetDBKey m
  /\ length (BlockMetrics.metrics_ m') = length (BlockMetrics.metrics_ m)
  /\ (BlockMetrics.wf m -> BlockMetrics.wf m').
Proof.
  intros Hrec.
  destruct (RecordAccess_keeps m r s m' Hrec)
    as (Hfn & Hbo & Hnr & Hbpr & Hlen & Hwf & _).
  split; [| split; [| split; [exact Hlen | exact Hwf]]].
  - unfold BlockMetrics.IsCompatible.
    rewrite Hfn, Hbo, Hnr, Hbpr, !Z.eqb_refl. reflexivity.
  - unfold BlockMetrics.GetDBKey. rewrite Hfn, Hbpr. reflexivity.
Qed.

Lemma RecordAccess_keeps_invariants_witness :
  BlockMetrics.RecordAccess metrics_a 0 9 = Some (BlockMetrics.mk 1 7 1 2 [1; 2])
  /\ BlockMetrics.IsCompatible metrics_a (Some (BlockMetrics.mk 1 7 1 2 [1; 2]))
     = true
  /\ BlockMetrics.GetDBKey (BlockMetrics.mk 1 7 1 2 [1; 2])
     = BlockMetrics.GetDBKey metrics_a
  /\ length (BlockMetrics.metrics_ (BlockMetrics.mk 1 7 1 2 [1; 2]))
     = length (BlockMetrics.metrics_ metrics_a)
  /\ (BlockMetrics.wf metrics_a -> BlockMetrics.wf (BlockMetrics.mk 1 7 1 2 [1; 2])).
Proof.
  split; [vm_compute; reflexivity |].
  apply (RecordAccess_keeps_invariants metrics_a
           (BlockMetrics.mk 1 7 1 2 [1; 2]) 0 9).
  vm_compute; reflexivity.
Defined.

(** X3.  [RecordAccess] is idempotent: on metrics as the constructors
    build them, recording an access that has just been recorded
    returns and changes nothing. *)
Theorem RecordAccess_is_idempotent
        (m : BlockMetrics.t) (r s : Z) (m' : BlockMetrics.t) :
  BlockMetrics.wf m ->
  BlockMetrics.RecordAccess m r s = Some m' ->
  BlockMetrics.RecordAccess m' r s = Some m'.
Proof.
  intros Hwf Hrec.
  assert (BlockMetrics.slot m' r s = BlockMetrics.slot m r s) as Hsame.
  { unfold BlockMetrics.slot.
    destruct (RecordAccess_keeps m r s m' Hrec) as (_ & _ & _ & -> & _).
    reflexivity. }
  rewrite RecordAccess_slot in Hrec. rewrite RecordAccess_slot, Hsame.
  destruct (BlockMetrics.slot m r s) as [[i k] |] eqn:Hsl; [| discriminate].
  destruct (BlockMetrics.metrics_ m !! Z.to_nat i) as [b |] eqn:Hb;
    [| discriminate].
  injection Hrec as <-. cbn.
  unfold bytes in *.
  rewrite list_lookup_insert_eq by (eapply lookup_lt_Some; exact Hb).
  rewrite list_insert_insert_eq.
  assert (0 <= k < 8) as Hk.
  { unfold BlockMetrics.slot in Hsl.
    destruct (BlockMetrics.bit_index (BlockMetrics.bytes_per_restart_ m) s)
      as [bitIdx |]; [| discriminate].
    injection Hsl as _ <-. apply Z.mod_pos_bound. lia. }
  pose proof (metrics_lookup_byte m _ b Hwf Hb) as Hbb.
  assert (is_byte (Z.shiftl 1 k)) as Hbit.
  { unfold is_byte. rewrite Z.shiftl_1_l. split; [lia |].
    change 256 with (2 ^ 8). apply Z.pow_lt_mono_r; lia. }
  rewrite (u8_byte (Z.lor b (Z.shiftl 1 k))) by (apply lor_byte; assumption).
  rewrite <- Z.lor_assoc, Z.lor_diag.
  rewrite (u8_byte (Z.lor b (Z.shiftl 1 k))) by (apply lor_byte; assumption).
  reflexivity.
Qed.

Lemma RecordAccess_is_idempotent_witness :
  BlockMetrics.wf metrics_a
  /\ BlockMetrics.RecordAccess metrics_a 0 9
     = Some (BlockMetrics.mk 1 7 1 2 [1; 2])
  /\ BlockMetrics.RecordAccess (BlockMetrics.mk 1 7 1 2 [1; 2]) 0 9
     = Some (BlockMetrics.mk 1 7 1 2 [1; 2]).
Proof.
  split; [exact metrics_a_wf |].
  split; [vm_compute; reflexivity |].
  apply (RecordAccess_is_idempotent metrics_a 0 9
           (BlockMetrics.mk 1 7 1 2 [1; 2]) metrics_a_wf).
  vm_compute; reflexivity.
Defined.

(** X4.  The zero-initialising constructor builds metrics with no hot
    slot: for 64-bit file number and block offset, 32-bit restart count
    and bytes per restart, a non-zero 32-bit window
    [bytes_per_restart * 8] and a bitmap size that does not wrap, the
    metrics are addressable and [IsHot] returns false for every
    restart index below the restart count and every restart offset. *)
Theorem fresh_metrics_are_cold (fn bo nr bpr r s : Z) :
  0 <= fn < 2 ^ 64 -> 0 <= bo < 2 ^ 64 ->
  0 <= nr < 2 ^ 32 -> 0 <= bpr < 2 ^ 32 ->
  u32 (bpr * 8) <> 0 -> nr * bpr < 2 ^ 32 ->
  0 <= r < nr -> 0 <= s ->
  BlockMetrics.addressable (BlockMetrics.new fn bo nr bpr)
  /\ BlockMetrics.IsHot (BlockMetrics.new fn bo nr bpr) r s = Some false.
Proof.
  intros Hfn Hbo Hnr Hbpr Hw Hsize Hr Hs.
  assert (BlockMetrics.addressable (BlockMetrics.new fn bo nr bpr)) as Hm.
  { split; [apply BlockMetrics_new_wf; assumption |]. cbn. auto. }
  split; [exact Hm |].
  destruct (slot_in_bitmap _ r s Hm Hr Hs) as (i & k & b & Hsl & Hi & Hk & Hb & _).
  rewrite IsHot_slot, Hsl, Hb.
  cbn [BlockMetrics.new BlockMetrics.metrics_] in Hb, Hi.
  rewrite List.repeat_length in Hi.
  unfold bytes in *. rewrite lookup_repeat in Hb by lia.
  injection Hb as <-. reflexivity.
Qed.

Lemma fresh_metrics_are_cold_witness :
  BlockMetrics.addressable (BlockMetrics.new 1 7 2 2)
  /\ BlockMetrics.IsHot (BlockMetrics.new 1 7 2 2) 1 17 = Some false.
Proof.
  apply (fresh_metrics_are_cold 1 7 2 2 1 17).
  - lia.
  - lia.
  - lia.
  - lia.
  - vm_compute; discriminate.
  - lia.
  - lia.
  - lia.
Defined.

(** ** Join *)

Lemma IsCompatible_fields a b :
  BlockMetrics.IsCompatible a (Some b) = true ->
  BlockMetrics.num_restarts_ b = BlockMetrics.num_restarts_ a
  /\ BlockMetrics.bytes_per_restart_ b = BlockMetrics.bytes_per_restart_ a
  /\ BlockMetrics.file_number_ b = BlockMetrics.file_number_ a
  /\ BlockMetrics.block_offset_ b = BlockMetrics.block_offset_ a.
Proof.
  unfold BlockMetrics.IsCompatible. rewrite !andb_true_iff, !Z.eqb_eq. tauto.
Qed.

Lemma IsCompatible_sym a b :
  BlockMetrics.IsCompatible a (Some b) = BlockMetrics.IsCompatible b (Some a).
Proof.
  unfold BlockMetrics.IsCompatible.
  rewrite (Z.eqb_sym (BlockMetrics.num_restarts_ b)),
    (Z.eqb_sym (BlockMetrics.bytes_per_restart_ b)),
    (Z.eqb_sym (BlockMetrics.file_number_ b)),
    (Z.eqb_sym (BlockMetrics.block_offset_ b)).
  reflexivity.
Qed.

Lemma IsCompatible_refl a : BlockMetrics.IsCompatible a (Some a) = true.
Proof. unfold BlockMetrics.IsCompatible. rewrite !Z.eqb_refl. reflexivity. Qed.

(** The loop of [Join] ors the bytes of the range it runs over and
    leaves the others. *)
Lemma Join_loop_spec count :
  forall i (ms bs : list Z),
    (i + count <= length ms)%nat -> (i + count <= length bs)%nat ->
    exists l,
      BlockMetrics.Join_loop count i ms bs = Some l
      /\ length l = length ms
      /\ (forall k x y, (i <= k < i + count)%nat ->
                        ms !! k = Some x -> bs !! k = Some y ->
                        l !! k = Some (u8 (Z.lor x y)))
      /\ (forall k, ~ (i <= k < i + count)%nat -> l !! k = ms !! k).
Proof.
  induction count as [| count IH]; intros i ms bs Hms Hbs.
  - exists ms. split; [reflexivity |]. split; [reflexivity |].
    split; [intros; lia | reflexivity].
  - cbn [BlockMetrics.Join_loop]. unfold bytes.
    destruct (lookup_lt_is_Some_2 ms i ltac:(lia)) as [a Ha].
    destruct (lookup_lt_is_Some_2 bs i ltac:(lia)) as [b Hb].
    rewrite Ha, Hb. cbn [mbind option_bind].
    destruct (IH (S i) (<[i := u8 (Z.lor a b)]> ms) bs)
      as (l & Hl & Hlen & Hin & Hout).
    { rewrite length_insert. lia. }
    { lia. }
    rewrite length_insert in Hlen.
    exists l. split; [exact Hl |]. split; [exact Hlen |]. split.
    + intros k x y Hk Hx Hy.
      destruct (Nat.eq_dec k i) as [-> | Hne].
      * rewrite Hout by lia.
        rewrite list_lookup_insert_eq by lia. congruence.
      * apply Hin; [lia | | exact Hy].
        rewrite list_lookup_insert_ne by lia. exact Hx.
    + intros k Hk. rewrite Hout by lia.
      apply list_lookup_insert_ne. lia.
Qed.

(** [Join] of compatible metrics returns; the result has the header of
    the receiver and the bytewise or of the two bitmaps. *)
Lemma Join_spec a b :
  BlockMetrics.wf a -> BlockMetrics.wf b ->
  BlockMetrics.IsCompatible a (Some b) = true ->
  exists c,
    BlockMetrics.Join a (Some b) = Some c
    /\ BlockMetrics.file_number_ c = BlockMetrics.file_number_ a
    /\ BlockMetrics.block_offset_ c = BlockMetrics.block_offset_ a
    /\ BlockMetrics.num_restarts_ c = BlockMetrics.num_restarts_ a
    /\ BlockMetrics.bytes_per_restart_ c = BlockMetrics.bytes_per_restart_ a
    /\ length (BlockMetrics.metrics_ c) = length (BlockMetrics.metrics_ a)
    /\ (forall k x y,
           BlockMetrics.metrics_ a !! k = Some x ->
           BlockMetrics.metrics_ b !! k = Some y ->
           BlockMetrics.metrics_ c !! k = Some (Z.lor x y))
    /\ BlockMetrics.wf c.
Proof.
  intros Ha Hb Hc.
  destruct (IsCompatible_fields a b Hc) as (Hnr & Hbpr & _ & _).
  pose proof (BlockMetrics.wf_length _ Ha) as Hla.
  pose proof (BlockMetrics.wf_length _ Hb) as Hlb.
  rewrite Hnr, Hbpr in Hlb.
  destruct (Join_loop_spec
              (Z.to_nat (BlockMetrics.bitmap_size (BlockMetrics.num_restarts_ a)
                           (BlockMetrics.bytes_per_restart_ a)))
              0 (BlockMetrics.metrics_ a) (BlockMetrics.metrics_ b))
    as (l & Hl & Hlen & Hin & _); [lia | lia |].
  unfold BlockMetrics.Join. rewrite Hc, Hl. cbn [mbind option_bind].
  eexists. split; [reflexivity |]. cbn.
  repeat (split; [reflexivity |]).
  split; [exact Hlen |].
  assert (forall k x y,
             BlockMetrics.metrics_ a !! k = Some x ->
             BlockMetrics.metrics_ b !! k = Some y ->
             l !! k = Some (Z.lor x y)) as Hor.
  { intros k x y Hx Hy.
    rewrite (Hin k x y); [| | exact Hx | exact Hy].
    - rewrite u8_byte; [reflexivity |].
      apply lor_byte;
        [exact (metrics_lookup_byte a k x Ha Hx)
        | exact (metrics_lookup_byte b k y Hb Hy)].
    - apply lookup_lt_Some in Hx. unfold bytes in *. lia. }
  split; [exact Hor |].
  destruct Ha as [H1 H2 H3 H4 H5 H6].
  constructor; cbn; try assumption.
  - unfold bytes in *. rewrite Hlen. exact H5.
  - apply Forall_lookup. intros k z Hz.
    pose proof (lookup_lt_Some _ _ _ Hz) as Hk. unfold bytes in *.
    destruct (lookup_lt_is_Some_2 (BlockMetrics.metrics_ a) k ltac:(lia))
      as [x Hx].
    destruct (lookup_lt_is_Some_2 (BlockMetrics.metrics_ b) k ltac:(lia))
      as [y Hy].
    rewrite (Hor k x y Hx Hy) in Hz. injection Hz as <-.
    apply lor_byte.
    + eapply Forall_lookup_1; [exact H6 | exact Hx].
    + eapply Forall_lookup_1; [apply (BlockMetrics.wf_bytes _ Hb) | exact Hy].
Qed.

(** Two metrics with the same header and the same bitmap bytes are the
    same. *)
Lemma metrics_eq c c' :
  BlockMetrics.file_number_ c = BlockMetrics.file_number_ c' ->
  BlockMetrics.block_offset_ c = BlockMetrics.block_offset_ c' ->
  BlockMetrics.num_restarts_ c = BlockMetrics.num_restarts_ c' ->
  BlockMetrics.bytes_per_restart_ c = BlockMetrics.bytes_per_restart_ c' ->
  length (BlockMetrics.metrics_ c) = length (BlockMetrics.metrics_ c') ->
  (forall k x y, BlockMetrics.metrics_ c !! k = Some x ->
                 BlockMetrics.metrics_ c' !! k = Some y -> x = y) ->
  c = c'.
Proof.
  destruct c as [f o n p ms], c' as [f' o' n' p' ms']. cbn.
  intros -> -> -> -> Hlen Hbytes. f_equal.
  apply list_eq. intros k. unfold bytes in *.
  destruct (ms !! k) as [x |] eqn:Hx.
  - destruct (lookup_lt_is_Some_2 ms' k) as [y Hy].
    { apply lookup_lt_Some in Hx. lia. }
    rewrite Hy. f_equal. eapply Hbytes; eauto.
  - symmetry. apply lookup_ge_None. apply lookup_ge_None in Hx. lia.
Qed.

(** X5.  [Join] is commutative: for metrics as the constructors build
    them, [a.Join(b)] and [b.Join(a)] leave the same metrics in the
    receiver, or both fail the compatibility assertion. *)
Theorem Join_commutative (a b : BlockMetrics.t) :
  BlockMetrics.wf a -> BlockMetrics.wf b ->
  BlockMetrics.Join a (Some b) = BlockMetrics.Join b (Some a).
Proof.
  intros Ha Hb.
  destruct (BlockMetrics.IsCompatible a (Some b)) eqn:Hc.
  - pose proof Hc as Hc'. rewrite IsCompatible_sym in Hc'.
    destruct (IsCompatible_fields a b Hc) as (Hnr & Hbpr & Hfn & Hbo).
    destruct (Join_spec a b Ha Hb Hc)
      as (c & -> & H1 & H2 & H3 & H4 & H5 & H6 & _).
    destruct (Join_spec b a Hb Ha Hc')
      as (c' & -> & H1' & H2' & H3' & H4' & H5' & H6' & _).
    f_equal. apply metrics_eq; try congruence.
    + pose proof (BlockMetrics.wf_length _ Ha).
      pose proof (BlockMetrics.wf_length _ Hb). unfold bytes in *.
      apply Nat2Z.inj. congruence.
    + intros k z z' Hz Hz'. unfold bytes in *.
      pose proof (BlockMetrics.wf_length _ Ha) as Hla.
      pose proof (BlockMetrics.wf_length _ Hb) as Hlb.
      rewrite Hnr, Hbpr in Hlb.
      pose proof (lookup_lt_Some _ _ _ Hz) as Hk.
      destruct (lookup_lt_is_Some_2 (BlockMetrics.metrics_ a) k ltac:(lia))
        as [x Hx].
      destruct (lookup_lt_is_Some_2 (BlockMetrics.metrics_ b) k ltac:(lia))
        as [y Hy].
      rewrite (H6 k x y Hx Hy) in Hz. rewrite (H6' k y x Hy Hx) in Hz'.
      rewrite Z.lor_comm in Hz'. congruence.
  - pose proof Hc as Hc'. rewrite IsCompatible_sym in Hc'.
    unfold BlockMetrics.Join. rewrite Hc, Hc'. reflexivity.
Qed.

Lemma Join_commutative_witness :
  BlockMetrics.wf metrics_a /\ BlockMetrics.wf metrics_b
  /\ BlockMetrics.Join metrics_a (Some metrics_b)
     = BlockMetrics.Join metrics_b (Some metrics_a).
Proof.
  split; [exact metrics_a_wf |]. split; [exact metrics_b_wf |].
  apply (Join_commutative metrics_a metrics_b metrics_a_wf metrics_b_wf).
Defined.

(** X6.  [Join] is idempotent: joining metrics as the constructors
    build them with themselves returns and changes nothing. *)
Theorem Join_idempotent (a : BlockMetrics.t) :
  BlockMetrics.wf a -> BlockMetrics.Join a (Some a) = Some a.
Proof.
  intros Ha.
  destruct (Join_spec a a Ha Ha (IsCompatible_refl a))
    as (c & -> & H1 & H2 & H3 & H4 & H5 & H6 & _).
  f_equal. apply metrics_eq; try assumption.
  intros k z x Hz Hx. rewrite (H6 k x x Hx Hx), Z.lor_diag in Hz. congruence.
Qed.

Lemma Join_idempotent_witness :
  BlockMetrics.wf metrics_b
  /\ BlockMetrics.Join metrics_b (Some metrics_b) = Some metrics_b.
Proof.
  split; [exact metrics_b_wf |].
  apply (Join_idempotent metrics_b metrics_b_wf).
Defined.

(** X7.  [Join] is associative: for pairwise compatible metrics as the
    constructors build them, joining [b] and then [c] into [a] gives
    the same metrics as joining into [a] the join of [c] into [b]; all
    four joins return. *)
Theorem Join_associative (a b c : BlockMetrics.t) :
  BlockMetrics.wf a -> BlockMetrics.wf b -> BlockMetrics.wf c ->
  BlockMetrics.IsCompatible a (Some b) = true ->
  BlockMetrics.IsCompatible b (Some c) = true ->
  exists ab bc abc,
    BlockMetrics.Join a (Some b) = Some ab
    /\ BlockMetrics.Join b (Some c) = Some bc
    /\ BlockMetrics.Join ab (Some c) = Some abc
    /\ BlockMetrics.Join a (Some bc) = Some abc.
Proof.
  intros Ha Hb Hc Hab Hbc.
  destruct (IsCompatible_fields a b Hab) as (Hnr & Hbpr & Hfn & Hbo).
  destruct (IsCompatible_fields b c Hbc) as (Hnr' & Hbpr' & Hfn' & Hbo').
  destruct (Join_spec a b Ha Hb Hab)
    as (ab & Jab & A1 & A2 & A3 & A4 & A5 & A6 & Wab).
  destruct (Join_spec b c Hb Hc Hbc)
    as (bc & Jbc & B1 & B2 & B3 & B4 & B5 & B6 & Wbc).
  assert (BlockMetrics.IsCompatible ab (Some c) = true) as Habc.
  { unfold BlockMetrics.IsCompatible.
    rewrite A1, A2, A3, A4, Hnr', Hbpr', Hfn', Hbo', Hnr, Hbpr, Hfn, Hbo.
    rewrite !Z.eqb_refl. reflexivity. }
  assert (BlockMetrics.IsCompatible a (Some bc) = true) as Habc'.
  { unfold BlockMetrics.IsCompatible.
    rewrite B1, B2, B3, B4, Hnr, Hbpr, Hfn, Hbo.
    rewrite !Z.eqb_refl. reflexivity. }
  destruct (Join_spec ab c Wab Hc Habc)
    as (x & Jx & X1 & X2 & X3 & X4 & X5 & X6 & _).
  destruct (Join_spec a bc Ha Wbc Habc')
    as (y & Jy & Y1 & Y2 & Y3 & Y4 & Y5 & Y6 & _).
  exists ab, bc, x. repeat (split; [assumption |]).
  rewrite Jy. f_equal. apply metrics_eq; try congruence.
  intros k z z' Hz Hz'. unfold bytes in *.
  pose proof (BlockMetrics.wf_length _ Ha) as Hla.
  pose proof (BlockMetrics.wf_length _ Hb) as Hlb.
  pose proof (BlockMetrics.wf_length _ Hc) as Hlc.
  rewrite Hnr', Hbpr', Hnr, Hbpr in Hlc. rewrite Hnr, Hbpr in Hlb.
  pose proof (lookup_lt_Some _ _ _ Hz) as Hk.
  destruct (lookup_lt_is_Some_2 (BlockMetrics.metrics_ a) k ltac:(lia))
    as [xa Hxa].
  destruct (lookup_lt_is_Some_2 (BlockMetrics.metrics_ b) k ltac:(lia))
    as [xb Hxb].
  destruct (lookup_lt_is_Some_2 (BlockMetrics.metrics_ c) k ltac:(lia))
    as [xc Hxc].
  rewrite (Y6 k xa _ Hxa (B6 k xb xc Hxb Hxc)) in Hz.
  rewrite (X6 k _ xc (A6 k xa xb Hxa Hxb) Hxc) in Hz'.
  rewrite Z.lor_assoc in Hz. congruence.
Qed.

Lemma Join_associative_witness :
  exists ab bc abc,
    BlockMetrics.Join metrics_a (Some metrics_b) = Some ab
    /\ BlockMetrics.Join metrics_b (Some metrics_c) = Some bc
    /\ BlockMetrics.Join ab (Some metrics_c) = Some abc
    /\ BlockMetrics.Join metrics_a (Some bc) = Some abc.
Proof.
  apply (Join_associative metrics_a metrics_b metrics_c
           metrics_a_wf metrics_b_wf metrics_c_wf).
  - reflexivity.
  - reflexivity.
Defined.

(** X8.  [Join] is the union of the hot slots.  For addressable metrics
    [a] and compatible metrics [b] as the constructors build them,
    [a.Join(b)] returns, and a pair of a restart index below the
    restart count and a restart offset is hot in the result exactly
    when it is hot in [a] or in [b]. *)
Theorem Join_is_union_of_hot_slots (a b : BlockMetrics.t) (r s : Z) :
  BlockMetrics.addressable a -> BlockMetrics.wf b ->
  BlockMetrics.IsCompatible a (Some b) = true ->
  0 <= r < BlockMetrics.num_restarts_ a -> 0 <= s ->
  exists c ha hb,
    BlockMetrics.Join a (Some b) = Some c
    /\ BlockMetrics.IsHot a r s = Some ha
    /\ BlockMetrics.IsHot b r s = Some hb
    /\ BlockMetrics.IsHot c r s = Some (ha || hb).
Proof.
  intros Hm Hb Hc Hr Hs. pose proof Hm as (Ha & _).
  destruct (IsCompatible_fields a b Hc) as (Hnr & Hbpr & _ & _).
  destruct (Join_spec a b Ha Hb Hc)
    as (c & Jc & _ & _ & _ & C4 & _ & C6 & _).
  destruct (slot_in_bitmap a r s Hm Hr Hs) as (i & k & x & Hsl & Hi & Hk & Hx & _).
  pose proof (BlockMetrics.wf_length _ Ha) as Hla.
  pose proof (BlockMetrics.wf_length _ Hb) as Hlb.
  rewrite Hnr, Hbpr in Hlb. unfold bytes in *.
  destruct (lookup_lt_is_Some_2 (BlockMetrics.metrics_ b) (Z.to_nat i)
              ltac:(lia)) as [y Hy].
  exists c, (negb (Z.land x (Z.shiftl 1 k) =? 0)),
    (negb (Z.land y (Z.shiftl 1 k) =? 0)).
  split; [exact Jc |].
  assert (BlockMetrics.slot b r s = Some (i, k)) as Hslb
      by (unfold BlockMetrics.slot in *; rewrite Hbpr; exact Hsl).
  assert (BlockMetrics.slot c r s = Some (i, k)) as Hslc
      by (unfold BlockMetrics.slot in *; rewrite C4; exact Hsl).
  rewrite !IsHot_slot, Hsl, Hslb, Hslc. unfold bytes in *.
  rewrite Hx, Hy, (C6 _ x y Hx Hy), land_lor_test. auto.
Qed.

Lemma Join_is_union_of_hot_slots_witness :
  BlockMetrics.addressable metrics_a /\ BlockMetrics.wf metrics_b
  /\ BlockMetrics.IsCompatible metrics_a (Some metrics_b) = true
  /\ exists c ha hb,
      BlockMetrics.Join metrics_a (Some metrics_b) = Some c
      /\ BlockMetrics.IsHot metrics_a 0 2 = Some ha
      /\ BlockMetrics.IsHot metrics_b 0 2 = Some hb
      /\ BlockMetrics.IsHot c 0 2 = Some (ha || hb).
Proof.
  split; [exact metrics_a_addressable |].
  split; [exact metrics_b_wf |].
  split; [reflexivity |].
  apply (Join_is_union_of_hot_slots metrics_a metrics_b 0 2
           metrics_a_addressable metrics_b_wf).
  - reflexivity.
  - simpl. lia.
  - lia.
Defined.

(** X9.  On metrics as the constructors build them, [Join] fails only
    on its assertion: it returns exactly when its argument is
    compatible (in particular not NULL); the loop over the bitmaps
    never leaves them. *)
Theorem Join_returns_iff_compatible
        (a : BlockMetrics.t) (bm : option BlockMetrics.t) :
  BlockMetrics.wf a ->
  (forall b, bm = Some b -> BlockMetrics.wf b) ->
  (is_Some (BlockMetrics.Join a bm) <-> BlockMetrics.IsCompatible a bm = true).
Proof.
  intros Ha Hb. destruct bm as [b |].
  - split.
    + intros [c Hc]. unfold BlockMetrics.Join in Hc.
      destruct (BlockMetrics.IsCompatible a (Some b)); [reflexivity | discriminate].
    + intros Hc.
      destruct (Join_spec a b Ha (Hb b eq_refl) Hc) as (c & Hj & _).
      exists c. exact Hj.
  - split; [intros [c Hc]; discriminate | discriminate].
Qed.

Lemma Join_returns_iff_compatible_witness :
  BlockMetrics.wf metrics_a
  /\ (is_Some (BlockMetrics.Join metrics_a (Some metrics_b))
      <-> BlockMetrics.IsCompatible metrics_a (Some metrics_b) = true).
Proof.
  split; [exact metrics_a_wf |].
  apply (Join_returns_iff_compatible metrics_a (Some metrics_b) metrics_a_wf).
  intros b [= <-]. exact metrics_b_wf.
Defined.

(** ** Create and the two constructors *)




(** X11.  [Create] reads back what [GetDBValue] wrote: for metrics as
    the constructors build them, [Create] applied to their file number,
    their block offset and their [GetDBValue] returns the same
    metrics, every field and the bitmap. *)
Theorem Create_reads_back_GetDBValue (m : BlockMetrics.t) :
  BlockMetrics.wf m ->
  BlockMetrics.Create (BlockMetrics.file_number_ m)
                      (BlockMetrics.block_offset_ m)
                      (BlockMetrics.GetDBValue m)
  = Some (Some m).
Proof.
  intros [_ _ Hnr Hbpr Hlen _].
  unfold BlockMetrics.Create, BlockMetrics.GetDBValue.
  rewrite GetVarint32_PutVarint32 by exact Hnr.
  rewrite GetVarint32_PutVarint32 by exact Hbpr.
  rewrite List.firstn_all2 by lia.
  unfold BlockMetrics.new_from_data.
  rewrite Hlen, Z.eqb_refl. destruct m. reflexivity.
Qed.

Lemma Create_reads_back_GetDBValue_witness :
  BlockMetrics.wf metrics_b
  /\ BlockMetrics.Create (BlockMetrics.file_number_ metrics_b)
                         (BlockMetrics.block_offset_ metrics_b)
                         (BlockMetrics.GetDBValue metrics_b)
     = Some (Some metrics_b).
Proof.
  split; [exact metrics_b_wf |].
  apply (Create_reads_back_GetDBValue metrics_b metrics_b_wf).
Defined.

(** ** The entry header codec *)

Lemma EncodeVarint32_bytes n : forall v, Forall is_byte (EncodeVarint32 n v).
Proof.
  induction n as [| n IH]; intros v; cbn [EncodeVarint32].
  - constructor; [apply u8_is_byte | constructor].
  - destruct (v <? 128).
    + constructor; [apply u8_is_byte | constructor].
    + constructor; [apply u8_is_byte | apply IH].
Qed.

Lemma EncodeVarint32_small n v :
  0 <= v < 128 -> EncodeVarint32 (S n) v = [v].
Proof.
  intros Hv. cbn [EncodeVarint32].
  destruct (Z.ltb_spec v 128); [| lia].
  destruct (final_byte v Hv) as [-> _]. reflexivity.
Qed.

(** The first byte of a varint of two bytes or more has its high bit
    set. *)
Lemma EncodeVarint32_large n v :
  128 <= v ->
  exists b tl,
    EncodeVarint32 (S n) v = b :: tl /\ is_byte b /\ (b <? 128) = false
    /\ (0 < length tl)%nat.
Proof.
  intros Hv. cbn [EncodeVarint32].
  destruct (Z.ltb_spec v 128); [lia |].
  destruct (continuation_byte v) as (Hb & Hbit & _).
  exists (u8 (Z.lor v 128)), (EncodeVarint32 n (Z.shiftr v 7)).
  split; [reflexivity |]. split; [exact Hb |]. split.
  - destruct (Z.ltb_spec (u8 (Z.lor v 128)) 128) as [Hlt |]; [| reflexivity].
    destruct (final_byte (u8 (Z.lor v 128))) as [_ Hz];
      [unfold is_byte in Hb; lia |].
    congruence.
  - destruct n; cbn [EncodeVarint32]; [simpl; lia |].
    destruct (Z.shiftr v 7 <? 128); simpl; lia.
Qed.

(** The fast-path test of [DecodeEntry] on two bytes. *)
Lemma lor_below_128 a b :
  is_byte a -> is_byte b ->
  (Z.lor a b <? 128) = (a <? 128) && (b <? 128).
Proof.
  intros Ha Hb.
  pose proof (forallb_range
                (fun a => forallb
                            (fun b => Bool.eqb (Z.lor a b <? 128)
                                               ((a <? 128) && (b <? 128)))
                            (map Z.of_nat (seq 0 256)))
                256 ltac:(vm_compute; reflexivity) a Ha) as H.
  cbv beta in H.
  pose proof (forallb_range _ 256 H b Hb) as H1. cbv beta in H1.
  apply Bool.eqb_prop in H1. exact H1.
Qed.

(** [GetVarint32Ptr] reads back what [PutVarint32] wrote, wherever it
    lies in the buffer. *)
Lemma GetVarint32Ptr_PutVarint32 pre v rest limit :
  0 <= v < 2 ^ 32 ->
  Z.of_nat (length pre + length (PutVarint32 v)) <= limit ->
  GetVarint32Ptr (pre ++ PutVarint32 v ++ rest) (Z.of_nat (length pre)) limit
  = Some (v, Z.of_nat (length pre + length (PutVarint32 v))).
Proof.
  intros Hv Hlim. unfold GetVarint32Ptr, PutVarint32 in *.
  rewrite (GetVarint32Ptr_loop_Encode 4 v 0 0 pre rest limit).
  - rewrite Z.pow_0_r, Z.mul_1_r, Z.add_0_l. reflexivity.
  - change (7 * Z.of_nat 5) with 35. split; [lia |].
    apply Z.lt_trans with (2 ^ 32); lia.
  - lia.
  - change (2 ^ 0) with 1. lia.
  - change (2 ^ 0) with 1. lia.
  - exact Hlim.
Qed.

Lemma PutVarint32_length v : (1 <= length (PutVarint32 v) <= 5)%nat.
Proof.
  unfold PutVarint32. cbn [EncodeVarint32].
  repeat match goal with
         | |- context [if ?c then _ else _] => destruct c
         end; simpl; lia.
Qed.

(** The three bytes the fast path looks at are bytes of the header. *)
Lemma header_bytes pre hdr rest i :
  Forall is_byte hdr -> 0 <= i < Z.of_nat (length hdr) ->
  byte_at (pre ++ hdr ++ rest) (Z.of_nat (length pre) + i) = nth (Z.to_nat i) hdr 0
  /\ is_byte (nth (Z.to_nat i) hdr 0).
Proof.
  intros Hh Hi. split; [apply byte_at_app_mid; exact Hi |].
  apply (byte_at_range hdr i Hh).
Qed.

(** The fast path is taken exactly when the three values are below
    128. *)
Lemma fast_path_test pre s ns vl rest :
  0 <= s < 2 ^ 32 -> 0 <= ns < 2 ^ 32 -> 0 <= vl < 2 ^ 32 ->
  let d := pre ++ (PutVarint32 s ++ PutVarint32 ns ++ PutVarint32 vl) ++ rest in
  let p := Z.of_nat (length pre) in
  if (s <? 128) && (ns <? 128) && (vl <? 128)
  then byte_at d p = s /\ byte_at d (p + 1) = ns /\ byte_at d (p + 2) = vl
       /\ (Z.lor (Z.lor (byte_at d p) (byte_at d (p + 1))) (byte_at d (p + 2))
           <? 128) = true
  else (Z.lor (Z.lor (byte_at d p) (byte_at d (p + 1))) (byte_at d (p + 2))
        <? 128) = false.
Proof.
  intros Hs Hns Hvl d p.
  assert (Forall is_byte (PutVarint32 s ++ PutVarint32 ns ++ PutVarint32 vl))
    as Hhdr.
  { unfold PutVarint32. rewrite !Forall_app.
    repeat split; apply EncodeVarint32_bytes. }
  pose proof (PutVarint32_length s) as Ls.
  pose proof (PutVarint32_length ns) as Lns.
  pose proof (PutVarint32_length vl) as Lvl.
  assert (3 <= Z.of_nat (length (PutVarint32 s ++ PutVarint32 ns
                                 ++ PutVarint32 vl))) as Hlen
      by (rewrite !List.length_app; lia).
  destruct (header_bytes pre _ rest 0 Hhdr ltac:(lia)) as [E0 B0].
  destruct (header_bytes pre _ rest 1 Hhdr ltac:(lia)) as [E1 B1].
  destruct (header_bytes pre _ rest 2 Hhdr ltac:(lia)) as [E2 B2].
  rewrite Z.add_0_r in E0. fold d p in E0, E1, E2.
  rewrite E0, E1, E2.
  change (Z.to_nat 0) with 0%nat in *. change (Z.to_nat 1) with 1%nat in *.
  change (Z.to_nat 2) with 2%nat in *.
  rewrite !lor_below_128 by (try apply lor_byte; assumption).
  unfold PutVarint32 in *.
  destruct (Z.ltb_spec s 128) as [Hs1 | Hs1].
  - rewrite (EncodeVarint32_small 3 s) in * by lia. cbn [app nth] in *.
    destruct (Z.ltb_spec ns 128) as [Hn1 | Hn1].
    + rewrite (EncodeVarint32_small 3 ns) in * by lia. cbn [app nth] in *.
      destruct (Z.ltb_spec vl 128) as [Hv1 | Hv1].
      * rewrite (EncodeVarint32_small 3 vl) in * by lia. cbn [app nth andb] in *.
        repeat split.
        destruct (Z.ltb_spec s 128), (Z.ltb_spec ns 128), (Z.ltb_spec vl 128);
          try lia; reflexivity.
      * destruct (EncodeVarint32_large 3 vl Hv1) as (b & tl & -> & _ & Hb & _).
        cbn [app nth andb]. rewrite Hb, ?andb_false_r. reflexivity.
    + destruct (EncodeVarint32_large 3 ns Hn1) as (b & tl & -> & _ & Hb & _).
      cbn [app nth andb]. rewrite Hb, ?andb_false_r. reflexivity.
  - destruct (EncodeVarint32_large 3 s Hs1) as (b & tl & -> & _ & Hb & _).
    cbn [app nth andb]. rewrite Hb, ?andb_false_r. reflexivity.
Qed.

(** X12.  [DecodeEntry] reads back a written header.  For 32-bit
    [shared], [non_shared] and [value_length] written as three varints
    anywhere in a buffer, with [limit] at or after the end of the
    header: [DecodeEntry] returns the three values and the offset just
    past the header, unless [non_shared + value_length], added in 32
    bits as the code adds them, exceeds the room up to [limit], in
    which case it returns NULL.  The one-byte fast path and the varint
    path agree. *)
Theorem DecodeEntry_reads_written_header
        (pre rest : bytes) (shared non_shared value_length limit : Z) :
  0 <= shared < 2 ^ 32 ->
  0 <= non_shared < 2 ^ 32 ->
  0 <= value_length < 2 ^ 32 ->
  Z.of_nat (length pre
            + length (PutVarint32 shared ++ PutVarint32 non_shared
                      ++ PutVarint32 value_length)) <= limit < 2 ^ 32 ->
  DecodeEntry (pre ++ (PutVarint32 shared ++ PutVarint32 non_shared
                       ++ PutVarint32 value_length) ++ rest)
              (Z.of_nat (length pre)) limit
  = if limit
       - Z.of_nat (length pre
                   + length (PutVarint32 shared ++ PutVarint32 non_shared
                             ++ PutVarint32 value_length))
       <? u32 (non_shared + value_length)
    then None
    else Some (mkHeader shared non_shared value_length
                 (Z.of_nat (length pre
                            + length (PutVarint32 shared
                                      ++ PutVarint32 non_shared
                                      ++ PutVarint32 value_length)))).
Proof.
  intros Hs Hns Hvl Hlimit.
  pose proof (fast_path_test pre shared non_shared value_length rest
                Hs Hns Hvl) as Hfast.
  cbv zeta in Hfast.
  pose proof (PutVarint32_length shared) as Ls.
  pose proof (PutVarint32_length non_shared) as Lns.
  pose proof (PutVarint32_length value_length) as Lvl.
  rewrite !List.length_app in *.
  set (kp := Z.of_nat (length pre
                       + (length (PutVarint32 shared)
                          + (length (PutVarint32 non_shared)
                             + length (PutVarint32 value_length))))) in *.
  unfold DecodeEntry.
  destruct (Z.ltb_spec (limit - Z.of_nat (length pre)) 3); [lia |].
  destruct ((shared <? 128) && (non_shared <? 128) && (value_length <? 128))
    eqn:Hsmall.
  - destruct Hfast as (E0 & E1 & E2 & Htest). rewrite Htest, E1, E2, E0.
    cbn [mbind option_bind h_key_ptr h_non_shared h_value_length].
    apply andb_true_iff in Hsmall as [Hsmall Hv1].
    apply andb_true_iff in Hsmall as [Hs1 Hn1].
    apply Z.ltb_lt in Hs1, Hn1, Hv1.
    assert (Z.of_nat (length pre) + 3 = kp) as Hkp.
    { unfold kp, PutVarint32.
      rewrite (EncodeVarint32_small 3 shared), (EncodeVarint32_small 3 non_shared),
        (EncodeVarint32_small 3 value_length) by lia.
      simpl. lia. }
    rewrite Hkp, (u32_small (limit - kp)) by lia.
    destruct (limit - kp <? u32 (non_shared + value_length)); reflexivity.
  - rewrite Hfast.
    replace (pre ++ (PutVarint32 shared ++ PutVarint32 non_shared
                     ++ PutVarint32 value_length) ++ rest)
      with (pre ++ PutVarint32 shared
            ++ (PutVarint32 non_shared ++ PutVarint32 value_length ++ rest))
      by (rewrite <- !List.app_assoc; reflexivity).
    rewrite GetVarint32Ptr_PutVarint32 by (try assumption; lia).
    cbn [mbind option_bind].
    replace (pre ++ PutVarint32 shared
             ++ (PutVarint32 non_shared ++ PutVarint32 value_length ++ rest))
      with ((pre ++ PutVarint32 shared) ++ PutVarint32 non_shared
            ++ (PutVarint32 value_length ++ rest))
      by (rewrite <- !List.app_assoc; reflexivity).
    rewrite <- List.length_app.
    rewrite GetVarint32Ptr_PutVarint32
      by (try assumption; rewrite List.length_app; lia).
    cbn [mbind option_bind].
    replace ((pre ++ PutVarint32 shared) ++ PutVarint32 non_shared
             ++ (PutVarint32 value_length ++ rest))
      with (((pre ++ PutVarint32 shared) ++ PutVarint32 non_shared)
            ++ PutVarint32 value_length ++ rest)
      by (rewrite <- !List.app_assoc; reflexivity).
    rewrite <- List.length_app.
    rewrite GetVarint32Ptr_PutVarint32
      by (try assumption; rewrite !List.length_app; lia).
    cbn [mbind option_bind h_key_ptr h_non_shared h_value_length].
    assert (Z.of_nat (length ((pre ++ PutVarint32 shared)
                              ++ PutVarint32 non_shared)
                      + length (PutVarint32 value_length)) = kp) as Hkp
        by (unfold kp; rewrite !List.length_app; lia).
    rewrite Hkp, (u32_small (limit - kp)) by lia.
    destruct (limit - kp <? u32 (non_shared + value_length)); reflexivity.
Qed.

Lemma DecodeEntry_reads_written_header_witness :
  DecodeEntry ([] ++ (PutVarint32 1 ++ PutVarint32 (2 ^ 32 - 1)
                      ++ PutVarint32 2) ++ [107])
              (Z.of_nat (length (@nil Z))) 8
  = if 8 - Z.of_nat (length (@nil Z)
                     + length (PutVarint32 1 ++ PutVarint32 (2 ^ 32 - 1)
                               ++ PutVarint32 2))
       <? u32 (2 ^ 32 - 1 + 2)
    then None
    else Some (mkHeader 1 (2 ^ 32 - 1) 2
                 (Z.of_nat (length (@nil Z)
                            + length (PutVarint32 1 ++ PutVarint32 (2 ^ 32 - 1)
                                      ++ PutVarint32 2)))).
Proof.
  apply (DecodeEntry_reads_written_header [] [107] 1 (2 ^ 32 - 1) 2 8).
  - lia.
  - lia.
  - lia.
  - vm_compute. split; [discriminate | reflexivity].
Defined.

(** ** Iterators over arbitrary buffers *)

Lemma same_block_refl it : same_block it it.
Proof. repeat split. Qed.

Lemma same_block_trans it1 it2 it3 :
  same_block it1 it2 -> same_block it2 it3 -> same_block it1 it3.
Proof. intros (? & ? & ?) (? & ? & ?). repeat split; congruence. Qed.

Lemma same_block_geometry it it' :
  same_block it it' -> geometry_ok it -> geometry_ok it'.
Proof. intros (_ & Hr & Hn) H. unfold geometry_ok. rewrite Hr, Hn. exact H. Qed.

(** The header [DecodeEntry] returns takes at least three bytes, and the
    key delta and value it announces end, in 32-bit arithmetic, at or
    before [limit]. *)
Lemma DecodeEntry_fits d p limit h :
  0 <= p -> limit < 2 ^ 32 ->
  DecodeEntry d p limit = Some h ->
  p + 3 <= h_key_ptr h <= limit
  /\ u32 (h_key_ptr h + h_non_shared h + h_value_length h)
     = h_key_ptr h + u32 (h_non_shared h + h_value_length h)
  /\ h_key_ptr h + u32 (h_non_shared h + h_value_length h) <= limit.
Proof.
  intros Hp Hlimit Hdec.
  assert (p + 3 <= h_key_ptr h <= limit
          /\ u32 (h_non_shared h + h_value_length h) <= u32 (limit - h_key_ptr h))
    as [Hkp Hcheck].
  { revert Hdec. unfold DecodeEntry.
    destruct (limit - p <? 3) eqn:Hlim; [discriminate |].
    apply Z.ltb_ge in Hlim.
    destruct (Z.lor (Z.lor (byte_at d p) (byte_at d (p + 1)))
                    (byte_at d (p + 2)) <? 128).
    - cbn [mbind option_bind h_key_ptr h_non_shared h_value_length].
      destruct (u32 (limit - (p + 3))
                <? u32 (byte_at d (p + 1) + byte_at d (p + 2))) eqn:E;
        [discriminate |].
      apply Z.ltb_ge in E. intros [= <-]. cbn. split; [lia | exact E].
    - destruct (GetVarint32Ptr d p limit) as [[s p1] |] eqn:E1; [| discriminate].
      cbn [mbind option_bind].
      destruct (GetVarint32Ptr d p1 limit) as [[ns p2] |] eqn:E2; [| discriminate].
      cbn [mbind option_bind].
      destruct (GetVarint32Ptr d p2 limit) as [[vl p3] |] eqn:E3; [| discriminate].
      cbn [mbind option_bind h_key_ptr h_non_shared h_value_length].
      destruct (u32 (limit - p3) <? u32 (ns + vl)) eqn:E; [discriminate |].
      apply Z.ltb_ge in E. intros [= <-]. cbn.
      apply GetVarint32Ptr_bounds in E1, E2, E3. split; [lia | exact E]. }
  rewrite (u32_small (limit - h_key_ptr h)) in Hcheck by lia.
  pose proof (u32_range (h_non_shared h + h_value_length h)) as Hsum.
  split; [exact Hkp |]. split; [| lia].
  unfold u32 in *.
  rewrite <- Z.add_assoc, <- Z.add_mod_idemp_r by lia.
  apply Z.mod_small. lia.
Qed.

Lemma NextEntryOffset_inv it nxt :
  NextEntryOffset it = Some nxt ->
  exists vo vs, value_ it = mkSlice (Some vo) vs /\ nxt = u32 (vo + vs).
Proof.
  unfold NextEntryOffset. destruct (value_ it) as [[vo |] vs]; [| discriminate].
  cbn. intros [= <-]. eauto.
Qed.

(** The trailing loop of [ParseNextKey] on any buffer: it returns, moves
    [restart_index_] forward inside the restart array, resets
    [restart_offset_] when it moves, and stops in front of a restart
    point that is not before the entry. *)
Lemma ParseNextKey_fixup_total fuel :
  forall it,
    num_restarts_ it <= 2 ^ 31 ->
    0 <= restart_index_ it < num_restarts_ it ->
    num_restarts_ it - 1 - restart_index_ it <= Z.of_nat fuel ->
    exists ri ro,
      ParseNextKey_fixup fuel it = Some (set_restart it ri ro)
      /\ restart_index_ it <= ri < num_restarts_ it
      /\ (ro = restart_offset_ it \/ ro = 0)
      /\ (ri + 1 < num_restarts_ it ->
          current_ it
          <= DecodeFixed32 (data_ it) (restarts_ it + (ri + 1) * 4)).
Proof.
  induction fuel as [| fuel IH]; intros it HN Hri Hfuel.
  - exists (restart_index_ it), (restart_offset_ it).
    rewrite set_restart_id. cbn [ParseNextKey_fixup].
    rewrite u32_small by lia.
    destruct (restart_index_ it + 1 <? num_restarts_ it) eqn:E;
      [apply Z.ltb_lt in E; lia |].
    split; [reflexivity |]. split; [lia |]. split; [left; reflexivity | lia].
  - cbn [ParseNextKey_fixup]. rewrite u32_small by lia.
    destruct (restart_index_ it + 1 <? num_restarts_ it) eqn:E.
    + unfold GetRestartPoint. rewrite E. cbn [mbind option_bind].
      apply Z.ltb_lt in E.
      destruct (DecodeFixed32 (data_ it)
                  (restarts_ it + (restart_index_ it + 1) * 4)
                <? current_ it) eqn:Hlt.
      * destruct (IH (set_restart it (restart_index_ it + 1) 0))
          as (ri & ro & Hfix & Hrange & Hro & Hstop).
        { exact HN. }
        { cbn. lia. }
        { cbn. lia. }
        exists ri, ro. cbn in Hrange, Hro, Hstop.
        split; [exact Hfix |]. split; [lia |].
        split; [right; destruct Hro as [-> | ->]; reflexivity | exact Hstop].
      * apply Z.ltb_ge in Hlt.
        exists (restart_index_ it), (restart_offset_ it).
        rewrite set_restart_id.
        split; [reflexivity |]. split; [lia |].
        split; [left; reflexivity | intros _; exact Hlt].
    + apply Z.ltb_ge in E.
      exists (restart_index_ it), (restart_offset_ it).
      rewrite set_restart_id.
      split; [reflexivity |]. split; [lia |]. split; [left; reflexivity | lia].
Qed.

(** [ParseNextKey] on any buffer, called with [value_] inside the block
    and [restart_index_] inside the restart array: it returns, and when
    it reports an entry the iterator stands on one that lies in the
    entry region. *)
Lemma ParseNextKey_total it vo vs :
  geometry_ok it ->
  value_ it = mkSlice (Some vo) vs ->
  0 <= restart_index_ it < num_restarts_ it ->
  exists b it',
    ParseNextKey it = Some (b, it')
    /\ same_block it it'
    /\ steady it'
    /\ Valid it' = b
    /\ (b = true ->
        current_ it' = u32 (vo + vs)
        /\ restart_index_ it <= restart_index_ it').
Proof.
  intros (HR & HN) Hv Hri.
  pose proof (u32_range (vo + vs)) as Hcur.
  pose proof (u32_range (restart_offset_ it + 1)) as Hro1.
  unfold ParseNextKey, NextEntryOffset. rewrite Hv.
  cbn [sl_data sl_size mbind option_bind].
  cbn [current_ restarts_ data_ key_ set_position].
  destruct (restarts_ it <=? u32 (vo + vs)) eqn:Hend.
  - exists false. eexists. split; [reflexivity |].
    split; [repeat split |].
    split; [| split; [unfold Valid; cbn; apply Z.ltb_irrefl | discriminate]].
    split; [split; cbn; assumption |]. split; [cbn; lia |].
    unfold Valid. cbn. rewrite Z.ltb_irrefl. discriminate.
  - apply Z.leb_gt in Hend.
    assert (steady (CorruptionError
                      (set_position it (u32 (vo + vs)) (restart_index_ it)
                                    (u32 (restart_offset_ it + 1))))
            /\ Valid (CorruptionError
                        (set_position it (u32 (vo + vs)) (restart_index_ it)
                                      (u32 (restart_offset_ it + 1)))) = false)
      as [Hcs Hcv].
    { unfold steady, geometry_ok, Valid. cbn. rewrite Z.ltb_irrefl.
      repeat split; try lia; discriminate. }
    destruct (DecodeEntry (data_ it) (u32 (vo + vs)) (restarts_ it))
      as [h |] eqn:Hdec.
    + destruct (Z.of_nat (length (key_ it)) <? h_shared h).
      * exists false. eexists. split; [reflexivity |].
        split; [repeat split |]. split; [exact Hcs |].
        split; [exact Hcv | discriminate].
      * pose proof Hdec as Hdec0.
        apply DecodeEntry_fits in Hdec as (Hkp & Hwrap & Hfit); [| lia | lia].
        match goal with
        | |- context [ParseNextKey_fixup ?f ?i] =>
            destruct (ParseNextKey_fixup_total f i)
              as (ri & ro & Hfix & Hrange & Hro & Hstop)
        end.
        { cbn. exact (proj2 HN). }
        { cbn. exact Hri. }
        { cbn. lia. }
        rewrite Hfix. cbn in Hrange, Hro, Hstop |- *.
        exists true. eexists. split; [reflexivity |].
        split; [repeat split |].
        assert (Valid
                  (set_restart
                     (set_entry
                        (set_position it (u32 (vo + vs)) (restart_index_ it)
                                      (u32 (restart_offset_ it + 1)))
                        (take (Z.to_nat (h_shared h)) (key_ it)
                         ++ sub (data_ it) (h_key_ptr h) (h_non_shared h))
                        (mkSlice (Some (h_key_ptr h + h_non_shared h))
                                 (h_value_length h)))
                     ri ro) = true) as Hvalid.
        { unfold Valid. cbn. apply Z.ltb_lt. exact Hend. }
        split; [| split; [exact Hvalid | intros _; cbn; split; [reflexivity | lia]]].
        split; [split; cbn; assumption |].
        split; [cbn; destruct Hro as [-> | ->]; lia |].
        intros _. unfold entry_ok, NextEntryOffset. cbn.
        split; [lia |]. split; [lia |].
        split; [exists h; split; [exact Hdec0 | reflexivity] |].
        split; [| exact Hstop].
        eexists. split; [reflexivity |].
        rewrite Hwrap.
        pose proof (u32_range (h_non_shared h + h_value_length h)). lia.
    + exists false. eexists. split; [reflexivity |].
      split; [repeat split |]. split; [exact Hcs |].
      split; [exact Hcv | discriminate].
Qed.

(** What [SeekToRestartPoint] sets up for [ParseNextKey]. *)
Lemma SeekToRestartPoint_total it i :
  geometry_ok it -> 0 <= i < num_restarts_ it ->
  exists it' vo,
    SeekToRestartPoint it i = Some it'
    /\ same_block it it' /\ geometry_ok it'
    /\ value_ it' = mkSlice (Some vo) 0
    /\ restart_index_ it' = i.
Proof.
  intros Hg Hi. unfold SeekToRestartPoint, GetRestartPoint.
  destruct (Z.ltb_spec i (num_restarts_ it)); [| lia].
  cbn [mbind option_bind]. eexists. eexists.
  split; [reflexivity |]. split; [repeat split |].
  split; [exact Hg |]. split; reflexivity.
Qed.

(** A steady valid iterator is ready for the next [ParseNextKey]. *)
Lemma steady_value it :
  steady it -> Valid it = true ->
  exists vo vs,
    value_ it = mkSlice (Some vo) vs
    /\ current_ it + 3 <= u32 (vo + vs) <= restarts_ it
    /\ 0 <= restart_index_ it < num_restarts_ it.
Proof.
  intros (_ & _ & He) Hv.
  destruct (He Hv) as (_ & Hri & _ & (nxt & Hn & Hb) & _).
  apply NextEntryOffset_inv in Hn as (vo & vs & Hval & ->). eauto.
Qed.

(** The three scans on any buffer: each round reads an entry of at
    least three bytes, so they return within the rounds the size of the
    entry region allows. *)
Lemma Seek_scan_total cmp target fuel :
  forall it vo vs,
    geometry_ok it -> value_ it = mkSlice (Some vo) vs ->
    0 <= restart_index_ it < num_restarts_ it ->
    (0 < fuel)%nat -> restarts_ it - u32 (vo + vs) < Z.of_nat fuel ->
    exists it',
      Seek_scan cmp fuel it target = Some it'
      /\ same_block it it' /\ steady it'.
Proof.
  induction fuel as [| fuel IH]; intros it vo vs Hg Hv Hri Hpos Hfuel; [lia |].
  cbn [Seek_scan].
  destruct (ParseNextKey_total it vo vs Hg Hv Hri)
    as (b & it1 & Hp & Hsb & Hst & Hvalid & Hb).
  rewrite Hp. destruct b.
  - destruct (0 <=? cmp (key_ it1) target); [exists it1; auto |].
    destruct (Hb eq_refl) as (Hcur & _).
    destruct (steady_value it1 Hst Hvalid) as (vo1 & vs1 & Hv1 & Hnext & Hri1).
    destruct Hsb as (Hd1 & Hr1 & Hn1).
    pose proof (u32_range (vo + vs)).
    destruct (IH it1 vo1 vs1 (proj1 Hst) Hv1 Hri1) as (it2 & Hscan & Hsb2 & Hst2).
    { lia. }
    { lia. }
    exists it2. split; [exact Hscan |]. split; [| exact Hst2].
    eapply same_block_trans; [| exact Hsb2]. repeat split; assumption.
  - exists it1. auto.
Qed.

Lemma Prev_scan_total original fuel :
  forall it vo vs,
    geometry_ok it -> value_ it = mkSlice (Some vo) vs ->
    0 <= restart_index_ it < num_restarts_ it ->
    (0 < fuel)%nat -> restarts_ it - u32 (vo + vs) < Z.of_nat fuel ->
    exists it',
      Prev_scan fuel it original = Some it'
      /\ same_block it it' /\ steady it'.
Proof.
  induction fuel as [| fuel IH]; intros it vo vs Hg Hv Hri Hpos Hfuel; [lia |].
  cbn [Prev_scan].
  destruct (ParseNextKey_total it vo vs Hg Hv Hri)
    as (b & it1 & Hp & Hsb & Hst & Hvalid & Hb).
  rewrite Hp. destruct b; [| exists it1; auto].
  destruct (Hb eq_refl) as (Hcur & _).
  destruct (steady_value it1 Hst Hvalid) as (vo1 & vs1 & Hv1 & Hnext & Hri1).
  unfold NextEntryOffset. rewrite Hv1. cbn [sl_data sl_size mbind option_bind].
  destruct (u32 (vo1 + vs1) <? original); [| exists it1; auto].
  destruct Hsb as (Hd1 & Hr1 & Hn1).
  pose proof (u32_range (vo + vs)).
  destruct (IH it1 vo1 vs1 (proj1 Hst) Hv1 Hri1) as (it2 & Hscan & Hsb2 & Hst2).
  { lia. }
  { lia. }
  exists it2. split; [exact Hscan |]. split; [| exact Hst2].
  eapply same_block_trans; [| exact Hsb2]. repeat split; assumption.
Qed.

Lemma SeekToLast_scan_total fuel :
  forall it vo vs,
    geometry_ok it -> value_ it = mkSlice (Some vo) vs ->
    0 <= restart_index_ it < num_restarts_ it ->
    (0 < fuel)%nat -> restarts_ it - u32 (vo + vs) < Z.of_nat fuel ->
    exists it',
      SeekToLast_scan fuel it = Some it'
      /\ same_block it it' /\ steady it'.
Proof.
  induction fuel as [| fuel IH]; intros it vo vs Hg Hv Hri Hpos Hfuel; [lia |].
  cbn [SeekToLast_scan].
  destruct (ParseNextKey_total it vo vs Hg Hv Hri)
    as (b & it1 & Hp & Hsb & Hst & Hvalid & Hb).
  rewrite Hp. destruct b; [| exists it1; auto].
  destruct (Hb eq_refl) as (Hcur & _).
  destruct (steady_value it1 Hst Hvalid) as (vo1 & vs1 & Hv1 & Hnext & Hri1).
  unfold NextEntryOffset. rewrite Hv1. cbn [sl_data sl_size mbind option_bind].
  destruct (u32 (vo1 + vs1) <? restarts_ it1); [| exists it1; auto].
  destruct Hsb as (Hd1 & Hr1 & Hn1).
  pose proof (u32_range (vo + vs)).
  destruct (IH it1 vo1 vs1 (proj1 Hst) Hv1 Hri1) as (it2 & Hscan & Hsb2 & Hst2).
  { lia. }
  { lia. }
  exists it2. split; [exact Hscan |]. split; [| exact Hst2].
  eapply same_block_trans; [| exact Hsb2]. repeat split; assumption.
Qed.

(** The binary search of [Seek] on any buffer: it returns, with a
    corruption or with an index between its bounds. *)
Lemma Seek_bsearch_total cmp target fuel :
  forall it left right,
    num_restarts_ it <= 2 ^ 31 ->
    0 <= left -> left <= right -> right < num_restarts_ it ->
    right - left <= Z.of_nat fuel ->
    exists r,
      Seek_bsearch cmp fuel it target left right = Some r
      /\ match r with
         | inl it' => it' = CorruptionError it
         | inr L => left <= L <= right
         end.
Proof.
  induction fuel as [| fuel IH]; intros it left right HN H0 Hlr Hr Hfuel.
  - exists (inr left). cbn [Seek_bsearch].
    destruct (left <? right) eqn:E; [apply Z.ltb_lt in E; lia |].
    split; [reflexivity | lia].
  - cbn [Seek_bsearch]. destruct (left <? right) eqn:E.
    + apply Z.ltb_lt in E.
      rewrite (u32_small (left + right + 1)) by lia.
      set (mid := (left + right + 1) / 2).
      assert (left < mid <= right) as Hmid
          by (unfold mid; Z.div_mod_to_equations; lia).
      unfold GetRestartPoint.
      destruct (Z.ltb_spec mid (num_restarts_ it)); [| lia].
      cbn [mbind option_bind].
      destruct (DecodeEntry (data_ it)
                  (DecodeFixed32 (data_ it) (restarts_ it + mid * 4))
                  (restarts_ it)) as [h |];
        [| exists (inl (CorruptionError it)); auto].
      destruct (negb (h_shared h =? 0));
        [exists (inl (CorruptionError it)); auto |].
      destruct (cmp (sub (data_ it) (h_key_ptr h) (h_non_shared h)) target <? 0).
      * destruct (IH it mid right HN ltac:(lia) ltac:(lia) Hr ltac:(lia))
          as (r & Hs & Hres).
        exists r. split; [exact Hs |]. destruct r; [exact Hres | lia].
      * rewrite (u32_small (mid - 1)) by lia.
        destruct (IH it left (mid - 1) HN H0 ltac:(lia) ltac:(lia) ltac:(lia))
          as (r & Hs & Hres).
        exists r. split; [exact Hs |]. destruct r; [exact Hres | lia].
    + apply Z.ltb_ge in E. exists (inr left). split; [reflexivity | lia].
Qed.

(** The backward scan of [Prev] over the restart array on any buffer. *)
Lemma Prev_rewind_total original fuel :
  forall it,
    num_restarts_ it <= 2 ^ 31 ->
    0 <= restart_index_ it < num_restarts_ it ->
    restart_index_ it < Z.of_nat fuel ->
    exists r,
      Prev_rewind fuel it original = Some r
      /\ match r with
         | inl it' => exists ri, it' = mark_invalid (set_restart it ri (restart_offset_ it))
         | inr it' =>
             exists ri, it' = set_restart it ri (restart_offset_ it)
                        /\ 0 <= ri <= restart_index_ it
         end.
Proof.
  induction fuel as [| fuel IH]; intros it HN Hri Hfuel; [lia |].
  cbn [Prev_rewind]. unfold GetRestartPoint.
  destruct (Z.ltb_spec (restart_index_ it) (num_restarts_ it)); [| lia].
  cbn [mbind option_bind].
  destruct (original <=? DecodeFixed32 (data_ it)
                           (restarts_ it + restart_index_ it * 4)).
  - destruct (Z.eqb_spec (restart_index_ it) 0) as [Hz | Hnz].
    + eexists. split; [reflexivity |].
      exists (restart_index_ it). rewrite set_restart_id. reflexivity.
    + rewrite u32_small by lia.
      destruct (IH (set_restart it (restart_index_ it - 1) (restart_offset_ it)))
        as (r & Hs & Hres).
      { exact HN. }
      { cbn. lia. }
      { cbn. lia. }
      exists r. split; [exact Hs |]. cbn in Hres.
      destruct r as [it' | it'].
      * destruct Hres as (ri & ->). exists ri. reflexivity.
      * destruct Hres as (ri & -> & Hr). exists ri. split; [reflexivity | lia].
  - eexists. split; [reflexivity |].
    exists (restart_index_ it). rewrite set_restart_id. split; [reflexivity | lia].
Qed.

Lemma mark_invalid_steady it :
  geometry_ok it -> steady (mark_invalid it) /\ same_block it (mark_invalid it).
Proof.
  intros Hg. split; [| repeat split].
  unfold steady, Valid. cbn. rewrite Z.ltb_irrefl.
  split; [exact Hg |]. split; [lia | discriminate].
Qed.

Lemma CorruptionError_steady it :
  geometry_ok it ->
  steady (CorruptionError it) /\ same_block it (CorruptionError it).
Proof.
  intros Hg. split; [| repeat split].
  unfold steady, Valid. cbn. rewrite Z.ltb_irrefl.
  split; [exact Hg |]. split; [lia | discriminate].
Qed.

(** Every operation whose assertion holds returns, on any buffer, and
    leaves the iterator steady on the same block. *)
Lemma run_op_total cmp it o :
  steady it -> op_allowed it o = true ->
  exists it',
    run_op cmp it o = Some it' /\ same_block it it' /\ steady it'.
Proof.
  intros Hst Hallowed. pose proof Hst as (Hg & Hro & He).
  pose proof Hg as (HR & HN).
  destruct o as [| | target | |]; cbn [run_op op_allowed] in *.
  - unfold SeekToFirst.
    destruct (SeekToRestartPoint_total it 0 Hg ltac:(lia))
      as (it1 & vo & -> & Hsb1 & Hg1 & Hv1 & Hri1).
    cbn [mbind option_bind].
    destruct (ParseNextKey_total it1 vo 0 Hg1 Hv1)
      as (b & it2 & -> & Hsb2 & Hst2 & _).
    { rewrite Hri1. destruct Hsb1 as (_ & _ & ->). lia. }
    exists it2. split; [reflexivity |].
    split; [eapply same_block_trans; eauto | exact Hst2].
  - unfold SeekToLast. rewrite u32_small by lia.
    destruct (SeekToRestartPoint_total it (num_restarts_ it - 1) Hg ltac:(lia))
      as (it1 & vo & -> & Hsb1 & Hg1 & Hv1 & Hri1).
    cbn [mbind option_bind].
    pose proof Hsb1 as (_ & Hr1 & Hn1).
    pose proof (u32_range (vo + 0)).
    destruct (SeekToLast_scan_total (S (Z.to_nat (restarts_ it))) it1 vo 0
                Hg1 Hv1) as (it2 & Hscan & Hsb2 & Hst2).
    { rewrite Hri1, Hn1. lia. }
    { lia. }
    { rewrite Hr1. lia. }
    exists it2. split; [exact Hscan |].
    split; [eapply same_block_trans; eauto | exact Hst2].
  - unfold Seek. rewrite u32_small by lia.
    destruct (Seek_bsearch_total cmp target (Z.to_nat (num_restarts_ it)) it
                0 (num_restarts_ it - 1))
      as (r & -> & Hres); try lia.
    cbn [mbind option_bind].
    destruct r as [it1 | L].
    + subst it1. exists (CorruptionError it). split; [reflexivity |].
      destruct (CorruptionError_steady it Hg). auto.
    + destruct (SeekToRestartPoint_total it L Hg ltac:(lia))
        as (it1 & vo & -> & Hsb1 & Hg1 & Hv1 & Hri1).
      cbn [mbind option_bind].
      pose proof Hsb1 as (_ & Hr1 & Hn1).
      pose proof (u32_range (vo + 0)).
      destruct (Seek_scan_total cmp target (S (Z.to_nat (restarts_ it))) it1 vo 0
                  Hg1 Hv1) as (it2 & Hscan & Hsb2 & Hst2).
      { rewrite Hri1, Hn1. lia. }
      { lia. }
      { rewrite Hr1. lia. }
      exists it2. split; [exact Hscan |].
      split; [eapply same_block_trans; eauto | exact Hst2].
  - unfold Next. rewrite Hallowed.
    destruct (steady_value it Hst Hallowed) as (vo & vs & Hv & _ & Hri).
    destruct (ParseNextKey_total it vo vs Hg Hv Hri)
      as (b & it1 & -> & Hsb1 & Hst1 & _).
    exists it1. auto.
  - unfold Prev. rewrite Hallowed.
    destruct (steady_value it Hst Hallowed) as (vo & vs & Hv & _ & Hri).
    destruct (Prev_rewind_total (current_ it) (S (Z.to_nat (restart_index_ it)))
                it (proj2 HN) Hri ltac:(lia)) as (r & -> & Hres).
    cbn [mbind option_bind].
    destruct r as [it1 | it1].
    + destruct Hres as (ri & ->). eexists. split; [reflexivity |].
      destruct (mark_invalid_steady (set_restart it ri (restart_offset_ it)))
        as [Hs Hb]; [exact Hg |].
      split; [| exact Hs]. destruct Hb as (? & ? & ?). repeat split; assumption.
    + destruct Hres as (ri & -> & Hr).
      cbn [restart_index_ set_restart set_position].
      destruct (SeekToRestartPoint_total
                  (set_restart it ri (restart_offset_ it)) ri Hg ltac:(cbn; lia))
        as (it2 & vo2 & -> & Hsb2 & Hg2 & Hv2 & Hri2).
      cbn [mbind option_bind].
      pose proof Hsb2 as (_ & Hr2 & Hn2). cbn in Hr2, Hn2.
      pose proof (u32_range (vo2 + 0)).
      destruct (Prev_scan_total (current_ it) (S (Z.to_nat (restarts_ it)))
                  it2 vo2 0 Hg2 Hv2) as (it3 & Hscan & Hsb3 & Hst3).
      { rewrite Hri2, Hn2. lia. }
      { lia. }
      { rewrite Hr2. lia. }
      exists it3. split; [exact Hscan |]. split; [| exact Hst3].
      eapply same_block_trans; [| exact Hsb3].
      destruct Hsb2 as (? & ? & ?). repeat split; assumption.
Qed.

(** An operation that returns had its assertion. *)
Lemma run_op_Some_allowed cmp it o it' :
  run_op cmp it o = Some it' -> op_allowed it o = true.
Proof.
  destruct o; try reflexivity; cbn.
  - unfold Next. destruct (Valid it); [reflexivity | discriminate].
  - unfold Prev. destruct (Valid it); [reflexivity | discriminate].
Qed.

Lemma Iter_new_steady d R N it :
  0 <= R < 2 ^ 32 -> N <= 2 ^ 31 ->
  Iter_new d R N = Some it ->
  steady it /\ data_ it = d /\ restarts_ it = R /\ num_restarts_ it = N.
Proof.
  intros HR HN. unfold Iter_new.
  destruct (Z.ltb_spec 0 N); [| discriminate]. intros [= <-].
  split; [| repeat split].
  unfold steady, geometry_ok, Valid. cbn. rewrite Z.ltb_irrefl.
  repeat split; try lia; discriminate.
Qed.

Lemma run_ops_steady cmp os :
  forall it it',
    steady it -> run_ops cmp it os = Some it' ->
    steady it' /\ same_block it it'.
Proof.
  induction os as [| o os IH]; intros it it' Hst Hrun; cbn [run_ops] in Hrun.
  - injection Hrun as <-. split; [exact Hst | apply same_block_refl].
  - destruct (run_op cmp it o) as [it1 |] eqn:H1; [| discriminate].
    destruct (run_op_total cmp it o Hst (run_op_Some_allowed cmp it o it1 H1))
      as (it1' & H1' & Hsb1 & Hst1).
    assert (it1' = it1) as -> by congruence.
    destruct (IH it1 it' Hst1 Hrun) as [Hst' Hsb'].
    split; [exact Hst' | eapply same_block_trans; eauto].
Qed.

(** X13.  Whatever the bytes, a header that [DecodeEntry] returns for a
    region from [p] to [limit] (32-bit offsets) of the buffer starts at
    least three bytes after [p] and at or before [limit], and the key
    delta and value it announces end at or before [limit] when their
    length [non_shared + value_length] is taken in 32-bit arithmetic,
    as the code does; if the bytes are unsigned chars and the sum does
    not wrap, key delta and value lie inside the region. *)
Theorem DecodeEntry_stays_in_region (d : bytes) (p limit : Z) (h : Header) :
  0 <= p -> limit < 2 ^ 32 ->
  limit <= Z.of_nat (length d) ->
  DecodeEntry d p limit = Some h ->
  p + 3 <= h_key_ptr h <= limit
  /\ h_key_ptr h + u32 (h_non_shared h + h_value_length h) <= limit
  /\ (Forall is_byte d ->
      h_non_shared h + h_value_length h < 2 ^ 32 ->
      0 <= h_non_shared h /\ 0 <= h_value_length h
      /\ h_key_ptr h + h_non_shared h + h_value_length h <= limit).
Proof.
  intros Hp Hlimit _ Hdec.
  destruct (DecodeEntry_fits d p limit h Hp Hlimit Hdec) as (Hkp & _ & Hfit).
  split; [exact Hkp |]. split; [exact Hfit |].
  intros Hd Hsum.
  destruct (DecodeEntry_bounds d p limit h Hd Hdec) as (_ & _ & Hns & Hvl).
  rewrite u32_small in Hfit by lia. lia.
Qed.

Lemma DecodeEntry_stays_in_region_witness :
  0 <= 7 /\ 29 < 2 ^ 32
  /\ DecodeEntry block_k 7 29 = Some (mkHeader 2 1 1 10)
  /\ 7 + 3 <= 10 <= 29
  /\ 10 + u32 (1 + 1) <= 29
  /\ (Forall is_byte block_k -> 1 + 1 < 2 ^ 32 ->
      0 <= 1 /\ 0 <= 1 /\ 10 + 1 + 1 <= 29).
Proof.
  split; [lia |]. split; [lia |]. split; [vm_compute; reflexivity |].
  apply (DecodeEntry_stays_in_region block_k 7 29 (mkHeader 2 1 1 10)).
  - lia.
  - lia.
  - vm_compute; discriminate.
  - vm_compute; reflexivity.
Defined.

(** X14.  For a buffer of unsigned chars that holds the entry region
    and the restart array, in which no decodable header announces
    lengths that overflow 32 bits when added (so that every read of the
    iterator lies inside the buffer), a 32-bit restart array offset and
    a restart count of at most 2^31, whatever else the bytes are: in
    every state reached by positioning operations on a fresh iterator,
    an operation returns exactly when its assertion holds ([Next] and
    [Prev] want a valid iterator).  No other assertion fails, and the
    loops of [Seek], [Prev], [SeekToLast] and [ParseNextKey] end within
    the rounds that the size of the entry region and the restart count
    allow. *)
Theorem operations_return_on_any_buffer
        (cmp : bytes -> bytes -> Z) (d : bytes) (R N : Z)
        (it0 : Iter) (os : list Op) (it : Iter) (o : Op) :
  0 <= R < 2 ^ 32 -> N <= 2 ^ 31 ->
  reads_in_buffer d R N ->
  Iter_new d R N = Some it0 ->
  run_ops cmp it0 os = Some it ->
  (is_Some (run_op cmp it o) <-> op_allowed it o = true).
Proof.
  intros HR HN _ Hnew Hrun.
  destruct (Iter_new_steady d R N it0 HR HN Hnew) as (Hs0 & _).
  destruct (run_ops_steady cmp os it0 it Hs0 Hrun) as [Hs _].
  split.
  - intros [it' Hop]. eapply run_op_Some_allowed. exact Hop.
  - intros Hal. destruct (run_op_total cmp it o Hs Hal) as (it' & Hop & _).
    exists it'. exact Hop.
Qed.

Lemma operations_return_on_any_buffer_witness :
  0 <= 12 < 2 ^ 32 /\ 1 <= 2 ^ 31
  /\ reads_in_buffer block_bad 12 1
  /\ Iter_new block_bad 12 1 = Some iter_bad
  /\ run_ops bytewise iter_bad [OpSeekToFirst] = Some iter_bad_first
  /\ (is_Some (run_op bytewise iter_bad_first OpNext)
      <-> op_allowed iter_bad_first OpNext = true).
Proof.
  split; [lia |]. split; [lia |]. split; [exact block_bad_reads |].
  split; [reflexivity |]. split; [vm_compute; reflexivity |].
  apply (operations_return_on_any_buffer bytewise block_bad 12 1 iter_bad
           [OpSeekToFirst] iter_bad_first OpNext).
  - lia.
  - lia.
  - exact block_bad_reads.
  - reflexivity.
  - vm_compute; reflexivity.
Defined.

(** X15.  Under the same conditions on the buffer, the restart array
    offset and the restart count: every state reached by positioning
    operations on a fresh iterator runs over the same block and has a
    32-bit [restart_offset_]; when it is valid, the header of the
    current entry decodes at [current_], [restart_index_] is below the
    restart count with the next restart point not before the entry, and
    the value slice starts at least three bytes after [current_], has
    a non-negative size and ends at or before the restart array, where
    the next entry starts; [value()] denotes exactly that many bytes of
    the buffer. *)
Theorem valid_iterator_entry_in_region
        (cmp : bytes -> bytes -> Z) (d : bytes) (R N : Z)
        (it0 : Iter) (os : list Op) (it : Iter) :
  0 <= R < 2 ^ 32 -> N <= 2 ^ 31 ->
  reads_in_buffer d R N ->
  Iter_new d R N = Some it0 ->
  run_ops cmp it0 os = Some it ->
  data_ it = d /\ restarts_ it = R /\ num_restarts_ it = N
  /\ 0 <= restart_offset_ it < 2 ^ 32
  /\ (Valid it = true ->
      entry_ok it
      /\ exists vo vs v,
          value_ it = mkSlice (Some vo) vs
          /\ current_ it + 3 <= vo /\ 0 <= vs /\ vo + vs <= R
          /\ NextEntryOffset it = Some (vo + vs)
          /\ value it = Some v /\ Z.of_nat (length v) = vs).
Proof.
  intros HR HN (Hbytes & Hlen & Hnowrap) Hnew Hrun.
  destruct (Iter_new_steady d R N it0 HR HN Hnew) as (Hs0 & Hd0 & Hr0 & Hn0).
  destruct (run_ops_steady cmp os it0 it Hs0 Hrun)
    as [(Hg & Hro & He) (Hd & Hr & Hn)].
  assert (0 < N) as Hpos by (destruct Hg as (_ & Hg); lia).
  split; [congruence |]. split; [congruence |]. split; [congruence |].
  split; [exact Hro |].
  intros Hvalid. pose proof (He Hvalid) as Hok. split; [exact Hok |].
  destruct Hok as (Hcur & _ & (h & Hdec & Hval) & _).
  rewrite Hd, Hd0, Hr, Hr0 in Hdec.
  destruct (DecodeEntry_bounds d _ R h Hbytes Hdec) as (Hkp & _ & Hns & Hvl).
  pose proof (Hnowrap _ h Hcur Hdec) as Hsum.
  destruct (DecodeEntry_fits d _ R h Hcur (proj2 HR) Hdec) as (_ & _ & Hfit).
  rewrite u32_small in Hfit by lia.
  exists (h_key_ptr h + h_non_shared h), (h_value_length h),
    (sub d (h_key_ptr h + h_non_shared h) (h_value_length h)).
  split; [exact Hval |]. split; [lia |]. split; [exact Hvl |].
  split; [lia |]. split.
  - unfold NextEntryOffset. rewrite Hval. cbn [sl_data sl_size].
    rewrite u32_small by lia. reflexivity.
  - split.
    + unfold value. rewrite Hvalid, Hval. cbn [sl_data sl_size].
      rewrite Hd, Hd0. reflexivity.
    + unfold sub, bytes. rewrite length_take, length_drop. lia.
Qed.

Lemma valid_iterator_entry_in_region_witness :
  0 <= 12 < 2 ^ 32 /\ 1 <= 2 ^ 31
  /\ reads_in_buffer block_bad 12 1
  /\ Iter_new block_bad 12 1 = Some iter_bad
  /\ run_ops bytewise iter_bad [OpSeekToFirst] = Some iter_bad_first
  /\ data_ iter_bad_first = block_bad /\ restarts_ iter_bad_first = 12
  /\ num_restarts_ iter_bad_first = 1
  /\ 0 <= restart_offset_ iter_bad_first < 2 ^ 32
  /\ (Valid iter_bad_first = true ->
      entry_ok iter_bad_first
      /\ exists vo vs v,
          value_ iter_bad_first = mkSlice (Some vo) vs
          /\ current_ iter_bad_first + 3 <= vo /\ 0 <= vs /\ vo + vs <= 12
          /\ NextEntryOffset iter_bad_first = Some (vo + vs)
          /\ value iter_bad_first = Some v /\ Z.of_nat (length v) = vs).
Proof.
  split; [lia |]. split; [lia |]. split; [exact block_bad_reads |].
  split; [reflexivity |]. split; [vm_compute; reflexivity |].
  apply (valid_iterator_entry_in_region bytewise block_bad 12 1 iter_bad
           [OpSeekToFirst] iter_bad_first).
  - lia.
  - lia.
  - exact block_bad_reads.
  - reflexivity.
  - vm_compute; reflexivity.
Defined.

(** ** Runs over a well-formed block *)

Lemma run_ops_app cmp os1 :
  forall it os2,
    run_ops cmp it (os1 ++ os2)
    = match run_ops cmp it os1 with
      | Some it' => run_ops cmp it' os2
      | None => None
      end.
Proof.
  induction os1 as [| o os1 IH]; intros it os2; cbn [run_ops app];
    [reflexivity |].
  destruct (run_op cmp it o); [apply IH | reflexivity].
Qed.

Lemma run_ops_snoc cmp it o n :
  run_ops cmp it (o :: repeat OpNext (S n))
  = match run_ops cmp it (o :: repeat OpNext n) with
    | Some it' => Next it'
    | None => None
    end.
Proof.
  cbn [repeat]. rewrite List.repeat_cons, List.app_comm_cons, run_ops_app.
  destruct (run_ops cmp it (o :: repeat OpNext n)) as [it' |]; [| reflexivity].
  cbn [run_ops run_op]. destruct (Next it'); reflexivity.
Qed.

Lemma run_ops_snoc_prev cmp it o n :
  run_ops cmp it (o :: repeat OpPrev (S n))
  = match run_ops cmp it (o :: repeat OpPrev n) with
    | Some it' => Prev it'
    | None => None
    end.
Proof.
  cbn [repeat]. rewrite List.repeat_cons, List.app_comm_cons, run_ops_app.
  destruct (run_ops cmp it (o :: repeat OpPrev n)) as [it' |]; [| reflexivity].
  cbn [run_ops run_op]. destruct (Prev it'); reflexivity.
Qed.

Section WellFormedRuns.

Variable cmp : bytes -> bytes -> Z.
Variables (d : bytes) (R N : Z) (es : list Entry).
Hypothesis Hwf : wf_block cmp d R N es.

Local Abbreviation ent j := (nth j es nil_entry).
Local Abbreviation rp i := (restart_point d R i).

(** [SeekToFirst] and [k] times [Next]: the iterator is on entry [k]. *)
Lemma forward_run k :
  forall it,
    on_block d R N it -> (k < length es)%nat ->
    exists it',
      run_ops cmp it (OpSeekToFirst :: repeat OpNext k) = Some it'
      /\ positioned d R N es it' k /\ status_ it' = status_ it.
Proof.
  induction k as [| k IH]; intros it Hb Hk.
  - destruct (SeekToFirst_spec cmp d R N es Hwf it Hb) as (it1 & H1 & Hpos & Hst).
    exists it1. cbn [repeat run_ops run_op]. rewrite H1. auto.
  - destruct (IH it Hb ltac:(lia)) as (it1 & H1 & Hpos & Hst).
    destruct (Next_spec cmp d R N es Hwf it1 k Hpos)
      as (it2 & H2 & Hst2 & _ & Hmore & _).
    exists it2. rewrite run_ops_snoc, H1.
    split; [exact H2 |]. split; [apply Hmore; exact Hk | congruence].
Qed.

Lemma forward_end it :
  on_block d R N it ->
  exists it',
    run_ops cmp it (OpSeekToFirst :: repeat OpNext (length es)) = Some it'
    /\ Valid it' = false /\ status_ it' = status_ it.
Proof.
  intros Hb. pose proof (wf_nonempty cmp d R N es Hwf) as Hne.
  destruct (length es) as [| n] eqn:Hlen; [lia |].
  destruct (forward_run n it Hb ltac:(lia)) as (it1 & H1 & Hpos & Hst).
  destruct (Next_spec cmp d R N es Hwf it1 n Hpos)
    as (it2 & H2 & Hst2 & _ & _ & Hlast).
  exists it2. rewrite run_ops_snoc, H1.
  split; [exact H2 |]. split; [apply Hlast; lia | congruence].
Qed.

(** [SeekToLast] and [k] times [Prev]: the iterator is on the entry [k]
    places before the last. *)
Lemma backward_run k :
  forall it,
    on_block d R N it -> (k < length es)%nat ->
    exists it',
      run_ops cmp it (OpSeekToLast :: repeat OpPrev k) = Some it'
      /\ positioned d R N es it' (length es - 1 - k) /\ status_ it' = status_ it.
Proof.
  induction k as [| k IH]; intros it Hb Hk.
  - destruct (SeekToLast_spec cmp d R N es Hwf it Hb) as (it1 & H1 & Hpos & Hst).
    exists it1. cbn [repeat run_ops run_op]. rewrite H1.
    rewrite Nat.sub_0_r. auto.
  - destruct (IH it Hb ltac:(lia)) as (it1 & H1 & Hpos & Hst).
    destruct (Prev_spec cmp d R N es Hwf it1 _ Hpos)
      as (it2 & H2 & Hst2 & _ & _ & Hless).
    exists it2. rewrite run_ops_snoc_prev, H1.
    split; [exact H2 |]. split; [| congruence].
    apply Hless. lia.
Qed.

Lemma backward_end it :
  on_block d R N it ->
  exists it',
    run_ops cmp it (OpSeekToLast :: repeat OpPrev (length es)) = Some it'
    /\ Valid it' = false /\ status_ it' = status_ it.
Proof.
  intros Hb. pose proof (wf_nonempty cmp d R N es Hwf) as Hne.
  destruct (length es) as [| n] eqn:Hlen; [lia |].
  destruct (backward_run n it Hb ltac:(lia)) as (it1 & H1 & Hpos & Hst).
  rewrite Hlen in Hpos. replace (S n - 1 - n)%nat with 0%nat in Hpos by lia.
  destruct (Prev_spec cmp d R N es Hwf it1 0%nat Hpos)
    as (it2 & H2 & Hst2 & _ & Hfirst & _).
  exists it2. rewrite run_ops_snoc_prev, H1.
  split; [exact H2 |]. split; [apply Hfirst; reflexivity | congruence].
Qed.

(** [Prev] then [Next] from an entry that has a predecessor. *)
Lemma Prev_Next_positioned it j :
  positioned d R N es it (S j) ->
  exists it1 it2,
    Prev it = Some it1 /\ positioned d R N es it1 j
    /\ Next it1 = Some it2 /\ positioned d R N es it2 (S j).
Proof.
  intros Hpos. pose proof Hpos as (_ & Hj & _).
  destruct (Prev_spec cmp d R N es Hwf it (S j) Hpos)
    as (it1 & H1 & _ & _ & _ & Hless).
  specialize (Hless j eq_refl).
  destruct (Next_spec cmp d R N es Hwf it1 j Hless)
    as (it2 & H2 & _ & _ & Hmore & _).
  exists it1, it2. auto.
Qed.

(** The first entry starts at offset 0 and no other does. *)
Lemma positioned_first it j :
  positioned d R N es it j -> (current_ it = 0 <-> j = 0%nat).
Proof.
  intros (_ & Hj & (_ & Hcur & _) & _).
  rewrite Hcur, (wf_off cmp d R N es Hwf j Hj). split.
  - intros H0. apply (wf_so_inj cmp d R N es Hwf); [lia | lia |]. exact H0.
  - intros ->. reflexivity.
Qed.

Lemma positioned_last it j :
  positioned d R N es it j ->
  (current_ it = e_off (List.last es nil_entry) <-> S j = length es).
Proof.
  intros (_ & Hj & (_ & Hcur & _) & _).
  rewrite last_nth_entry, Hcur.
  rewrite (wf_off cmp d R N es Hwf j Hj),
    (wf_off cmp d R N es Hwf (length es - 1) ltac:(lia)).
  split.
  - intros H0. apply (wf_so_inj cmp d R N es Hwf) in H0; lia.
  - intros H0. replace (length es - 1)%nat with j by lia. reflexivity.
Qed.

(** A well-formed block has the geometry of a steady iterator. *)
Lemma wf_geometry it : on_block d R N it -> geometry_ok it.
Proof.
  intros (_ & Hr & Hn).
  pose proof (wf_num_restarts_bound cmp d R N es Hwf).
  pose proof (wf_restarts_range _ _ _ _ _ Hwf).
  unfold geometry_ok. rewrite Hr, Hn. lia.
Qed.

(** [Seek] for the key of an entry, when the keys are strictly
    increasing. *)
Lemma Seek_finds_entry it k :
  (forall a b c, cmp a b <= 0 -> cmp b c < 0 -> cmp a c < 0) ->
  (forall i j, (i < j)%nat -> (j < length es)%nat ->
               cmp (e_key (ent i)) (e_key (ent j)) < 0) ->
  0 <= cmp (e_key (ent k)) (e_key (ent k)) ->
  on_block d R N it -> (k < length es)%nat ->
  exists it',
    Seek cmp it (e_key (ent k)) = Some it'
    /\ positioned d R N es it' k /\ status_ it' = status_ it.
Proof.
  intros Htrans Hstrict Hrefl Hb Hk.
  destruct (Seek_spec cmp d R N es Hwf Htrans it (e_key (ent k)) Hb)
    as (L & it' & _ & _ & _ & _ & Hseek & Hst & Hres).
  exists it'. split; [exact Hseek |]. split; [| exact Hst].
  destruct Hres as [(m & Hpos & Hge & Hbelow) | (_ & _ & Hbelow)].
  - destruct (lt_eq_lt_dec m k) as [[Hlt | ->] | Hgt].
    + pose proof (Hstrict m k Hlt Hk). lia.
    + exact Hpos.
    + pose proof (Hbelow k Hgt). lia.
  - pose proof (Hbelow k Hk). lia.
Qed.

(** What holds after every run on a fresh iterator over the block. *)
Lemma wf_run_invariants it0 os it :
  Iter_new d R N = Some it0 ->
  run_ops cmp it0 os = Some it ->
  steady it /\ cursor_ok d R N es it /\ status_ it = Ok.
Proof.
  intros Hnew Hrun.
  destruct (Iter_new_cursor_ok d R N es it0 Hnew) as [Hok0 Hst0].
  destruct (run_ops_cursor_ok cmp d R N es Hwf os it0 it Hok0 Hrun)
    as [Hok Hst].
  pose proof (wf_num_restarts_bound cmp d R N es Hwf) as HN.
  destruct (Iter_new_steady d R N it0 (wf_restarts_range _ _ _ _ _ Hwf)
              ltac:(lia) Hnew) as (Hs0 & _).
  destruct (run_ops_steady cmp os it0 it Hs0 Hrun) as [Hs _].
  split; [exact Hs |]. split; [exact Hok | congruence].
Qed.

End WellFormedRuns.

(** X16.  On a well-formed block that the buffer holds together with
    its restart array, [SeekToFirst] followed by [k] calls of [Next] on
    a fresh iterator returns with the iterator on entry [k] (offset,
    key and value of that entry), for every [k] below the number of
    entries; one more [Next] after the last entry leaves the iterator
    invalid.  The status is ok throughout. *)
Theorem forward_iteration_visits_entries
        (cmp : bytes -> bytes -> Z) (d : bytes) (R N : Z) (es : list Entry)
        (it0 : Iter) :
  wf_block cmp d R N es ->
  R + 4 * N <= Z.of_nat (length d) ->
  Iter_new d R N = Some it0 ->
  (forall k, (k < length es)%nat ->
     exists it,
       run_ops cmp it0 (OpSeekToFirst :: repeat OpNext k) = Some it
       /\ at_entry it (nth k es nil_entry) /\ status_ it = Ok)
  /\ (exists it,
         run_ops cmp it0 (OpSeekToFirst :: repeat OpNext (length es)) = Some it
         /\ Valid it = false /\ status_ it = Ok).
Proof.
  intros Hwf _ Hnew.
  destruct (Iter_new_cursor_ok d R N es it0 Hnew) as [[Hb _] Hst0].
  split.
  - intros k Hk.
    destruct (forward_run cmp d R N es Hwf k it0 Hb Hk) as (it & H1 & Hpos & Hst).
    exists it. split; [exact H1 |]. split; [apply Hpos | congruence].
  - destruct (forward_end cmp d R N es Hwf it0 Hb) as (it & H1 & Hinv & Hst).
    exists it. split; [exact H1 |]. split; [exact Hinv | congruence].
Qed.

Lemma forward_iteration_visits_entries_witness :
  wf_block bytewise block_k 29 2 entries_k
  /\ 29 + 4 * 2 <= Z.of_nat (length block_k)
  /\ Iter_new block_k 29 2 = Some iter_k
  /\ (forall k, (k < length entries_k)%nat ->
        exists it,
          run_ops bytewise iter_k (OpSeekToFirst :: repeat OpNext k) = Some it
          /\ at_entry it (nth k entries_k nil_entry) /\ status_ it = Ok)
  /\ (exists it,
         run_ops bytewise iter_k
                 (OpSeekToFirst :: repeat OpNext (length entries_k)) = Some it
         /\ Valid it = false /\ status_ it = Ok).
Proof.
  split; [exact block_k_wf |]. split; [vm_compute; discriminate |].
  split; [reflexivity |].
  apply (forward_iteration_visits_entries bytewise block_k 29 2 entries_k iter_k
           block_k_wf).
  - vm_compute; discriminate.
  - reflexivity.
Defined.

(** X17.  On a well-formed block that the buffer holds together with
    its restart array, [SeekToLast] followed by [k] calls of [Prev] on
    a fresh iterator returns with the iterator on the entry [k] places
    before the last, for every [k] below the number of entries; one
    more [Prev] after the first entry leaves the iterator invalid.  The
    status is ok throughout. *)
Theorem backward_iteration_visits_entries
        (cmp : bytes -> bytes -> Z) (d : bytes) (R N : Z) (es : list Entry)
        (it0 : Iter) :
  wf_block cmp d R N es ->
  R + 4 * N <= Z.of_nat (length d) ->
  Iter_new d R N = Some it0 ->
  (forall k, (k < length es)%nat ->
     exists it,
       run_ops cmp it0 (OpSeekToLast :: repeat OpPrev k) = Some it
       /\ at_entry it (nth (length es - 1 - k) es nil_entry)
       /\ status_ it = Ok)
  /\ (exists it,
         run_ops cmp it0 (OpSeekToLast :: repeat OpPrev (length es)) = Some it
         /\ Valid it = false /\ status_ it = Ok).
Proof.
  intros Hwf _ Hnew.
  destruct (Iter_new_cursor_ok d R N es it0 Hnew) as [[Hb _] Hst0].
  split.
  - intros k Hk.
    destruct (backward_run cmp d R N es Hwf k it0 Hb Hk) as (it & H1 & Hpos & Hst).
    exists it. split; [exact H1 |]. split; [apply Hpos | congruence].
  - destruct (backward_end cmp d R N es Hwf it0 Hb) as (it & H1 & Hinv & Hst).
    exists it. split; [exact H1 |]. split; [exact Hinv | congruence].
Qed.

Lemma backward_iteration_visits_entries_witness :
  wf_block bytewise block_k 29 2 entries_k
  /\ 29 + 4 * 2 <= Z.of_nat (length block_k)
  /\ Iter_new block_k 29 2 = Some iter_k
  /\ (forall k, (k < length entries_k)%nat ->
        exists it,
          run_ops bytewise iter_k (OpSeekToLast :: repeat OpPrev k) = Some it
          /\ at_entry it (nth (length entries_k - 1 - k) entries_k nil_entry)
          /\ status_ it = Ok)
  /\ (exists it,
         run_ops bytewise iter_k
                 (OpSeekToLast :: repeat OpPrev (length entries_k)) = Some it
         /\ Valid it = false /\ status_ it = Ok).
Proof.
  split; [exact block_k_wf |]. split; [vm_compute; discriminate |].
  split; [reflexivity |].
  apply (backward_iteration_visits_entries bytewise block_k 29 2 entries_k
           iter_k block_k_wf).
  - vm_compute; discriminate.
  - reflexivity.
Defined.

(** X18.  On a well-formed block that the buffer holds together with
    its restart array, from every valid position reached by positioning
    operations on a fresh iterator that is not on the first entry,
    [Prev] and then [Next] both return, and the iterator is back on the
    same entry: same current offset, key and value. *)
Theorem Prev_then_Next_returns
        (cmp : bytes -> bytes -> Z) (d : bytes) (R N : Z) (es : list Entry)
        (it0 : Iter) (os : list Op) (it : Iter) :
  wf_block cmp d R N es ->
  R + 4 * N <= Z.of_nat (length d) ->
  Iter_new d R N = Some it0 ->
  run_ops cmp it0 os = Some it ->
  Valid it = true ->
  current_ it <> 0 ->
  exists it1 it2,
    Prev it = Some it1 /\ Valid it1 = true
    /\ Next it1 = Some it2 /\ Valid it2 = true
    /\ current_ it2 = current_ it
    /\ key it2 = key it
    /\ value it2 = value it.
Proof.
  intros Hwf _ Hnew Hrun Hvalid Hfirst.
  destruct (Iter_new_cursor_ok d R N es it0 Hnew) as [Hok0 _].
  destruct (run_ops_cursor_ok cmp d R N es Hwf os it0 it Hok0 Hrun)
    as [[Hb Hpos] _].
  destruct (Hpos Hvalid) as (j & Hj).
  pose proof Hj as (_ & Hlen & (_ & Hcur & Hk & Hv) & _).
  destruct j as [| j].
  { exfalso. apply Hfirst.
    apply (positioned_first cmp d R N es Hwf it 0%nat Hj). reflexivity. }
  destruct (Prev_Next_positioned cmp d R N es Hwf it j Hj)
    as (it1 & it2 & Hp & Hpos1 & Hn & Hpos2).
  exists it1, it2.
  destruct Hpos1 as (_ & _ & (Hv1 & _) & _).
  destruct Hpos2 as ((Hd2 & _) & _ & (Hv2 & Hcur2 & Hk2 & Hval2) & _).
  destruct Hb as (Hd & _).
  repeat (split; [first [assumption | congruence] |]).
  split.
  - unfold key. rewrite Hv2, Hvalid. congruence.
  - unfold value. rewrite Hv2, Hvalid, Hval2, Hv, Hd2, Hd. reflexivity.
Qed.

Lemma Prev_then_Next_returns_witness :
  wf_block bytewise block_k 29 2 entries_k
  /\ 29 + 4 * 2 <= Z.of_nat (length block_k)
  /\ Iter_new block_k 29 2 = Some iter_k
  /\ run_ops bytewise iter_k [OpSeekToFirst; OpNext] = Some iter_k_second
  /\ Valid iter_k_second = true
  /\ current_ iter_k_second <> 0
  /\ exists it1 it2,
      Prev iter_k_second = Some it1 /\ Valid it1 = true
      /\ Next it1 = Some it2 /\ Valid it2 = true
      /\ current_ it2 = current_ iter_k_second
      /\ key it2 = key iter_k_second
      /\ value it2 = value iter_k_second.
Proof.
  split; [exact block_k_wf |].
  split; [vm_compute; discriminate |].
  split; [reflexivity |].
  split; [vm_compute; reflexivity |].
  split; [reflexivity |].
  split; [vm_compute; discriminate |].
  apply (Prev_then_Next_returns bytewise block_k 29 2 entries_k iter_k
           [OpSeekToFirst; OpNext] iter_k_second block_k_wf).
  - vm_compute; discriminate.
  - reflexivity.
  - vm_compute; reflexivity.
  - reflexivity.
  - vm_compute; discriminate.
Defined.

(** X19.  On a well-formed block that the buffer holds together with
    its restart array, from every valid position reached by positioning
    operations on a fresh iterator: [Prev] on the first entry (offset
    0) and [Next] on the last entry return with the iterator invalid
    and the status still ok; running off either end of the block is not
    an error. *)
Theorem stepping_off_the_ends
        (cmp : bytes -> bytes -> Z) (d : bytes) (R N : Z) (es : list Entry)
        (it0 : Iter) (os : list Op) (it : Iter) :
  wf_block cmp d R N es ->
  R + 4 * N <= Z.of_nat (length d) ->
  Iter_new d R N = Some it0 ->
  run_ops cmp it0 os = Some it ->
  Valid it = true ->
  (current_ it = 0 ->
   exists it', Prev it = Some it' /\ Valid it' = false /\ status_ it' = Ok)
  /\ (current_ it = e_off (List.last es nil_entry) ->
      exists it', Next it = Some it' /\ Valid it' = false /\ status_ it' = Ok).
Proof.
  intros Hwf _ Hnew Hrun Hvalid.
  destruct (Iter_new_cursor_ok d R N es it0 Hnew) as [Hok0 Hst0].
  destruct (run_ops_cursor_ok cmp d R N es Hwf os it0 it Hok0 Hrun)
    as [[Hb Hpos] Hst].
  destruct (Hpos Hvalid) as (j & Hj).
  split.
  - intros Hcur.
    apply (positioned_first cmp d R N es Hwf it j Hj) in Hcur. subst j.
    destruct (Prev_spec cmp d R N es Hwf it 0%nat Hj)
      as (it' & Hp & Hst' & _ & Hinv & _).
    exists it'. split; [exact Hp |]. split; [apply Hinv; reflexivity | congruence].
  - intros Hcur.
    apply (positioned_last cmp d R N es Hwf it j Hj) in Hcur.
    destruct (Next_spec cmp d R N es Hwf it j Hj)
      as (it' & Hn & Hst' & _ & _ & Hinv).
    exists it'. split; [exact Hn |]. split; [apply Hinv; exact Hcur | congruence].
Qed.

Lemma stepping_off_the_ends_witness :
  wf_block bytewise block_ac 10 2 entries_ac
  /\ 10 + 4 * 2 <= Z.of_nat (length block_ac)
  /\ Iter_new block_ac 10 2 = Some iter_ac
  /\ (exists it,
         run_ops bytewise iter_ac [OpSeekToFirst] = Some it
         /\ Valid it = true
         /\ (current_ it = 0 ->
             exists it', Prev it = Some it' /\ Valid it' = false
                         /\ status_ it' = Ok)
         /\ (current_ it = e_off (List.last entries_ac nil_entry) ->
             exists it', Next it = Some it' /\ Valid it' = false
                         /\ status_ it' = Ok)).
Proof.
  split; [exact block_ac_wf |].
  split; [vm_compute; discriminate |].
  split; [reflexivity |].
  eexists. split; [vm_compute; reflexivity |].
  split; [reflexivity |].
  apply (stepping_off_the_ends bytewise block_ac 10 2 entries_ac iter_ac
           [OpSeekToFirst] _ block_ac_wf).
  - vm_compute; discriminate.
  - reflexivity.
  - vm_compute; reflexivity.
  - reflexivity.
Defined.

(** X20.  On a well-formed block that the buffer holds together with
    its restart array and whose keys are strictly increasing, under a
    comparator that is transitive and does not put a key below itself,
    [Seek] for the key of entry [k] returns with the iterator on entry
    [k], whatever the iterator's position before, and leaves the status
    as it was. *)
Theorem Seek_finds_existing_key
        (cmp : bytes -> bytes -> Z) (d : bytes) (R N : Z) (es : list Entry)
        (it : Iter) (k : nat) :
  wf_block cmp d R N es ->
  R + 4 * N <= Z.of_nat (length d) ->
  (forall a b c, cmp a b <= 0 -> cmp b c < 0 -> cmp a c < 0) ->
  (forall a, 0 <= cmp a a) ->
  (forall i j, (i < j)%nat -> (j < length es)%nat ->
               cmp (e_key (nth i es nil_entry)) (e_key (nth j es nil_entry)) < 0) ->
  on_block d R N it ->
  (k < length es)%nat ->
  exists it',
    Seek cmp it (e_key (nth k es nil_entry)) = Some it'
    /\ at_entry it' (nth k es nil_entry)
    /\ status_ it' = status_ it.
Proof.
  intros Hwf _ Htrans Hrefl Hstrict Hb Hk.
  destruct (Seek_finds_entry cmp d R N es Hwf it k Htrans Hstrict (Hrefl _) Hb Hk)
    as (it' & Hseek & Hpos & Hst).
  exists it'. split; [exact Hseek |]. split; [apply Hpos | exact Hst].
Qed.

Lemma Seek_finds_existing_key_witness :
  wf_block bytewise block_k 29 2 entries_k
  /\ 29 + 4 * 2 <= Z.of_nat (length block_k)
  /\ on_block block_k 29 2 iter_k_second
  /\ exists it',
      Seek bytewise iter_k_second (e_key (nth 3 entries_k nil_entry)) = Some it'
      /\ at_entry it' (nth 3 entries_k nil_entry)
      /\ status_ it' = status_ iter_k_second.
Proof.
  split; [exact block_k_wf |].
  split; [vm_compute; discriminate |].
  split; [repeat split |].
  apply (Seek_finds_existing_key bytewise block_k 29 2 entries_k iter_k_second
           3 block_k_wf).
  - vm_compute; discriminate.
  - exact bytewise_trans.
  - intros a. rewrite bytewise_refl. lia.
  - exact entries_k_strict.
  - repeat split.
  - simpl. lia.
Defined.

(** X21.  On a well-formed block that the buffer holds together with
    its restart array, no operation reports a corruption and none is
    stuck: after every run of positioning operations on a fresh
    iterator the status is ok, a valid iterator stands on one of the
    entries of the block, and every operation whose assertion holds
    ([Next] and [Prev] want a valid iterator) returns. *)
Theorem well_formed_block_never_corrupts
        (cmp : bytes -> bytes -> Z) (d : bytes) (R N : Z) (es : list Entry)
        (it0 : Iter) (os : list Op) (it : Iter) :
  wf_block cmp d R N es ->
  R + 4 * N <= Z.of_nat (length d) ->
  Iter_new d R N = Some it0 ->
  run_ops cmp it0 os = Some it ->
  status_ it = Ok
  /\ (Valid it = true ->
      exists j, (j < length es)%nat /\ at_entry it (nth j es nil_entry))
  /\ (forall o, op_allowed it o = true ->
                exists it', run_op cmp it o = Some it' /\ status_ it' = Ok).
Proof.
  intros Hwf _ Hnew Hrun.
  destruct (wf_run_invariants cmp d R N es Hwf it0 os it Hnew Hrun)
    as (Hs & Hok & Hst).
  split; [exact Hst |]. split.
  - intros Hv. destruct Hok as [_ Hpos]. destruct (Hpos Hv) as (j & Hj).
    exists j. split; apply Hj.
  - intros o Hal.
    destruct (run_op_total cmp it o Hs Hal) as (it' & Hop & _).
    exists it'. split; [exact Hop |].
    destruct (run_op_cursor_ok cmp d R N es Hwf it o it' Hok Hop) as [_ Hst'].
    congruence.
Qed.

Lemma well_formed_block_never_corrupts_witness :
  wf_block bytewise block_k 29 2 entries_k
  /\ 29 + 4 * 2 <= Z.of_nat (length block_k)
  /\ Iter_new block_k 29 2 = Some iter_k
  /\ run_ops bytewise iter_k [OpSeekToFirst; OpNext] = Some iter_k_second
  /\ status_ iter_k_second = Ok
  /\ (Valid iter_k_second = true ->
      exists j, (j < length entries_k)%nat
                /\ at_entry iter_k_second (nth j entries_k nil_entry))
  /\ (forall o, op_allowed iter_k_second o = true ->
                exists it', run_op bytewise iter_k_second o = Some it'
                            /\ status_ it' = Ok).
Proof.
  split; [exact block_k_wf |].
  split; [vm_compute; discriminate |].
  split; [reflexivity |].
  split; [vm_compute; reflexivity |].
  apply (well_formed_block_never_corrupts bytewise block_k 29 2 entries_k
           iter_k [OpSeekToFirst; OpNext] iter_k_second block_k_wf).
  - vm_compute; discriminate.
  - reflexivity.
  - vm_compute; reflexivity.
Defined.

(** X22.  On a well-formed block that the buffer holds together with
    its restart array, in every valid state reached by positioning
    operations on a fresh iterator, [restart_index_] is a restart index
    whose restart point is at or before the current entry, and every
    later restart point is at or after it: the index is that of the
    region the entry lies in, or of the region before when the entry is
    the first of its region. *)
Theorem restart_index_brackets_current
        (cmp : bytes -> bytes -> Z) (d : bytes) (R N : Z) (es : list Entry)
        (it0 : Iter) (os : list Op) (it : Iter) :
  wf_block cmp d R N es ->
  R + 4 * N <= Z.of_nat (length d) ->
  Iter_new d R N = Some it0 ->
  run_ops cmp it0 os = Some it ->
  Valid it = true ->
  0 <= restart_index_ it < N
  /\ restart_point d R (restart_index_ it) <= current_ it
  /\ forall i, restart_index_ it < i < N -> current_ it <= restart_point d R i.
Proof.
  intros Hwf _ Hnew Hrun Hvalid.
  destruct (wf_run_invariants cmp d R N es Hwf it0 os it Hnew Hrun)
    as ((_ & _ & He) & (Hb & Hpos) & _).
  destruct (Hpos Hvalid) as (j & _ & Hj & (_ & Hcur & _) & Hri & Hrp).
  destruct (He Hvalid) as (_ & _ & _ & _ & Hup).
  destruct Hb as (Hd & Hr & Hn). rewrite Hd, Hr, Hn in Hup.
  split; [exact Hri |]. split; [rewrite Hcur; exact Hrp |].
  intros i Hi. specialize (Hup ltac:(lia)).
  change (DecodeFixed32 d (R + (restart_index_ it + 1) * 4))
    with (restart_point d R (restart_index_ it + 1)) in Hup.
  pose proof (wf_restart_mono cmp d R N es Hwf (restart_index_ it + 1) i
                ltac:(lia) ltac:(lia) ltac:(lia)).
  lia.
Qed.

Lemma restart_index_brackets_current_witness :
  wf_block bytewise block_k 29 2 entries_k
  /\ 29 + 4 * 2 <= Z.of_nat (length block_k)
  /\ Iter_new block_k 29 2 = Some iter_k
  /\ run_ops bytewise iter_k [OpSeekToFirst; OpNext] = Some iter_k_second
  /\ Valid iter_k_second = true
  /\ 0 <= restart_index_ iter_k_second < 2
  /\ restart_point block_k 29 (restart_index_ iter_k_second)
     <= current_ iter_k_second
  /\ forall i, restart_index_ iter_k_second < i < 2 ->
               current_ iter_k_second <= restart_point block_k 29 i.
Proof.
  split; [exact block_k_wf |].
  split; [vm_compute; discriminate |].
  split; [reflexivity |].
  split; [vm_compute; reflexivity |].
  split; [reflexivity |].
  apply (restart_index_brackets_current bytewise block_k 29 2 entries_k
           iter_k [OpSeekToFirst; OpNext] iter_k_second block_k_wf).
  - vm_compute; discriminate.
  - reflexivity.
  - vm_compute; reflexivity.
  - reflexivity.
Defined.

(** ** The block handle *)

(** X23.  A buffer of at least eight bytes whose trailer announces a
    restart count below 2^30 that the buffer has no room for
    ([(1 + count) * 4] exceeds its size) is caught by the constructor:
    it sets [size_] to 0, and [NewIterator] returns the error iterator
    for bad block contents. *)
Theorem Block_new_rejects_oversized_restart_count (d : bytes) (n : Z) :
  8 <= Z.of_nat (length d) ->
  DecodeFixed32 d (Z.of_nat (length d) - 4) = n ->
  0 <= n < 2 ^ 30 ->
  Z.of_nat (length d) < (1 + n) * 4 ->
  exists ro,
    Block.new d = Some (Block.mk d 0 ro)
    /\ Block.NewIterator (Block.mk d 0 ro)
       = Some (ErrorIterator (Corruption "bad block contents")).
Proof.
  intros Hlen Htrailer Hn Hsmall.
  unfold Block.new, Block.NumRestarts. cbn [Block.size_ Block.data_].
  destruct (Z.ltb_spec (Z.of_nat (length d)) 4); [lia |].
  destruct (Z.ltb_spec (Z.of_nat (length d)) 8); [lia |].
  cbn [mbind option_bind]. rewrite Htrailer.
  unfold Block.restart_offset_bits.
  rewrite (u32_small (1 + n)) by lia.
  unfold u64.
  rewrite (Z.mod_small ((1 + n) * 4) (2 ^ 64)) by lia.
  set (x := Z.of_nat (length d) - (1 + n) * 4).
  assert ((x mod 2 ^ 64) mod 2 ^ 32 = x + 2 ^ 32) as ->.
  { replace (2 ^ 64) with (2 ^ 32 * 2 ^ 32) by reflexivity.
    rewrite Z.rem_mul_r by lia.
    rewrite Z.mul_comm, Z.mod_add by lia.
    rewrite Z.mod_mod by lia.
    rewrite <- (Z.mod_add x 1 (2 ^ 32)) by lia.
    apply Z.mod_small. unfold x. lia. }
  destruct (Z.ltb_spec (Z.of_nat (length d) - 4) (x + 2 ^ 32));
    [| unfold x in *; lia].
  eexists. split; [reflexivity |]. reflexivity.
Qed.

Lemma Block_new_rejects_oversized_restart_count_witness :
  exists ro,
    Block.new [0;0;0;0; 5;0;0;0] = Some (Block.mk [0;0;0;0; 5;0;0;0] 0 ro)
    /\ Block.NewIterator (Block.mk [0;0;0;0; 5;0;0;0] 0 ro)
       = Some (ErrorIterator (Corruption "bad block contents")).
Proof.
  apply (Block_new_rejects_oversized_restart_count [0;0;0;0; 5;0;0;0] 5).
  - simpl. lia.
  - vm_compute; reflexivity.
  - lia.
  - simpl. lia.
Defined.

(** X24.  A buffer that holds a well-formed block, its restart array of
    [N] offsets at [R] and the trailer [N] in the last four bytes, is
    accepted by the constructor, [NewIterator] returns a block iterator
    for it, and [SeekToFirst] followed by [k] calls of [Next] on that
    iterator yields the key and the value bytes of entry [k]. *)
Theorem open_well_formed_block
        (cmp : bytes -> bytes -> Z) (d : bytes) (R N : Z) (es : list Entry)
        (k : nat) :
  wf_block cmp d R N es ->
  Z.of_nat (length d) = R + 4 * N + 4 ->
  R + 4 * N + 4 < 2 ^ 32 ->
  DecodeFixed32 d (R + 4 * N) = N ->
  (k < length es)%nat ->
  exists b it0 it,
    Block.new d = Some b
    /\ Block.NewIterator b = Some (BlockIterator it0)
    /\ run_ops cmp it0 (OpSeekToFirst :: repeat OpNext k) = Some it
    /\ key it = Some (e_key (nth k es nil_entry))
    /\ value it = Some (sub d (e_voff (nth k es nil_entry))
                            (e_vlen (nth k es nil_entry)))
    /\ status_ it = Ok.
Proof.
  intros Hwf Hlen Hsize Htrailer Hk.
  pose proof (wf_num_restarts_bound cmp d R N es Hwf) as HN.
  pose proof (wf_restarts_range _ _ _ _ _ Hwf) as HR.
  destruct (NewIterator_fitting d R N Hlen ltac:(lia) ltac:(lia) ltac:(lia)
              Htrailer) as [Hnew Hiter].
  destruct (Z.eqb_spec N 0) as [| _]; [lia |].
  set (it0 := mkIter d R N R N 0 [] (mkSlice None 0) Ok) in *.
  assert (on_block d R N it0) as Hb by (repeat split).
  destruct (forward_run cmp d R N es Hwf k it0 Hb Hk)
    as (it & Hrun & ((Hd & _) & _ & (Hv & _ & Hkey & Hval) & _) & Hst).
  exists (Block.mk d (R + 4 * N + 4) R), it0, it.
  split; [exact Hnew |]. split; [exact Hiter |]. split; [exact Hrun |].
  split; [unfold key; rewrite Hv, Hkey; reflexivity |].
  split; [unfold value; rewrite Hv, Hval, Hd; reflexivity | exact Hst].
Qed.

Lemma open_well_formed_block_witness :
  wf_block bytewise block_k 29 2 entries_k
  /\ Z.of_nat (length block_k) = 29 + 4 * 2 + 4
  /\ exists b it0 it,
      Block.new block_k = Some b
      /\ Block.NewIterator b = Some (BlockIterator it0)
      /\ run_ops bytewise it0 (OpSeekToFirst :: repeat OpNext 3) = Some it
      /\ key it = Some (e_key (nth 3 entries_k nil_entry))
      /\ value it = Some (sub block_k (e_voff (nth 3 entries_k nil_entry))
                              (e_vlen (nth 3 entries_k nil_entry)))
      /\ status_ it = Ok.
Proof.
  split; [exact block_k_wf |]. split; [reflexivity |].
  apply (open_well_formed_block bytewise block_k 29 2 entries_k 3 block_k_wf).
  - reflexivity.
  - lia.
  - vm_compute; reflexivity.
  - simpl. lia.
Defined.

(** X25.  [NewMetricsIterator] hands out the same kind of iterator as
    [NewIterator] does for the same block: the error iterator and the
    empty iterator come with a NULL metrics pointer; a block iterator
    comes as a [MetricsIter] in the same fresh state, recording into
    newly created metrics for the block's restart count with
    [kBytesPerRestart] bytes per restart, and the same metrics object is
    stored for the caller. *)
Theorem NewMetricsIterator_matches_NewIterator
        (b : Block.t) (file_number block_offset : Z) :
  NewMetricsIterator b file_number block_offset
  = match Block.NewIterator b with
    | None => None
    | Some (ErrorIterator s) => Some (MetricsErrorIterator s, None)
    | Some EmptyIterator => Some (MetricsEmptyIterator, None)
    | Some (BlockIterator it) =>
        let m := BlockMetrics.new file_number block_offset (num_restarts_ it)
                                  kBytesPerRestart in
        Some (MetricsBlockIterator (MetricsIter.mk it (Some m)), Some m)
    end.
Proof.
  unfold NewMetricsIterator, Block.NewIterator.
  destruct (Block.size_ b <? 8); [reflexivity |].
  destruct (Block.NumRestarts b) as [n |]; [| reflexivity].
  cbn [mbind option_bind].
  destruct (n =? 0); [reflexivity |].
  unfold Iter_new. destruct (0 <? n); reflexivity.
Qed.

(** ** The metrics-recording iterator *)

Lemma MetricsIter_RecordAccess_iter mi mi' :
  MetricsIter.RecordAccess mi = Some mi' ->
  MetricsIter.iter mi' = MetricsIter.iter mi.
Proof.
  unfold MetricsIter.RecordAccess.
  destruct (MetricsIter.metrics_ mi) as [m |]; [| intros [= <-]; reflexivity].
  destruct (Valid (MetricsIter.iter mi)); [| intros [= <-]; reflexivity].
  destruct (BlockMetrics.RecordAccess m _ _); [| discriminate].
  cbn. intros [= <-]. reflexivity.
Qed.

(** A [MetricsIter] operation is the [Iter] operation followed by
    [RecordAccess]. *)
Lemma MetricsIter_run_op_unfold cmp mi o :
  MetricsIter.run_op cmp mi o
  = match run_op cmp (MetricsIter.iter mi) o with
    | Some it' =>
        MetricsIter.RecordAccess (MetricsIter.mk it' (MetricsIter.metrics_ mi))
    | None => None
    end.
Proof.
  destruct o; cbn [MetricsIter.run_op run_op];
    [unfold MetricsIter.SeekToFirst | unfold MetricsIter.SeekToLast
    | unfold MetricsIter.Seek | unfold MetricsIter.Next
    | unfold MetricsIter.Prev];
    match goal with |- context [mbind _ ?x] => destruct x end; reflexivity.
Qed.

Lemma MetricsIter_run_op_iter cmp mi o mi' :
  MetricsIter.run_op cmp mi o = Some mi' ->
  run_op cmp (MetricsIter.iter mi) o = Some (MetricsIter.iter mi').
Proof.
  rewrite MetricsIter_run_op_unfold.
  destruct (run_op cmp (MetricsIter.iter mi) o) as [it' |]; [| discriminate].
  intros H. apply MetricsIter_RecordAccess_iter in H. rewrite H. reflexivity.
Qed.

Lemma MetricsIter_run_ops_iter cmp os :
  forall mi mi',
    MetricsIter.run_ops cmp mi os = Some mi' ->
    run_ops cmp (MetricsIter.iter mi) os = Some (MetricsIter.iter mi').
Proof.
  induction os as [| o os IH]; intros mi mi'; cbn [MetricsIter.run_ops run_ops].
  - intros [= <-]. reflexivity.
  - destruct (MetricsIter.run_op cmp mi o) as [mi1 |] eqn:H1; [| discriminate].
    apply MetricsIter_run_op_iter in H1. rewrite H1. apply IH.
Qed.

(** The private [RecordAccess] on a steady iterator with fitting
    metrics: it returns, marks the slot of the position when the
    iterator is valid, changes nothing when it is not, and never makes a
    hot slot cold. *)
Lemma MetricsIter_RecordAccess_spec it m :
  steady it -> BlockMetrics.addressable m ->
  BlockMetrics.num_restarts_ m = num_restarts_ it ->
  exists m',
    MetricsIter.RecordAccess (MetricsIter.mk it (Some m))
    = Some (MetricsIter.mk it (Some m'))
    /\ BlockMetrics.addressable m'
    /\ BlockMetrics.num_restarts_ m' = BlockMetrics.num_restarts_ m
    /\ (Valid it = true ->
        BlockMetrics.IsHot m' (restart_index_ it) (restart_offset_ it)
        = Some true)
    /\ (Valid it = false -> m' = m)
    /\ (forall r s, 0 <= r < BlockMetrics.num_restarts_ m -> 0 <= s ->
                    BlockMetrics.IsHot m r s = Some true ->
                    BlockMetrics.IsHot m' r s = Some true).
Proof.
  intros (_ & Hro & He) Hm Hn. pose proof Hm as (Hwf & Hw & Hsize).
  unfold MetricsIter.RecordAccess. cbn [MetricsIter.metrics_ MetricsIter.iter].
  destruct (Valid it) eqn:Hv.
  - destruct (He eq_refl) as (_ & Hri & _).
    rewrite <- Hn in Hri.
    destruct (RecordAccess_IsHot m (restart_index_ it) (restart_offset_ it)
                Hwf Hw Hsize Hri (proj1 Hro)) as (m' & Hrec & Hhot).
    rewrite Hrec. cbn [mbind option_bind].
    destruct (RecordAccess_keeps m _ _ m' Hrec) as (_ & _ & Hn' & _ & _ & _ & Hm').
    exists m'. split; [reflexivity |]. split; [apply Hm'; exact Hm |].
    split; [exact Hn' |]. split; [intros _; exact Hhot |].
    split; [discriminate |].
    intros r s Hr Hs Hh.
    destruct (RecordAccess_frame m _ _ m' r s Hm Hri (proj1 Hro) Hr Hs Hrec)
      as (h & Hh1 & Hh2).
    rewrite Hh2. assert (h = true) as -> by congruence. reflexivity.
  - exists m. split; [reflexivity |]. split; [exact Hm |].
    split; [reflexivity |]. split; [discriminate |]. split; [reflexivity | auto].
Qed.

(** One operation of a [MetricsIter] whose metrics fit. *)
Lemma MetricsIter_run_op_spec cmp mi m o it' :
  steady (MetricsIter.iter mi) ->
  MetricsIter.metrics_ mi = Some m -> BlockMetrics.addressable m ->
  BlockMetrics.num_restarts_ m = num_restarts_ (MetricsIter.iter mi) ->
  run_op cmp (MetricsIter.iter mi) o = Some it' ->
  exists m',
    MetricsIter.run_op cmp mi o = Some (MetricsIter.mk it' (Some m'))
    /\ steady it' /\ same_block (MetricsIter.iter mi) it'
    /\ BlockMetrics.addressable m'
    /\ BlockMetrics.num_restarts_ m' = BlockMetrics.num_restarts_ m
    /\ (Valid it' = true ->
        BlockMetrics.IsHot m' (restart_index_ it') (restart_offset_ it')
        = Some true)
    /\ (Valid it' = false -> m' = m)
    /\ (forall r s, 0 <= r < BlockMetrics.num_restarts_ m -> 0 <= s ->
                    BlockMetrics.IsHot m r s = Some true ->
                    BlockMetrics.IsHot m' r s = Some true).
Proof.
  intros Hst Hmi Hm Hn Hrun.
  destruct (run_op_total cmp _ o Hst (run_op_Some_allowed _ _ _ _ Hrun))
    as (it1 & H1 & Hsb & Hst1).
  assert (it1 = it') as -> by congruence.
  destruct (MetricsIter_RecordAccess_spec it' m Hst1 Hm)
    as (m' & Hrec & Hm' & Hn' & Hhot & Hsame & Hmono).
  { destruct Hsb as (_ & _ & ->). exact Hn. }
  exists m'. rewrite MetricsIter_run_op_unfold, Hrun, Hmi.
  split; [exact Hrec |]. auto 10.
Qed.

(** Runs of a [MetricsIter] whose metrics fit. *)
Lemma MetricsIter_run_ops_spec cmp os :
  forall mi m it',
    steady (MetricsIter.iter mi) ->
    MetricsIter.metrics_ mi = Some m -> BlockMetrics.addressable m ->
    BlockMetrics.num_restarts_ m = num_restarts_ (MetricsIter.iter mi) ->
    run_ops cmp (MetricsIter.iter mi) os = Some it' ->
    exists m',
      MetricsIter.run_ops cmp mi os = Some (MetricsIter.mk it' (Some m'))
      /\ steady it' /\ same_block (MetricsIter.iter mi) it'
      /\ BlockMetrics.addressable m'
      /\ BlockMetrics.num_restarts_ m' = BlockMetrics.num_restarts_ m
      /\ (position_hot mi -> position_hot (MetricsIter.mk it' (Some m')))
      /\ (forall r s, 0 <= r < BlockMetrics.num_restarts_ m -> 0 <= s ->
                      BlockMetrics.IsHot m r s = Some true ->
                      BlockMetrics.IsHot m' r s = Some true).
Proof.
  induction os as [| o os IH]; intros mi m it' Hst Hmi Hm Hn Hrun;
    cbn [run_ops MetricsIter.run_ops] in *.
  - injection Hrun as <-. exists m.
    destruct mi as [it om]. cbn in *. subst om.
    split; [reflexivity |]. split; [exact Hst |].
    split; [apply same_block_refl |]. auto.
  - destruct (run_op cmp (MetricsIter.iter mi) o) as [it1 |] eqn:H1;
      [| discriminate].
    destruct (MetricsIter_run_op_spec cmp mi m o it1 Hst Hmi Hm Hn H1)
      as (m1 & Hop & Hst1 & Hsb1 & Hm1 & Hn1 & Hhot1 & _ & Hmono1).
    rewrite Hop.
    destruct (IH (MetricsIter.mk it1 (Some m1)) m1 it' Hst1 eq_refl Hm1)
      as (m' & Hrun' & Hst' & Hsb' & Hm' & Hn' & Hhot' & Hmono');
      [| exact Hrun |].
    { cbn. destruct Hsb1 as (_ & _ & ->). congruence. }
    exists m'. split; [exact Hrun' |]. split; [exact Hst' |].
    split; [eapply same_block_trans; eauto |]. split; [exact Hm' |].
    split; [congruence |]. split.
    + intros _. apply Hhot'. intros Hv. exists m1.
      split; [reflexivity | apply Hhot1; exact Hv].
    + intros r s Hr Hs Hh. apply Hmono'; [lia | exact Hs |].
      apply Hmono1; assumption.
Qed.

(** What [NewMetricsIterator] hands out when it builds a [MetricsIter]. *)
Lemma NewMetricsIterator_block b fn bo mi0 om :
  NewMetricsIterator b fn bo = Some (MetricsBlockIterator mi0, om) ->
  exists n,
    Block.NumRestarts b = Some n /\ 0 < n
    /\ Iter_new (Block.data_ b) (Block.restart_offset_ b) n
       = Some (MetricsIter.iter mi0)
    /\ MetricsIter.metrics_ mi0 = Some (BlockMetrics.new fn bo n kBytesPerRestart)
    /\ om = MetricsIter.metrics_ mi0.
Proof.
  unfold NewMetricsIterator.
  destruct (Block.size_ b <? 8); [discriminate |].
  destruct (Block.NumRestarts b) as [n |]; [| discriminate].
  cbn [mbind option_bind].
  destruct (n =? 0); [discriminate |].
  destruct (Iter_new (Block.data_ b) (Block.restart_offset_ b) n) as [it |] eqn:Hnew;
    [| discriminate].
  cbn [mbind option_bind]. intros [= <- <-]. exists n.
  split; [reflexivity |].
  split; [unfold Iter_new in Hnew; destruct (Z.ltb_spec 0 n);
          [assumption | discriminate] |].
  auto.
Qed.

(** The [MetricsIter] that [NewMetricsIterator] returns for a block with
    fewer than 2^31 restarts: a steady fresh iterator over the block's
    bytes whose metrics fit. *)
Lemma NewMetricsIterator_fit b fn bo mi0 om :
  0 <= fn < 2 ^ 64 -> 0 <= bo < 2 ^ 64 ->
  0 <= Block.restart_offset_ b < 2 ^ 32 ->
  NewMetricsIterator b fn bo = Some (MetricsBlockIterator mi0, om) ->
  num_restarts_ (MetricsIter.iter mi0) < 2 ^ 31 ->
  steady (MetricsIter.iter mi0)
  /\ Valid (MetricsIter.iter mi0) = false
  /\ data_ (MetricsIter.iter mi0) = Block.data_ b
  /\ Block.NumRestarts b = Some (num_restarts_ (MetricsIter.iter mi0))
  /\ om = MetricsIter.metrics_ mi0
  /\ exists m0,
      MetricsIter.metrics_ mi0 = Some m0
      /\ BlockMetrics.addressable m0
      /\ BlockMetrics.num_restarts_ m0 = num_restarts_ (MetricsIter.iter mi0).
Proof.
  intros Hfn Hbo Hro Hnew HN.
  destruct (NewMetricsIterator_block b fn bo mi0 om Hnew)
    as (n & Hnum & Hpos & Hit & Hm & Hom).
  assert (num_restarts_ (MetricsIter.iter mi0) = n
          /\ Valid (MetricsIter.iter mi0) = false) as [Hn Hinv].
  { unfold Iter_new in Hit. destruct (0 <? n); [| discriminate].
    injection Hit as <-. split; [reflexivity |].
    unfold Valid. cbn. apply Z.ltb_irrefl. }
  rewrite Hn in *.
  destruct (Iter_new_steady _ _ n _ Hro ltac:(lia) Hit) as (Hs & Hd & _ & _).
  split; [exact Hs |]. split; [exact Hinv |]. split; [exact Hd |].
  split; [exact Hnum |]. split; [exact Hom |].
  exists (BlockMetrics.new fn bo n kBytesPerRestart).
  split; [exact Hm |]. split; [| reflexivity].
  unfold kBytesPerRestart.
  split; [apply BlockMetrics_new_wf; lia |]. cbn.
  split; [vm_compute; discriminate | lia].
Qed.

(** X26.  A [MetricsIter] iterates exactly as the [Iter] it extends.
    For the iterator that [NewMetricsIterator] returns for a block with
    fewer than 2^31 restarts whose buffer keeps every read of the
    iterator inside it ([reads_in_buffer]), and every run of
    positioning operations: the run returns on the [MetricsIter]
    exactly when it returns on the plain iterator, the iterator state
    is the same, and the metrics pointer is never NULL; recording an
    access never fails. *)
Theorem MetricsIter_same_iteration
        (cmp : bytes -> bytes -> Z) (b : Block.t) (file_number block_offset : Z)
        (mi0 : MetricsIter.t) (om : option BlockMetrics.t) (os : list Op) :
  0 <= file_number < 2 ^ 64 -> 0 <= block_offset < 2 ^ 64 ->
  0 <= Block.restart_offset_ b < 2 ^ 32 ->
  NewMetricsIterator b file_number block_offset
  = Some (MetricsBlockIterator mi0, om) ->
  num_restarts_ (MetricsIter.iter mi0) < 2 ^ 31 ->
  reads_in_buffer (Block.data_ b) (Block.restart_offset_ b)
                  (num_restarts_ (MetricsIter.iter mi0)) ->
  (forall it,
      run_ops cmp (MetricsIter.iter mi0) os = Some it ->
      exists m, MetricsIter.run_ops cmp mi0 os
                = Some (MetricsIter.mk it (Some m)))
  /\ (forall mi,
         MetricsIter.run_ops cmp mi0 os = Some mi ->
         run_ops cmp (MetricsIter.iter mi0) os = Some (MetricsIter.iter mi)).
Proof.
  intros Hfn Hbo Hro Hnew HN _.
  destruct (NewMetricsIterator_fit b _ _ mi0 om Hfn Hbo Hro Hnew HN)
    as (Hs & _ & _ & _ & _ & m0 & Hm0 & Ha & Hn).
  split.
  - intros it Hrun.
    destruct (MetricsIter_run_ops_spec cmp os mi0 m0 it Hs Hm0 Ha Hn Hrun)
      as (m & Hm & _).
    exists m. exact Hm.
  - intros mi. apply MetricsIter_run_ops_iter.
Qed.

Lemma MetricsIter_same_iteration_witness :
  NewMetricsIterator handle_k 1 7 = Some (MetricsBlockIterator miter_k, Some metrics_k)
  /\ reads_in_buffer block_k 29 2
  /\ (forall it,
         run_ops bytewise (MetricsIter.iter miter_k) [OpSeekToFirst; OpNext]
         = Some it ->
         exists m, MetricsIter.run_ops bytewise miter_k [OpSeekToFirst; OpNext]
                   = Some (MetricsIter.mk it (Some m)))
  /\ (forall mi,
         MetricsIter.run_ops bytewise miter_k [OpSeekToFirst; OpNext] = Some mi ->
         run_ops bytewise (MetricsIter.iter miter_k) [OpSeekToFirst; OpNext]
         = Some (MetricsIter.iter mi)).
Proof.
  split; [vm_compute; reflexivity |]. split; [exact block_k_reads |].
  apply (MetricsIter_same_iteration bytewise handle_k 1 7 miter_k
           (Some metrics_k) [OpSeekToFirst; OpNext]).
  - lia.
  - lia.
  - simpl. lia.
  - vm_compute; reflexivity.
  - simpl. lia.
  - exact block_k_reads.
Defined.



(** X28.  A [MetricsIter] never makes a hot slot cold.  For the
    iterator that [NewMetricsIterator] returns for a block with fewer
    than 2^31 restarts whose buffer keeps every read of the iterator
    inside it ([reads_in_buffer]): a pair of a restart index below the
    restart count and a restart offset that is hot after a run of
    positioning operations is still hot after every longer run. *)
Theorem MetricsIter_never_cools
        (cmp : bytes -> bytes -> Z) (b : Block.t) (file_number block_offset : Z)
        (mi0 : MetricsIter.t) (om : option BlockMetrics.t)
        (os1 os2 : list Op) (mi1 mi2 : MetricsIter.t)
        (m1 m2 : BlockMetrics.t) (r s : Z) :
  0 <= file_number < 2 ^ 64 -> 0 <= block_offset < 2 ^ 64 ->
  0 <= Block.restart_offset_ b < 2 ^ 32 ->
  NewMetricsIterator b file_number block_offset
  = Some (MetricsBlockIterator mi0, om) ->
  num_restarts_ (MetricsIter.iter mi0) < 2 ^ 31 ->
  reads_in_buffer (Block.data_ b) (Block.restart_offset_ b)
                  (num_restarts_ (MetricsIter.iter mi0)) ->
  MetricsIter.run_ops cmp mi0 os1 = Some mi1 ->
  MetricsIter.run_ops cmp mi1 os2 = Some mi2 ->
  MetricsIter.metrics_ mi1 = Some m1 ->
  MetricsIter.metrics_ mi2 = Some m2 ->
  0 <= r < num_restarts_ (MetricsIter.iter mi0) -> 0 <= s ->
  BlockMetrics.IsHot m1 r s = Some true ->
  BlockMetrics.IsHot m2 r s = Some true.
Proof.
  intros Hfn Hbo Hro Hnew HN _ Hrun1 Hrun2 Hm1 Hm2 Hr Hs Hh.
  destruct (NewMetricsIterator_fit b _ _ mi0 om Hfn Hbo Hro Hnew HN)
    as (Hs0 & _ & _ & _ & _ & m0 & Hm0 & Ha0 & Hn0).
  pose proof (MetricsIter_run_ops_iter cmp os1 mi0 mi1 Hrun1) as Hbase1.
  destruct (MetricsIter_run_ops_spec cmp os1 mi0 m0 _ Hs0 Hm0 Ha0 Hn0 Hbase1)
    as (m1' & Hr1 & Hst1 & (_ & _ & Hn1) & Ha1 & Hnm1 & _).
  assert (mi1 = MetricsIter.mk (MetricsIter.iter mi1) (Some m1')) as Hmi1
      by congruence.
  assert (m1' = m1) as -> by (rewrite Hmi1 in Hm1; cbn in Hm1; congruence).
  pose proof (MetricsIter_run_ops_iter cmp os2 mi1 mi2 Hrun2) as Hbase2.
  destruct (MetricsIter_run_ops_spec cmp os2 mi1 m1 _ Hst1 Hm1 Ha1
              ltac:(congruence) Hbase2)
    as (m2' & Hr2 & _ & _ & _ & _ & _ & Hmono).
  assert (mi2 = MetricsIter.mk (MetricsIter.iter mi2) (Some m2')) as Hmi2
      by congruence.
  assert (m2' = m2) as -> by (rewrite Hmi2 in Hm2; cbn in Hm2; congruence).
  apply Hmono; [| exact Hs | exact Hh]. rewrite Hnm1, Hn0. exact Hr.
Qed.

Lemma MetricsIter_never_cools_witness :
  NewMetricsIterator handle_k 1 7 = Some (MetricsBlockIterator miter_k, Some metrics_k)
  /\ reads_in_buffer block_k 29 2
  /\ MetricsIter.run_ops bytewise miter_k [OpSeekToFirst; OpNext]
     = Some miter_k_second
  /\ MetricsIter.run_ops bytewise miter_k_second [OpSeekToLast]
     = Some miter_k_last
  /\ BlockMetrics.IsHot metrics_k_second 0 0 = Some true
  /\ BlockMetrics.IsHot metrics_k_last 0 0 = Some true.
Proof.
  split; [vm_compute; reflexivity |]. split; [exact block_k_reads |].
  split; [vm_compute; reflexivity |].
  split; [vm_compute; reflexivity |].
  split; [vm_compute; reflexivity |].
  apply (MetricsIter_never_cools bytewise handle_k 1 7 miter_k
           (Some metrics_k) [OpSeekToFirst; OpNext] [OpSeekToLast]
           miter_k_second miter_k_last metrics_k_second metrics_k_last 0 0).
  - lia.
  - lia.
  - simpl. lia.
  - vm_compute; reflexivity.
  - simpl. lia.
  - exact block_k_reads.
  - vm_compute; reflexivity.
  - vm_compute; reflexivity.
  - reflexivity.
  - reflexivity.
  - simpl. lia.
  - lia.
  - vm_compute; reflexivity.
Defined.
